(** * Documentation rewriters: embeds, hints, arcade iframes, images

    A shallow embedding of the four batch rewriters of the repository
    ([scripts/replace-embeds.mjs], [scripts/replace-hints.mjs],
    [scripts/fix-images.mjs] and the arcade-iframe remover) together with
    the properties of their text transformers and of the file collector.

    A JavaScript string is modelled as a [list ascii]: a character is a
    UTF-16 code unit below 256.  The regular expressions of the scripts
    are kept as syntax trees and run by a backtracking matcher that follows
    the ECMAScript matching rules (continuation passing, alternatives tried
    in priority order, greedy and lazy quantifiers, capture groups,
    assertions and lookahead).  Where a comment quotes a pattern of the
    scripts, a space is put between a star and a closing parenthesis and
    a backquote stands for the double quote. *)

From Stdlib Require Import Ascii String List Bool Arith Lia.
Import ListNotations.

Set Implicit Arguments.
Local Open Scope list_scope.

(** ** Characters and strings *)

Definition jsstring := list ascii.

Definition DQ : ascii := "034"%char.
Definition LF : ascii := "010"%char.
Definition CR : ascii := "013"%char.

(** Literals of the development are written with [js]: a backquote stands
    for the double quote and a tilde for the line feed, every other
    character for itself. *)
Definition js_char (c : ascii) : ascii :=
  if Ascii.eqb c "`"%char then DQ else if Ascii.eqb c "~"%char then LF else c.

Definition js (s : string) : jsstring := map js_char (list_ascii_of_string s).

Definition code (c : ascii) : nat := nat_of_ascii c.

Definition in_range (lo hi : nat) (c : ascii) : bool :=
  (lo <=? code c) && (code c <=? hi).

(** WhiteSpace and LineTerminator code units below 256: TAB, LF, VT, FF,
    CR, SP and NBSP.  This is the set of [\s] and of [String.prototype.trim]. *)
Definition is_space (c : ascii) : bool :=
  in_range 9 13 c || (code c =? 32) || (code c =? 160).

Definition is_line_terminator (c : ascii) : bool :=
  (code c =? 10) || (code c =? 13).

(** [\w]: ASCII letters, digits and underscore. *)
Definition is_word (c : ascii) : bool :=
  in_range 97 122 c || in_range 65 90 c || in_range 48 57 c || (code c =? 95).

(** Canonicalize of the ignore-case flag (no unicode flag): the upper-case
    mapping, restricted to code units below 256.  [0xB5] and [0xFF] have
    upper-case forms above 255 that no other code unit below 256 shares and
    [0xDF] has a two-unit upper-case form, so all three stay as they are. *)
Definition canonicalize (c : ascii) : ascii :=
  if in_range 97 122 c then ascii_of_nat (code c - 32)
  else if in_range 224 254 c && negb (code c =? 247) then ascii_of_nat (code c - 32)
  else c.

(** [String.prototype.toLowerCase] on code units below 256. *)
Definition lower_char (c : ascii) : ascii :=
  if in_range 65 90 c then ascii_of_nat (code c + 32)
  else if in_range 192 222 c && negb (code c =? 215) then ascii_of_nat (code c + 32)
  else c.

Definition toLowerCase (s : jsstring) : jsstring := map lower_char s.

Fixpoint trimStart (s : jsstring) : jsstring :=
  match s with
  | c :: s' => if is_space c then trimStart s' else s
  | [] => []
  end.

Definition trimEnd (s : jsstring) : jsstring := rev (trimStart (rev s)).

Definition trim (s : jsstring) : jsstring := trimEnd (trimStart s).

Fixpoint str_eqb (a b : jsstring) : bool :=
  match a, b with
  | [], [] => true
  | x :: a', y :: b' => Ascii.eqb x y && str_eqb a' b'
  | _, _ => false
  end.

Fixpoint startsWith (s p : jsstring) {struct p} : bool :=
  match p, s with
  | [], _ => true
  | x :: p', y :: s' => Ascii.eqb x y && startsWith s' p'
  | _ :: _, [] => false
  end.

Definition endsWith (s p : jsstring) : bool := startsWith (rev s) (rev p).

(** [s.includes(p)] *)
Fixpoint includes (s p : jsstring) : bool :=
  startsWith s p ||
  match s with
  | [] => false
  | _ :: s' => includes s' p
  end.

(** [s.substring(i, j)] for [i <= j]. *)
Definition substring (i j : nat) (s : jsstring) : jsstring :=
  firstn (j - i) (skipn i s).

(** [s.replaceAll(p, r)] with a string pattern: the occurrences of [p]
    are found left to right without overlap; an empty pattern matches
    between all characters. *)
Fixpoint replaceAll_go (p r : jsstring) (skip : nat) (s : jsstring) : jsstring :=
  match s with
  | [] => []
  | c :: s' =>
    match skip with
    | S n => replaceAll_go p r n s'
    | 0 => if startsWith s p
           then r ++ replaceAll_go p r (length p - 1) s'
           else c :: replaceAll_go p r 0 s'
    end
  end.

Definition replaceAll (p r s : jsstring) : jsstring :=
  match p with
  | [] => r ++ flat_map (fun c => c :: r) s
  | _ => replaceAll_go p r 0 s
  end.

(** ** Regular expressions *)

Inductive citem : Type :=
| CChar (c : ascii)   (* a character of the class *)
| CSpace              (* \s *)
| CNonSpace           (* \S *)
| CWord.              (* \w *)

Inductive regex : Type :=
| Eps
| Chr (c : ascii)                       (* a literal character *)
| Cls (negated : bool) (items : list citem)   (* [...] and [^...], \s, \w *)
| Seq (r1 r2 : regex)
| Alt (r1 r2 : regex)                   (* r1|r2 *)
| Rep (min : nat) (max : option nat) (greedy : bool) (r : regex)
| Grp (i : nat) (r : regex)             (* capture group number i *)
| Bol                                   (* ^ *)
| Eol                                   (* $ *)
| WordB                                 (* \b *)
| Ahead (r : regex).                    (* (?=r) *)

Record flags : Type := Flags { ignoreCase : bool; multiline : bool }.

(** The matcher state: the input split at the current end index (the part
    before it reversed), the end index, and the captures, latest first.  A
    capture records the input that remained at its start and at its end. *)
Record mstate : Type := MState {
  before : jsstring;
  after : jsstring;
  idx : nat;
  caps : list (nat * (jsstring * jsstring))
}.

Definition advance (c : ascii) (rest : jsstring) (s : mstate) : mstate :=
  MState (c :: before s) rest (S (idx s)) (caps s).

Definition char_eq (fl : flags) (a c : ascii) : bool :=
  if ignoreCase fl then Ascii.eqb (canonicalize a) (canonicalize c)
  else Ascii.eqb a c.

Definition citem_match (fl : flags) (c : ascii) (it : citem) : bool :=
  match it with
  | CChar a => char_eq fl a c
  | CSpace => is_space c
  | CNonSpace => negb (is_space c)
  | CWord => is_word c
  end.

Definition cls_match (fl : flags) (negated : bool) (items : list citem)
  (c : ascii) : bool :=
  xorb negated (existsb (citem_match fl c) items).

(** [^]: the start of the input or, with the multiline flag, the
    character before is a line terminator ([bef] is the input before the
    current index, reversed). *)
Definition at_bol (fl : flags) (bef : jsstring) : bool :=
  match bef with
  | [] => true
  | c :: _ => multiline fl && is_line_terminator c
  end.

(** [$]: the end of the input or, with the multiline flag, the next
    character is a line terminator. *)
Definition at_eol (fl : flags) (aft : jsstring) : bool :=
  match aft with
  | [] => true
  | c :: _ => multiline fl && is_line_terminator c
  end.

(** IsWordChar of the character next to the current index. *)
Definition word_next (l : jsstring) : bool :=
  match l with c :: _ => is_word c | [] => false end.

Definition at_word_boundary (bef aft : jsstring) : bool :=
  xorb (word_next bef) (word_next aft).

Fixpoint groups (r : regex) : list nat :=
  match r with
  | Seq a b | Alt a b => groups a ++ groups b
  | Rep _ _ _ a | Ahead a => groups a
  | Grp i a => i :: groups a
  | _ => []
  end.

Definition clear_caps (gs : list nat) (s : mstate) : mstate :=
  match gs with
  | [] => s
  | _ => MState (before s) (after s) (idx s)
           (filter (fun e => negb (existsb (Nat.eqb (fst e)) gs)) (caps s))
  end.

Definition set_cap (i : nat) (s0 s : mstate) : mstate :=
  MState (before s) (after s) (idx s) ((i, (after s0, after s)) :: caps s).

Definition cont := mstate -> option mstate.

(** RepeatMatcher: [fuel] bounds the number of iterations; an iteration
    either uses up one of the [mn] required ones or moves the end index
    forward, so [S (mn + length (after s))] iterations are never exceeded. *)
Fixpoint repeat_matcher (body : mstate -> cont -> option mstate)
  (gs : list nat) (greedy : bool) (fuel mn : nat) (mx : option nat)
  (s : mstate) (k : cont) {struct fuel} : option mstate :=
  match fuel with
  | 0 => None
  | S fuel' =>
    match mx with
    | Some 0 => k s
    | _ =>
      let d := fun y : mstate =>
        if (mn =? 0) && (idx y =? idx s) then None
        else repeat_matcher body gs greedy fuel' (pred mn) (option_map pred mx) y k in
      let s' := clear_caps gs s in
      match mn with
      | S _ => body s' d
      | 0 =>
        if greedy then
          match body s' d with
          | Some z => Some z
          | None => k s
          end
        else
          match k s with
          | Some z => Some z
          | None => body s' d
          end
      end
    end
  end.

Fixpoint rmatch (fl : flags) (r : regex) (s : mstate) (k : cont)
  {struct r} : option mstate :=
  match r with
  | Eps => k s
  | Chr a =>
    match after s with
    | c :: rest => if char_eq fl a c then k (advance c rest s) else None
    | [] => None
    end
  | Cls neg items =>
    match after s with
    | c :: rest => if cls_match fl neg items c then k (advance c rest s) else None
    | [] => None
    end
  | Seq r1 r2 => rmatch fl r1 s (fun s1 => rmatch fl r2 s1 k)
  | Alt r1 r2 =>
    match rmatch fl r1 s k with
    | Some z => Some z
    | None => rmatch fl r2 s k
    end
  | Rep mn mx greedy r1 =>
    repeat_matcher (rmatch fl r1) (groups r1) greedy
      (S (mn + length (after s))) mn mx s k
  | Grp i r1 => rmatch fl r1 s (fun s1 => k (set_cap i s s1))
  | Bol => if at_bol fl (before s) then k s else None
  | Eol => if at_eol fl (after s) then k s else None
  | WordB => if at_word_boundary (before s) (after s) then k s else None
  | Ahead r1 =>
    match rmatch fl r1 s (fun s1 => Some s1) with
    | Some s1 => k (MState (before s) (after s) (idx s) (caps s1))
    | None => None
    end
  end.

(** ** The words a pattern can match

    [Matches fl r bef w rest]: read at the point where [bef] (reversed) is
    behind and [w ++ rest] ahead, the pattern [r] can match the word [w].
    The relation forgets the priorities among the alternatives and the
    captures; every result of [rmatch] is one of its words
    ([rmatch_sound]). *)
Inductive Matches (fl : flags) : regex -> jsstring -> jsstring -> jsstring -> Prop :=
| MEps bef rest : Matches fl Eps bef [] rest
| MChr a c bef rest :
    char_eq fl a c = true -> Matches fl (Chr a) bef [c] rest
| MCls neg items c bef rest :
    cls_match fl neg items c = true -> Matches fl (Cls neg items) bef [c] rest
| MSeq r1 r2 bef w1 w2 rest :
    Matches fl r1 bef w1 (w2 ++ rest) ->
    Matches fl r2 (rev w1 ++ bef) w2 rest ->
    Matches fl (Seq r1 r2) bef (w1 ++ w2) rest
| MAltL r1 r2 bef w rest :
    Matches fl r1 bef w rest -> Matches fl (Alt r1 r2) bef w rest
| MAltR r1 r2 bef w rest :
    Matches fl r2 bef w rest -> Matches fl (Alt r1 r2) bef w rest
| MRepStop mn mx g r bef rest :
    mn = 0 \/ mx = Some 0 -> Matches fl (Rep mn mx g r) bef [] rest
| MRepIter mn mx g r bef w1 w2 rest :
    mx <> Some 0 ->
    Matches fl r bef w1 (w2 ++ rest) ->
    Matches fl (Rep (pred mn) (option_map pred mx) g r) (rev w1 ++ bef) w2 rest ->
    Matches fl (Rep mn mx g r) bef (w1 ++ w2) rest
| MGrp i r bef w rest :
    Matches fl r bef w rest -> Matches fl (Grp i r) bef w rest
| MBol bef rest : at_bol fl bef = true -> Matches fl Bol bef [] rest
| MEol bef rest : at_eol fl rest = true -> Matches fl Eol bef [] rest
| MWordB bef rest :
    at_word_boundary bef rest = true -> Matches fl WordB bef [] rest
| MAhead r bef w rest' rest :
    Matches fl r bef w rest' -> rest = w ++ rest' ->
    Matches fl (Ahead r) bef [] rest.

(** ** Matching at a position, [exec], [match] and [replace] *)

Record match_result : Type := Match {
  m_index : nat;                                  (* start index *)
  m_full : jsstring;                              (* the matched text, m[0] *)
  m_caps : list (nat * (jsstring * jsstring))
}.

(** [m[i]]: [None] is JavaScript's [undefined] of a group that did not
    take part in the match. *)
Definition group (i : nat) (m : match_result) : option jsstring :=
  match find (fun e => Nat.eqb (fst e) i) (m_caps m) with
  | Some (_, (a0, a1)) => Some (firstn (length a0 - length a1) a0)
  | None => None
  end.

(** [m[i] || ''] *)
Definition group_or_empty (i : nat) (m : match_result) : jsstring :=
  match group i m with Some s => s | None => [] end.

Section Exec.
Variable fl : flags.
Variable r : regex.

Definition match_at (bef aft : jsstring) (i : nat) : option mstate :=
  rmatch fl r (MState bef aft i []) (fun s => Some s).

Definition mk_match (i : nat) (aft : jsstring) (e : mstate) : match_result :=
  Match i (firstn (idx e - i) aft) (caps e).

(** RegExpBuiltinExec without the sticky flag: the first index, from the
    current one on, at which the pattern matches. *)
Fixpoint exec_from (bef aft : jsstring) (i : nat) : option match_result :=
  match match_at bef aft i with
  | Some e => Some (mk_match i aft e)
  | None =>
    match aft with
    | [] => None
    | c :: aft' => exec_from (c :: bef) aft' (S i)
    end
  end.

(** [s.match(re)] for a regular expression without the global flag. *)
Definition str_match (s : jsstring) : option match_result :=
  exec_from [] s 0.

(** The successive results of [re.exec(s)] for a global regular
    expression, [lastIndex] starting at 0: after a match the search goes
    on at its end ([skip] counts the characters inside the last match).
    The [while ((m = re.exec(s)) !== null)] loops of the scripts would not
    end after an empty match; their patterns consume at least one
    character (see [attrRegex_consumes] and [altAttrRegex_consumes]), and
    the search here goes on one character further. *)
Fixpoint exec_all (bef aft : jsstring) (i skip : nat) : list match_result :=
  match skip with
  | S n =>
    match aft with
    | [] => []
    | c :: aft' => exec_all (c :: bef) aft' (S i) n
    end
  | 0 =>
    match match_at bef aft i with
    | Some e =>
      mk_match i aft e ::
      match aft with
      | [] => []
      | c :: aft' => exec_all (c :: bef) aft' (S i) (pred (idx e - i))
      end
    | None =>
      match aft with
      | [] => []
      | c :: aft' => exec_all (c :: bef) aft' (S i) 0
      end
    end
  end.

Definition matches_of (s : jsstring) : list match_result := exec_all [] s 0 0.

(** [s.replace(re, fn)] for a global regular expression: every match,
    left to right and without overlap, is replaced by what the callback
    returns, the text between the matches is kept.  The callbacks of the
    scripts update counters of the enclosing function: the callback takes
    and returns these as a state [St].  After an empty match the search
    goes on one character further (AdvanceStringIndex). *)
Section ReplaceFn.
Variable St : Type.
Variable fn : match_result -> St -> jsstring * St.

Fixpoint replace_go (bef aft : jsstring) (i skip : nat) (st : St)
  : jsstring * St :=
  match skip with
  | S n =>
    match aft with
    | [] => ([], st)
    | c :: aft' => replace_go (c :: bef) aft' (S i) n st
    end
  | 0 =>
    match match_at bef aft i with
    | Some e =>
      let (rep, st1) := fn (mk_match i aft e) st in
      match aft with
      | [] => (rep, st1)
      | c :: aft' =>
        match idx e - i with
        | 0 =>
          let (out, st2) := replace_go (c :: bef) aft' (S i) 0 st1 in
          (rep ++ c :: out, st2)
        | S n =>
          let (out, st2) := replace_go (c :: bef) aft' (S i) n st1 in
          (rep ++ out, st2)
        end
      end
    | None =>
      match aft with
      | [] => ([], st)
      | c :: aft' =>
        let (out, st2) := replace_go (c :: bef) aft' (S i) 0 st in
        (c :: out, st2)
      end
    end
  end.

Definition replace_fn (s : jsstring) (st : St) : jsstring * St :=
  replace_go [] s 0 0 st.
End ReplaceFn.

(** [s.replace(re, rep)] with a global regular expression and a
    replacement string without [$] patterns. *)
Definition replace_str (rep s : jsstring) : jsstring :=
  fst (replace_fn (fun _ (u : unit) => (rep, u)) s tt).

(** [s.replace(re, rep)] without the global flag: the first match only. *)
Definition replace_first (rep s : jsstring) : jsstring :=
  match str_match s with
  | Some m =>
    firstn (m_index m) s ++ rep ++ skipn (m_index m + length (m_full m)) s
  | None => s
  end.
End Exec.

(** ** Building the patterns *)

Definition seq (rs : list regex) : regex := fold_right Seq Eps rs.

Definition lit (s : string) : regex := seq (map Chr (list_ascii_of_string s)).

Definition star (r : regex) : regex := Rep 0 None true r.
Definition lazy_star (r : regex) : regex := Rep 0 None false r.
Definition plus (r : regex) : regex := Rep 1 None true r.
Definition opt (r : regex) : regex := Rep 0 (Some 1) true r.

Definition ws : regex := Cls false [CSpace].                   (* \s *)
Definition word : regex := Cls false [CWord].                  (* \w *)
Definition any : regex := Cls false [CSpace; CNonSpace].       (* [\s\S] *)
Definition none_of (cs : list ascii) : regex := Cls true (map CChar cs).
Definition one_of (cs : list ascii) : regex := Cls false (map CChar cs).
Definition SQ : ascii := "'"%char.

Definition fl_g : flags := Flags false false.      (* no i, no m *)
Definition fl_i : flags := Flags true false.       (* i *)
Definition fl_m : flags := Flags false true.       (* m *)
Definition fl_mi : flags := Flags true true.       (* m and i *)

(** ** The file collector (the same function in the four scripts) *)

(** A directory entry as [fs.readdirSync(dir, { withFileTypes: true })]
    gives it: a name and, for a directory, its own listing.  [DirErr] is a
    directory that cannot be read: reading it throws.  Anything that is not
    a directory (a symbolic link too) is a [File]. *)
#[warnings="-register-all"] Inductive entry : Type :=
| File (name : jsstring)
| Dir (name : jsstring) (listing : list entry)
| DirErr (name : jsstring).

Definition entry_name (e : entry) : jsstring :=
  match e with File n | Dir n _ | DirErr n => n end.

(** A path is the list of the names below the root directory, the last
    one first: [path.join(dirPath, entry.name)] adds a name. *)
Definition path := list jsstring.

Definition path_join (dirPath : path) (name : jsstring) : path := name :: dirPath.

Definition dot : jsstring := ["."%char].

(** The body of the [for (const entry of entries)] loop of [collectFiles];
    the inner [collect] is the recursive call [collectFiles(abs, exts,
    collected)] on the listing of a directory.  [None]: a directory cannot
    be read and the exception ends the run. *)
Fixpoint visit (exts : list jsstring) (dirPath : path) (e : entry)
  (collected : list path) {struct e} : option (list path) :=
  if startsWith (entry_name e) dot then Some collected
  else
    let abs := path_join dirPath (entry_name e) in
    match e with
    | Dir _ listing =>
      (fix collect (entries : list entry) (acc : list path) {struct entries}
         : option (list path) :=
         match entries with
         | [] => Some acc
         | e' :: rest =>
           match visit exts abs e' acc with
           | Some acc' => collect rest acc'
           | None => None
           end
         end) listing collected
    | DirErr _ => None
    | File name =>
      let lower := toLowerCase name in
      if existsb (fun ext => endsWith lower ext) exts
      then Some (collected ++ [abs])
      else Some collected
    end.

(** [collectFiles(dirPath, exts, collected)], [entries] being the listing
    of [dirPath]. *)
Fixpoint collectFiles (exts : list jsstring) (dirPath : path)
  (entries : list entry) (collected : list path) : option (list path) :=
  match entries with
  | [] => Some collected
  | e :: rest =>
    match visit exts dirPath e collected with
    | Some collected' => collectFiles exts dirPath rest collected'
    | None => None
    end
  end.

(** ** Escaping (both scripts have the same chain of [replaceAll]) *)

Definition htmlEntityEscape (text : jsstring) : jsstring :=
  replaceAll (js ">") (js "&gt;")
    (replaceAll (js "<") (js "&lt;")
      (replaceAll (js "`") (js "&quot;")
        (replaceAll (js "&") (js "&amp;") text))).

(** [String(value || '')] is [value] for a string. *)
Definition htmlEscapeAttribute (value : jsstring) : jsstring :=
  replaceAll (js ">") (js "&gt;")
    (replaceAll (js "<") (js "&lt;")
      (replaceAll (js "`") (js "&quot;")
        (replaceAll (js "&") (js "&amp;") value))).

(** ** replace-embeds.mjs *)

Module Embed.

(** /(\w+)\s*=\s*(`([\s\S]*?)`|'([\s\S]*?)')/g *)
Definition attrRegex : regex :=
  seq [Grp 1 (plus word); star ws; Chr "="; star ws;
       Grp 2 (Alt (seq [Chr DQ; Grp 3 (lazy_star any); Chr DQ])
                  (seq [Chr SQ; Grp 4 (lazy_star any); Chr SQ]))].

(** The object [attrs]: a map from keys to values, a later assignment
    to a key replacing an earlier one. *)
Definition attrs := jsstring -> option jsstring.

Definition attrs_empty : attrs := fun _ => None.

Definition attrs_set (key val : jsstring) (a : attrs) : attrs :=
  fun k => if str_eqb k key then Some val else a k.

Definition parseEmbedAttrs (attrText : jsstring) : attrs :=
  fold_left
    (fun a m =>
       let key := group_or_empty 1 m in
       let val := trim (match group 3 m with
                        | Some v => v
                        | None => match group 4 m with
                                  | Some v => v
                                  | None => []
                                  end
                        end) in
       attrs_set key val a)
    (matches_of fl_g attrRegex attrText) attrs_empty.

Definition iframe_head : jsstring :=
  js "<iframe className=`w-full aspect-video rounded-xl` src=`".
Definition iframe_mid : jsstring := js "` title=`".
Definition iframe_tail : jsstring :=
  js "` frameBorder=`0` allow=`accelerometer; autoplay; clipboard-write; encrypted-media; gyroscope; picture-in-picture` allowFullScreen></iframe>".

Definition buildIframe (url titleFallback indent : jsstring) : jsstring :=
  let title := match titleFallback with
               | [] => js "Embedded content"
               | _ => titleFallback
               end in
  let src := trim url in
  indent ++ iframe_head ++ htmlEscapeAttribute src ++ iframe_mid
    ++ htmlEscapeAttribute title ++ iframe_tail.

(** /^(\s* )\{\%\s*embed\b([^%]* )\%\}([\s\S]*?)^(\s* )\{\%\s*endembed\s*\%\}/gmi *)
Definition blockRegex : regex :=
  seq [Bol; Grp 1 (star ws); lit "{%"; star ws; lit "embed"; WordB;
       Grp 2 (star (none_of ["%"%char])); lit "%}";
       Grp 3 (lazy_star any);
       Bol; Grp 4 (star ws); lit "{%"; star ws; lit "endembed"; star ws;
       lit "%}"].

(** /^(\s* )\{\%\s*embed\b([^%]* )\%\}\s*$/gmi *)
Definition singleRegex : regex :=
  seq [Bol; Grp 1 (star ws); lit "{%"; star ws; lit "embed"; WordB;
       Grp 2 (star (none_of ["%"%char])); lit "%}"; star ws; Eol].

(** /^[\n\r\s]+|[\n\r\s]+$/g *)
Definition edgeSpaceRegex : regex :=
  let sp := Cls false [CChar LF; CChar CR; CSpace] in
  Alt (seq [Bol; plus sp]) (seq [plus sp; Eol]).

(** The variables [changed], [blocks] and [singles] of [processContent]
    that the two callbacks update. *)
Record counters : Type := Counters {
  c_changed : bool;
  c_blocks : nat;
  c_singles : nat
}.

Definition attr_url (a : attrs) : jsstring :=
  match a (js "url") with Some v => v | None => [] end.

(** [(attrs.caption && attrs.caption.trim().length > 0)
      ? attrs.caption.trim() : other] *)
Definition caption_or (a : attrs) (other : jsstring) : jsstring :=
  match a (js "caption") with
  | Some v => match trim v with [] => other | t => t end
  | None => other
  end.

Definition blockCallback (m : match_result) (st : counters)
  : jsstring * counters :=
  let full := m_full m in
  let indent := group_or_empty 1 m in
  let attrText := group_or_empty 2 m in
  let inner := group_or_empty 3 m in
  let a := parseEmbedAttrs attrText in
  let url := attr_url a in
  let caption :=
    caption_or a (trim (replace_str fl_g edgeSpaceRegex [] inner)) in
  match url with
  | [] => (full, st)
  | _ => (buildIframe url caption indent,
          Counters true (S (c_blocks st)) (c_singles st))
  end.

Definition singleCallback (m : match_result) (st : counters)
  : jsstring * counters :=
  let full := m_full m in
  let indent := group_or_empty 1 m in
  let attrText := group_or_empty 2 m in
  let a := parseEmbedAttrs attrText in
  let url := attr_url a in
  let caption := caption_or a [] in
  match url with
  | [] => (full, st)
  | _ => (buildIframe url caption indent,
          Counters true (c_blocks st) (S (c_singles st)))
  end.

Record result : Type := Result {
  text : jsstring;
  changed : bool;
  blocks : nat;
  singles : nat
}.

Definition processContent (text0 : jsstring) : result :=
  let st0 := Counters false 0 0 in
  let (text1, st1) := replace_fn fl_mi blockRegex blockCallback text0 st0 in
  let (text2, st2) := replace_fn fl_mi singleRegex singleCallback text1 st1 in
  Result text2 (c_changed st2) (c_blocks st2) (c_singles st2).

End Embed.

(** ** replace-hints.mjs *)

Module Hint.

(** /^(\s* )\{\%\s*hint\b[^%]*\%\}/gm *)
Definition startTag : regex :=
  seq [Bol; Grp 1 (star ws); lit "{%"; star ws; lit "hint"; WordB;
       star (none_of ["%"%char]); lit "%}"].

(** /^(\s* )\{\%\s*endhint\s*\%\}/gm *)
Definition endTag : regex :=
  seq [Bol; Grp 1 (star ws); lit "{%"; star ws; lit "endhint"; star ws;
       lit "%}"].

Record counters : Type := Counters {
  c_changed : bool;
  c_start : nat;
  c_end : nat
}.

Definition startCallback (m : match_result) (st : counters)
  : jsstring * counters :=
  (group_or_empty 1 m ++ js "<Note>",
   Counters true (S (c_start st)) (c_end st)).

Definition endCallback (m : match_result) (st : counters)
  : jsstring * counters :=
  (group_or_empty 1 m ++ js "</Note>",
   Counters true (c_start st) (S (c_end st))).

Record result : Type := Result {
  text : jsstring;
  changed : bool;
  startCount : nat;
  endCount : nat
}.

Definition processContent (text0 : jsstring) : result :=
  let st0 := Counters false 0 0 in
  let (text1, st1) := replace_fn fl_m startTag startCallback text0 st0 in
  let (text2, st2) := replace_fn fl_m endTag endCallback text1 st1 in
  Result text2 (c_changed st2) (c_start st2) (c_end st2).

End Hint.

(** ** The arcade-iframe remover *)

Module Arcade.

(** /^(\s* )<iframe\b[^>]*\ssrc=[`'](https?:\/\/app\.arcade\.software\/[^`]+)[`'][\s\S]*?<\/iframe>\s*$/gmi *)
Definition iframeRegex : regex :=
  seq [Bol; Grp 1 (star ws); lit "<iframe"; WordB;
       star (none_of [">"%char]); ws; lit "src="; one_of [DQ; SQ];
       Grp 2 (seq [lit "http"; opt (Chr "s"); lit "://app.arcade.software/";
                   plus (none_of [DQ])]);
       one_of [DQ; SQ]; lazy_star any; lit "</iframe>"; star ws; Eol].

Record counters : Type := Counters { c_changed : bool; c_replaced : nat }.

Definition callback (m : match_result) (st : counters)
  : jsstring * counters :=
  (group_or_empty 1 m ++ group_or_empty 2 m,
   Counters true (S (c_replaced st))).

Record result : Type := Result {
  text : jsstring;
  changed : bool;
  replaced : nat
}.

Definition processContent (text0 : jsstring) : result :=
  let (text1, st1) :=
    replace_fn fl_mi iframeRegex callback text0 (Counters false 0) in
  Result text1 (c_changed st1) (c_replaced st1).

End Arcade.

(** ** fix-images.mjs *)

Module Image.

(** /<[^>]*>/g *)
Definition tagRegex : regex :=
  seq [Chr "<"; star (none_of [">"%char]); Chr ">"].

Definition stripHtmlTags (text : jsstring) : jsstring :=
  replace_str fl_g tagRegex [] text.

(** /^<img\b([\s\S]*?)\/?\s*>$/i *)
Definition wholeTagRegex : regex :=
  seq [Bol; lit "<img"; WordB; Grp 1 (lazy_star any); opt (Chr "/");
       star ws; Chr ">"; Eol].

(** /^<img\b/i *)
Definition tagOpenRegex : regex := seq [Bol; lit "<img"; WordB].

(** />\s*$/ *)
Definition tagCloseRegex : regex := seq [Chr ">"; star ws; Eol].

(** /\salt\s*=\s*(`[\s\S]*?`|'[\s\S]*?')/g *)
Definition altAttrRegex : regex :=
  seq [ws; lit "alt"; star ws; Chr "="; star ws;
       Grp 1 (Alt (seq [Chr DQ; lazy_star any; Chr DQ])
                  (seq [Chr SQ; lazy_star any; Chr SQ]))].

(** /\s*\/\s*(?=>|$)/g *)
Definition straySlashRegex : regex :=
  seq [star ws; Chr "/"; star ws; Ahead (Alt (Chr ">") Eol)].

(** /\s{2,}/g *)
Definition spacesRegex : regex := Rep 2 None true ws.

(** The attribute string of the tag: [tagMatch[1]], or the tag without
    its opening and closing when the whole-tag pattern does not match. *)
Definition attrStringOriginal (imgTag : jsstring) : jsstring :=
  match str_match fl_i wholeTagRegex imgTag with
  | Some tagMatch => group_or_empty 1 tagMatch
  | None =>
    replace_first fl_g tagCloseRegex []
      (replace_first fl_i tagOpenRegex [] imgTag)
  end.

(** The [while ((m = altAttrRegex.exec(attrStringOriginal)) !== null)]
    loop: the trimmed values between the quotes, the empty ones left
    out, in the order of the matches. *)
Definition collectAlts (attrString : jsstring) : list jsstring :=
  fold_left
    (fun alts m =>
       let raw := group_or_empty 1 m in
       let val := trim (substring 1 (length raw - 1) raw) in
       match val with
       | [] => alts
       | _ => alts ++ [val]
       end)
    (matches_of fl_g altAttrRegex attrString) [].

Definition chooseAlt (alts : list jsstring) (fallbackAlt : jsstring)
  : jsstring :=
  let chosenAlt := match alts with a :: _ => a | [] => [] end in
  match fallbackAlt, trim fallbackAlt with
  | _ :: _, _ :: _ =>
    match chosenAlt with
    | [] => trim fallbackAlt
    | _ =>
      if negb (includes (toLowerCase chosenAlt)
                        (toLowerCase (trim fallbackAlt)))
      then trim (chosenAlt ++ js " " ++ trim fallbackAlt)
      else chosenAlt
    end
  | _, _ => chosenAlt
  end.

Definition cleanAttrs (attrString0 : jsstring) : jsstring :=
  let attrString1 := replace_str fl_g altAttrRegex [] attrString0 in
  let attrString2 := replace_str fl_g straySlashRegex [] attrString1 in
  trim (replace_str fl_g spacesRegex (js " ") attrString2).

(** [attrString.length > 0 ? ` ${attrString}` : ''] *)
Definition attrsPart (attrString : jsstring) : jsstring :=
  match attrString with
  | [] => []
  | _ => js " " ++ attrString
  end.

Definition normalizeImgTag (imgTag fallbackAlt : jsstring) : jsstring :=
  let attrString0 := attrStringOriginal imgTag in
  let chosenAlt := chooseAlt (collectAlts attrString0) fallbackAlt in
  let attrString := cleanAttrs attrString0 in
  let altPart := js " alt=`" ++ htmlEntityEscape chosenAlt ++ js "`" in
  js "<img" ++ attrsPart attrString ++ altPart ++ js " />".

(** /<figure\b[^>]*>([\s\S]*?)<\/figure>/g *)
Definition figureRegex : regex :=
  seq [lit "<figure"; WordB; star (none_of [">"%char]); Chr ">";
       Grp 1 (lazy_star any); lit "</figure>"].

(** /<img\b[\s\S]*?>/i and, with the global flag, /<img\b[\s\S]*?>/gi *)
Definition imgRegex : regex :=
  seq [lit "<img"; WordB; lazy_star any; Chr ">"].

(** /<figcaption\b[^>]*>([\s\S]*?)<\/figcaption>/i *)
Definition captionRegex : regex :=
  seq [lit "<figcaption"; WordB; star (none_of [">"%char]); Chr ">";
       Grp 1 (lazy_star any); lit "</figcaption>"].

(** /^(\s* )/ *)
Definition indentRegex : regex := seq [Bol; Grp 1 (star ws)].

Record counters : Type := Counters {
  c_changed : bool;
  c_figures : nat;
  c_imgs : nat
}.

Definition figureCallback (m : match_result) (st : counters)
  : jsstring * counters :=
  let full := m_full m in
  let inner := group_or_empty 1 m in
  match str_match fl_i imgRegex inner with
  | None => (full, st)
  | Some imgMatch =>
    let originalImgTag := m_full imgMatch in
    let caption :=
      match str_match fl_i captionRegex inner with
      | Some capMatch => trim (stripHtmlTags (group_or_empty 1 capMatch))
      | None => []
      end in
    let normalizedImg := normalizeImgTag originalImgTag caption in
    let indent :=
      match str_match fl_g indentRegex full with
      | Some indentMatch => group_or_empty 1 indentMatch
      | None => []
      end in
    (indent ++ normalizedImg,
     Counters true (S (c_figures st)) (c_imgs st))
  end.

Definition imgCallback (m : match_result) (st : counters)
  : jsstring * counters :=
  let imgTag := m_full m in
  let normalized := normalizeImgTag imgTag [] in
  if negb (str_eqb normalized imgTag)
  then (normalized, Counters true (c_figures st) (S (c_imgs st)))
  else (normalized, st).

Record result : Type := Result {
  content : jsstring;
  changed : bool;
  figureUnwrapped : nat;
  imgsNormalized : nat
}.

Definition processFileContent (content0 : jsstring) : result :=
  let st0 := Counters false 0 0 in
  let (content1, st1) := replace_fn fl_g figureRegex figureCallback content0 st0 in
  let (content2, st2) := replace_fn fl_i imgRegex imgCallback content1 st1 in
  Result content2 (c_changed st2) (c_figures st2) (c_imgs st2).

End Image.

(** ** The statements of the specification *)

(** The image-tag normalization rule in the words of the specification:
    all alt attributes are scanned, their trimmed values taken in order of
    appearance, and the first non-empty one is chosen; a non-empty fallback
    becomes the alt when none was found and is appended after a space when
    the chosen alt does not contain it, whatever the case of the letters. *)
Module ImageSpec.

Definition between_quotes (raw : jsstring) : jsstring := removelast (tl raw).

Definition alt_values (attrString : jsstring) : list jsstring :=
  map (fun m => trim (between_quotes (group_or_empty 1 m)))
      (matches_of fl_g Image.altAttrRegex attrString).

Definition non_empty (v : jsstring) : bool :=
  match v with [] => false | _ => true end.

Definition chosen_alt (values : list jsstring) (fallbackAlt : jsstring)
  : jsstring :=
  let fallback := trim fallbackAlt in
  match find non_empty values with
  | None => fallback
  | Some alt =>
    if non_empty fallback
       && negb (includes (toLowerCase alt) (toLowerCase fallback))
    then alt ++ js " " ++ fallback
    else alt
  end.

End ImageSpec.

(** The entity of a character in an attribute value. *)
Definition escape_char (c : ascii) : jsstring :=
  if Ascii.eqb c "&"%char then js "&amp;"
  else if Ascii.eqb c DQ then js "&quot;"
  else if Ascii.eqb c "<"%char then js "&lt;"
  else if Ascii.eqb c ">"%char then js "&gt;"
  else [c].

(** A name that does not start with a dot. *)
Definition visible (name : jsstring) : bool := negb (startsWith name dot).

(** The four transformers, each as a function from the input text to the
    new text and the [changed] flag. *)
Inductive transformer : Type :=
| EmbedReplacement
| HintToNote
| ArcadeUnwrapping
| ImageNormalization.

Definition run (t : transformer) (input : jsstring) : jsstring * bool :=
  match t with
  | EmbedReplacement =>
    let r := Embed.processContent input in (Embed.text r, Embed.changed r)
  | HintToNote =>
    let r := Hint.processContent input in (Hint.text r, Hint.changed r)
  | ArcadeUnwrapping =>
    let r := Arcade.processContent input in (Arcade.text r, Arcade.changed r)
  | ImageNormalization =>
    let r := Image.processFileContent input in
    (Image.content r, Image.changed r)
  end.

(** A second run, on the text the first run produced, changes nothing. *)
Definition second_run_idle (t : transformer) (input : jsstring) : Prop :=
  let output := fst (run t input) in
  run t output = (output, false).

(** An embed directive, as matched by either pattern of the embed
    transformer, that carries a non-empty [url] attribute. *)
Definition has_url (m : match_result) : bool :=
  match Embed.attr_url (Embed.parseEmbedAttrs (group_or_empty 2 m)) with
  | [] => false
  | _ => true
  end.

Definition no_url (m : match_result) : bool := negb (has_url m).

(** ** Notions used in the proofs *)

(** [y] is a state further on in the input of [s] (or [s] itself). *)
Definition ahead (s y : mstate) : Prop :=
  idx y + length (after y) = idx s + length (after s) /\
  length (after y) <= length (after s).

(** A matcher that calls what follows only on states ahead of its own:
    two continuations that agree there give the same result. *)
Definition forward (m : mstate -> cont -> option mstate) : Prop :=
  forall s k k', (forall y, ahead s y -> k y = k' y) -> m s k = m s k'.

(** What follows in the pattern is reached after the word [w]. *)
Definition reaches (s : mstate) (w rest : jsstring) (k : cont) (z : mstate) : Prop :=
  exists cps, k (MState (rev w ++ before s) rest (length w + idx s) cps) = Some z.

Definition sound_at (fl : flags) (r : regex)
  (m : mstate -> cont -> option mstate) : Prop :=
  forall s k z, m s k = Some z ->
    exists w rest, after s = w ++ rest /\ Matches fl r (before s) w rest /\
                   reaches s w rest k z.

Definition starts_clean (s : jsstring) : Prop :=
  match s with c :: _ => is_space c = false | [] => True end.

(** The paths added below [dirPath]: at least one name, all visible. *)
Definition below (dirPath : path) (p : path) : Prop :=
  exists names, p = names ++ dirPath /\ names <> [] /\
                forallb visible names = true.

Definition adds_below (dirPath : path) (collected out : list path) : Prop :=
  exists added, out = collected ++ added /\ Forall (below dirPath) added.

Definition sample_tree : list entry :=
  [ Dir (js ".git") [File (js "config.md"); DirErr (js "objects")];
    File (js ".hidden.md");
    File (js "README.MD");
    Dir (js "docs") [File (js "a.mdx"); File (js "b.txt");
                     Dir (js ".cache") [File (js "c.md")]] ].

(** The state after reading the word [w]. *)
Definition moved (s : mstate) (w rest : jsstring) : mstate :=
  MState (rev w ++ before s) rest (length w + idx s) (caps s).

Fixpoint chars_eq (fl : flags) (l w : jsstring) : bool :=
  match l, w with
  | [], [] => true
  | a :: l', c :: w' => char_eq fl a c && chars_eq fl l' w'
  | _, _ => false
  end.

Definition stops (fl : flags) (neg : bool) (items : list citem)
  (rest : jsstring) : bool :=
  match rest with
  | [] => true
  | c :: _ => negb (cls_match fl neg items c)
  end.

Fixpoint caseless (l : jsstring) : bool :=
  match l with
  | [] => true
  | a :: l' => Ascii.eqb (lower_char a) a && Ascii.eqb (canonicalize a) a
               && caseless l'
  end.

Definition lacks (x : ascii) (s : jsstring) : bool :=
  forallb (fun c => negb (Ascii.eqb x c)) s.

Definition no_directive (s : jsstring) : Prop := includes s (js "{%") = false.

(** The values of the alt attributes of a tag, as its own pattern finds
    them. *)
Definition alt_attributes (tag : jsstring) : list jsstring :=
  map (fun m => ImageSpec.between_quotes (group_or_empty 1 m))
      (matches_of fl_g Image.altAttrRegex tag).


(** The end of the whole-tag pattern: an optional slash, white space and
    the closing bracket at the end of the input. *)
Definition tagEnd : regex :=
  Seq (opt (Chr "/"%char)) (Seq (star ws) (Seq (Chr ">"%char) (Seq Eol Eps))).

Definition no_alt (s : jsstring) : Prop := includes s (js "alt") = false.

Definition no_figure (s : jsstring) : Prop := includes s (js "<figure") = false.

Definition no_img (s : jsstring) : Prop :=
  includes (toLowerCase s) (js "<img") = false.


(** ** Texts made of hint markers

    A text whose directives are hint markers, each on a line of its own:
    a list of markers, each with the text that precedes it, and the text
    after the last one. *)
Inductive marker : Type :=
| StartHint (style : jsstring)
| EndHint.

Definition marker_text (m : marker) : jsstring :=
  match m with
  | StartHint style => js "{% hint style=`" ++ style ++ js "` %}"
  | EndHint => js "{% endhint %}"
  end.

Definition note_text (m : marker) : jsstring :=
  match m with
  | StartHint _ => js "<Note>"
  | EndHint => js "</Note>"
  end.

Definition is_start (m : marker) : bool :=
  match m with StartHint _ => true | EndHint => false end.

Definition is_end (m : marker) : bool := negb (is_start m).

Definition hint_doc : Type := list (jsstring * marker).

(** The text of a document, each marker written by [f]. *)
Fixpoint doc_render (f : marker -> jsstring) (d : hint_doc) (post : jsstring)
  : jsstring :=
  match d with
  | [] => post
  | (pre, m) :: d' => pre ++ f m ++ doc_render f d' post
  end.

Definition doc_source : hint_doc -> jsstring -> jsstring :=
  doc_render marker_text.

Definition doc_target : hint_doc -> jsstring -> jsstring :=
  doc_render note_text.

(** Between the two passes the start markers are notes already. *)
Definition half_text (m : marker) : jsstring :=
  if is_start m then note_text m else marker_text m.

Definition marker_ok (m : marker) : bool :=
  match m with
  | StartHint style => lacks "%"%char style
  | EndHint => true
  end.

Definition count_markers (sel : marker -> bool) (d : hint_doc) : nat :=
  length (filter sel (map snd d)).

(** [at_line_start ok pre]: at the end of [pre] only white space has been
    read since the start of the line; [ok] says so for the place where
    [pre] starts. *)
Fixpoint at_line_start (ok : bool) (pre : jsstring) : bool :=
  match pre with
  | [] => ok
  | c :: pre' =>
    at_line_start (if is_line_terminator c then true else ok && is_space c) pre'
  end.

(** The markers are the only directives, each stands after nothing but
    white space on its line, and no style value holds a percent sign. *)
Fixpoint doc_ok (first : bool) (d : hint_doc) : bool :=
  match d with
  | [] => true
  | (pre, m) :: d' =>
    negb (includes pre (js "{%"))
    && at_line_start first pre
    && marker_ok m
    && doc_ok false d'
  end.

(** What a pass with the pattern [r] does at an item [x] that follows
    white space at the start of a line: it matches there, up to the end of
    [x] and with the white space as its first group, or it does not match. *)
Definition hits (r : regex) (x : jsstring) : Prop :=
  forall bef indent rest i,
    at_bol fl_m bef = true -> forallb is_space indent = true ->
    exists e,
      match_at fl_m r bef (indent ++ x ++ rest) i = Some e /\
      idx e = length (indent ++ x) + i /\
      caps e = [(1, (indent ++ x ++ rest, x ++ rest))].

Definition misses (r : regex) (x : jsstring) : Prop :=
  forall bef indent rest i,
    forallb is_space indent = true ->
    match_at fl_m r bef (indent ++ x ++ rest) i = None.

(** A match of [r] starts at the start of a line, with white space and
    the opening of a directive. *)
Definition opens (r : regex) : Prop :=
  forall bef t i e,
    match_at fl_m r bef t i = Some e ->
    at_bol fl_m bef = true /\
    exists sp x, forallb is_space sp = true /\ t = sp ++ js "{%" ++ x.

(** An item of a pass does not start with a percent sign, and its last
    character does not end the line. *)
Definition starts_plain (x : jsstring) : bool :=
  match x with
  | c :: _ => negb (Ascii.eqb c "%"%char)
  | [] => false
  end.

Definition ends_in_line (x : jsstring) : bool :=
  match rev x with
  | c :: _ => negb (is_line_terminator c)
  | [] => false
  end.

Definition one_line (x : jsstring) : bool :=
  forallb (fun c => negb (is_line_terminator c)) x.

(** ** The batch runners ([main] of the four scripts)

    The four scripts end in the same [main]: the files below the root
    directory are collected, each is read, transformed and, when the
    transformer reports a change, written back; the counters of the files
    that were written are added up, and a line is logged for each written
    file, for each failure, and at the end. *)

Fixpoint path_eqb (p q : path) : bool :=
  match p, q with
  | [], [] => true
  | a :: p', b :: q' => str_eqb a b && path_eqb p' q'
  | _, _ => false
  end.

(** A file as the runner meets it: [fs.readFileSync(file, 'utf8')] gives
    its text or throws an error with a message, and [fs.writeFileSync]
    replaces the text or throws an error with a message; a write that
    throws is taken to leave the file as it was. *)
Record file_state : Type := FileState {
  f_read : jsstring + jsstring;         (* the text, or the error message *)
  f_write_error : option jsstring       (* the message, when writing throws *)
}.

Definition store : Type := path -> file_state.

(** A successful [fs.writeFileSync(file, text, 'utf8')]. *)
Definition write_file (files : store) (file : path) (text : jsstring) : store :=
  fun p =>
    if path_eqb p file
    then FileState (inl text) (f_write_error (files p))
    else files p.

(** The lines of [console.log] and [console.error], each as the values
    that it is made of; the counters are listed in the order of the line. *)
Inductive event : Type :=
| FailedRead (file : path) (message : jsstring)
| FailedWrite (file : path) (message : jsstring)
| Updated (file : path) (counts : list nat)
| Done (filesChanged : nat) (totals : list nat).

(** The extensions that [main] passes to [collectFiles]. *)
Definition script_exts (t : transformer) : list jsstring :=
  match t with
  | ImageNormalization => [js ".mdx"; js ".md"]
  | _ => [js ".md"; js ".mdx"]
  end.

(** The transformer of a script, with the counters that its [main] adds
    up, in the order of their declaration. *)
Definition script_process (t : transformer) (s : jsstring)
  : jsstring * bool * list nat :=
  match t with
  | EmbedReplacement =>
    let r := Embed.processContent s in
    (Embed.text r, Embed.changed r, [Embed.blocks r; Embed.singles r])
  | HintToNote =>
    let r := Hint.processContent s in
    (Hint.text r, Hint.changed r, [Hint.startCount r; Hint.endCount r])
  | ArcadeUnwrapping =>
    let r := Arcade.processContent s in
    (Arcade.text r, Arcade.changed r, [Arcade.replaced r])
  | ImageNormalization =>
    let r := Image.processFileContent s in
    (Image.content r, Image.changed r,
     [Image.figureUnwrapped r; Image.imgsNormalized r])
  end.

(** The totals start at 0 and grow by the counters of a written file. *)
Definition zero_totals (t : transformer) : list nat :=
  match t with
  | ArcadeUnwrapping => [0]
  | _ => [0; 0]
  end.

Fixpoint add_counts (totals counts : list nat) : list nat :=
  match totals, counts with
  | a :: totals', b :: counts' => (a + b) :: add_counts totals' counts'
  | _, _ => totals
  end.

(** The variables of [main] during the loop, the files and the log. *)
Record run_state : Type := RunState {
  rs_files : store;
  rs_log : list event;
  rs_changed : nat;                     (* filesChanged / totalChanged *)
  rs_totals : list nat
}.

(** The body of [for (const file of files)]. *)
Definition main_step (t : transformer) (rs : run_state) (file : path)
  : run_state :=
  match f_read (rs_files rs file) with
  | inr message =>
    RunState (rs_files rs) (rs_log rs ++ [FailedRead file message])
             (rs_changed rs) (rs_totals rs)
  | inl s =>
    let '(text, changed, counts) := script_process t s in
    if changed then
      match f_write_error (rs_files rs file) with
      | None =>
        RunState (write_file (rs_files rs) file text)
                 (rs_log rs ++ [Updated file counts])
                 (S (rs_changed rs)) (add_counts (rs_totals rs) counts)
      | Some message =>
        RunState (rs_files rs) (rs_log rs ++ [FailedWrite file message])
                 (rs_changed rs) (rs_totals rs)
      end
    else rs
  end.

Definition main_loop (t : transformer) (files : list path) (rs : run_state)
  : run_state :=
  fold_left (main_step t) files rs.

(** [main()]: [entries] is the listing of [rootDir].  [None]: a directory
    could not be read; the exception leaves [collectFiles] and [main], and
    no file has been read or written. *)
Definition main (t : transformer) (rootDir : path) (entries : list entry)
  (files : store) : option run_state :=
  match collectFiles (script_exts t) rootDir entries [] with
  | None => None
  | Some collected =>
    let rs := main_loop t collected (RunState files [] 0 (zero_totals t)) in
    Some (RunState (rs_files rs)
                   (rs_log rs ++ [Done (rs_changed rs) (rs_totals rs)])
                   (rs_changed rs) (rs_totals rs))
  end.

(** ** The directory tree as the collector sees it *)

(** [collectable exts dirPath entries p]: [p] is the path of a file of the
    tree [entries] below [dirPath] that is reached through directories
    whose names do not start with a dot, has such a name itself, and whose
    name in lower case ends with one of [exts]. *)
Inductive collectable (exts : list jsstring) : path -> list entry -> path -> Prop :=
| collectable_file dirPath entries name :
    In (File name) entries -> visible name = true ->
    existsb (fun ext => endsWith (toLowerCase name) ext) exts = true ->
    collectable exts dirPath entries (path_join dirPath name)
| collectable_dir dirPath entries name listing p :
    In (Dir name listing) entries -> visible name = true ->
    collectable exts (path_join dirPath name) listing p ->
    collectable exts dirPath entries p.

(** [blocked entries]: a directory that cannot be read is reached through
    directories whose names do not start with a dot, and has such a name. *)
Inductive blocked : list entry -> Prop :=
| blocked_here entries name :
    In (DirErr name) entries -> visible name = true -> blocked entries
| blocked_below entries name listing :
    In (Dir name listing) entries -> visible name = true ->
    blocked listing -> blocked entries.

(** What the collector does with a tree, whatever has been collected
    before: it fails when the tree is blocked, and adds the collectable
    files otherwise. *)
Definition collects (exts : list jsstring) (entries : list entry)
  (go : path -> list path -> option (list path)) : Prop :=
  forall dirPath,
    (blocked entries /\ forall collected, go dirPath collected = None) \/
    (~ blocked entries /\
     exists added,
       (forall collected, go dirPath collected = Some (collected ++ added)) /\
       forall p, In p added <-> collectable exts dirPath entries p).

(** ** What a run leaves behind *)

(** The file after its turn in the loop of [main]: rewritten when it can
    be read, the transformer reports a change and it can be written. *)
Definition file_after (t : transformer) (f : file_state) : file_state :=
  match f_read f with
  | inl s =>
    let '(text, changed, _) := script_process t s in
    if changed then
      match f_write_error f with
      | None => FileState (inl text) None
      | Some _ => f
      end
    else f
  | inr _ => f
  end.

(** The counters of the [Updated] lines of a log, in order. *)
Fixpoint updated_counts (log : list event) : list (list nat) :=
  match log with
  | [] => []
  | Updated _ counts :: log' => counts :: updated_counts log'
  | _ :: log' => updated_counts log'
  end.

(** The variables of the loop agree with the log: one file and one set of
    counters for each [Updated] line. *)
Definition tallied (zero : list nat) (rs : run_state) : Prop :=
  rs_changed rs = length (updated_counts (rs_log rs)) /\
  rs_totals rs = fold_left add_counts (updated_counts (rs_log rs)) zero.

(** The files of [sample_tree] for a run: one page with a hint, one that
    cannot be written, the others unreadable. *)
Definition sample_files : store :=
  fun p =>
    if path_eqb p [js "a.mdx"; js "docs"]
    then FileState (inl (js "{% hint style=`info` %}~Text~{% endhint %}~")) None
    else if path_eqb p [js "README.MD"]
    then FileState (inl (js "{% endhint %}")) (Some (js "EACCES"))
    else FileState (inr (js "ENOENT")) None.

(** The characters that the escaping replaces. *)
Definition special (c : ascii) : bool :=
  Ascii.eqb c "&"%char || Ascii.eqb c DQ || Ascii.eqb c "<"%char
  || Ascii.eqb c ">"%char.

(** A figure that holds an image tag, and an image tag that is not in the
    form the normalizer gives it: the matches that the image script
    counts. *)
Definition holds_img (m : match_result) : bool :=
  match str_match fl_i Image.imgRegex (group_or_empty 1 m) with
  | Some _ => true
  | None => false
  end.

Definition not_normal (m : match_result) : bool :=
  negb (str_eqb (Image.normalizeImgTag (m_full m) []) (m_full m)).

(** ** Captures as pieces of the input *)

(** [w] occurs in [input]. *)
Definition factor (w input : jsstring) : Prop :=
  exists pre post, input = pre ++ w ++ post.

(** A capture of a match in [input]: it starts inside the input and
    ends further on. *)
Definition piece (input a0 a1 : jsstring) : Prop :=
  exists pre w, input = pre ++ a0 /\ a0 = w ++ a1.

Definition within (input : jsstring) (s : mstate) : Prop :=
  (exists pre, input = pre ++ after s) /\
  forall i a0 a1, In (i, (a0, a1)) (caps s) -> piece input a0 a1.

(** A matcher that, started within the input, calls what follows in the
    pattern within the input and further on. *)
Definition keeps_within (input : jsstring)
  (m : mstate -> cont -> option mstate) : Prop :=
  forall s k z, within input s -> m s k = Some z ->
    exists y, within input y /\ (exists w, after s = w ++ after y) /\
              k y = Some z.

(** A text that a transformer has nothing to do with: no opening of a
    directive, no iframe tag, no image tag (letters in any case). *)
Definition inert (t : transformer) (s : jsstring) : bool :=
  match t with
  | EmbedReplacement | HintToNote => negb (includes s (js "{%"))
  | ArcadeUnwrapping => negb (includes (toLowerCase s) (js "<iframe"))
  | ImageNormalization => negb (includes (toLowerCase s) (js "<img"))
  end.



(** No [<] of the text has a [>] after it: the text holds nothing that
    [stripHtmlTags] takes for a tag. *)
Fixpoint tagless (s : jsstring) : bool :=
  match s with
  | [] => true
  | c :: s' => (negb (Ascii.eqb c "<"%char) || lacks ">"%char s') && tagless s'
  end.

(** The pattern [pat], given in lower case, starts nowhere inside [s]
    when [rest] follows [s], whatever the case of the letters. *)
Definition clear_of (pat s rest : jsstring) : Prop :=
  forall w1 w2, s = w1 ++ w2 -> w2 <> [] ->
    startsWith (toLowerCase (w2 ++ rest)) pat = false.


(** * Theorems *)

Unset Implicit Arguments.

(** * Properties of [replace] *)

Lemma str_eqb_eq (a b : jsstring) : str_eqb a b = true -> a = b.
Proof.
  revert b; induction a as [|x a IH]; intros [|y b]; simpl; try discriminate; auto.
  intros H; apply andb_prop in H as [Hx Hab].
  apply Ascii.eqb_eq in Hx. f_equal; auto.
Qed.

Lemma str_eqb_refl (a : jsstring) : str_eqb a a = true.
Proof.
  induction a as [|x a IH]; simpl; auto.
  now rewrite Ascii.eqb_refl.
Qed.

Section ReplaceFacts.
Variable fl : flags.
Variable r : regex.
Variable St : Type.
Variable fn : match_result -> St -> jsstring * St.

(** The text that a callback receives as [m[0]] is the text its result
    replaces: a replacement equal to it leaves the input as it is. *)
Section Unchanged.
Variable chg : St -> bool.
Hypothesis fn_unchanged :
  forall m st rep st', fn m st = (rep, st') -> chg st' = false ->
    rep = m_full m /\ chg st = false.

Lemma replace_go_unchanged aft :
  forall bef i skip st out st',
    replace_go fl r fn bef aft i skip st = (out, st') ->
    chg st' = false ->
    out = skipn skip aft /\ chg st = false.
Proof.
  induction aft as [|c aft IH]; intros bef i skip st out st' Hgo Hc.
  - destruct skip as [|n]; simpl in Hgo.
    + destruct (match_at fl r bef [] i) as [e|].
      * destruct (fn (mk_match i [] e) st) as [rep st1] eqn:Hfn.
        inversion Hgo; subst.
        destruct (fn_unchanged _ _ _ _ Hfn Hc) as [-> Hst].
        unfold mk_match; simpl. now rewrite firstn_nil.
      * inversion Hgo; subst; auto.
    + inversion Hgo; subst; auto.
  - destruct skip as [|n]; simpl in Hgo.
    + destruct (match_at fl r bef (c :: aft) i) as [e|].
      * destruct (fn (mk_match i (c :: aft) e) st) as [rep st1] eqn:Hfn.
        destruct (idx e - i) as [|n] eqn:Hlen.
        -- destruct (replace_go fl r fn (c :: bef) aft (S i) 0 st1)
             as [out1 st2] eqn:Hrec.
           inversion Hgo; subst.
           destruct (IH _ _ _ _ _ _ Hrec Hc) as [-> Hst1].
           destruct (fn_unchanged _ _ _ _ Hfn Hst1) as [-> Hst].
           unfold mk_match; simpl. rewrite Hlen. simpl. auto.
        -- destruct (replace_go fl r fn (c :: bef) aft (S i) n st1)
             as [out1 st2] eqn:Hrec.
           inversion Hgo; subst.
           destruct (IH _ _ _ _ _ _ Hrec Hc) as [-> Hst1].
           destruct (fn_unchanged _ _ _ _ Hfn Hst1) as [-> Hst].
           unfold mk_match; simpl. rewrite Hlen. simpl.
           now rewrite firstn_skipn.
      * destruct (replace_go fl r fn (c :: bef) aft (S i) 0 st)
          as [out1 st2] eqn:Hrec.
        inversion Hgo; subst.
        destruct (IH _ _ _ _ _ _ Hrec Hc) as [-> Hst1]. auto.
    + apply (IH _ _ _ _ _ _ Hgo Hc).
Qed.

Lemma replace_fn_unchanged s st out st' :
  replace_fn fl r fn s st = (out, st') -> chg st' = false ->
  out = s /\ chg st = false.
Proof. intros H Hc. apply (replace_go_unchanged _ _ _ _ _ _ _ H Hc). Qed.
End Unchanged.

(** The callback is called on the results of [exec], in their order. *)
Lemma replace_go_state aft :
  forall bef i skip st,
    snd (replace_go fl r fn bef aft i skip st) =
    fold_left (fun st m => snd (fn m st)) (exec_all fl r bef aft i skip) st.
Proof.
  induction aft as [|c aft IH]; intros bef i skip st.
  - destruct skip; simpl; auto.
    destruct (match_at fl r bef [] i); simpl; auto.
    now destruct (fn (mk_match i [] m) st).
  - destruct skip as [|n]; simpl; auto.
    destruct (match_at fl r bef (c :: aft) i) as [e|]; simpl.
    + destruct (fn (mk_match i (c :: aft) e) st) as [rep st1]; simpl.
      destruct (idx e - i) as [|n]; simpl.
      * specialize (IH (c :: bef) (S i) 0 st1).
        destruct (replace_go fl r fn (c :: bef) aft (S i) 0 st1); simpl in *; auto.
      * specialize (IH (c :: bef) (S i) n st1).
        destruct (replace_go fl r fn (c :: bef) aft (S i) n st1); simpl in *; auto.
    + specialize (IH (c :: bef) (S i) 0 st).
      destruct (replace_go fl r fn (c :: bef) aft (S i) 0 st); simpl in *; auto.
Qed.

(** When the callback gives back every match as it is, so does [replace]. *)
Lemma replace_go_identity aft :
  forall bef i skip st,
    (forall m, In m (exec_all fl r bef aft i skip) ->
               forall st1, fn m st1 = (m_full m, st1)) ->
    replace_go fl r fn bef aft i skip st = (skipn skip aft, st).
Proof.
  induction aft as [|c aft IH]; intros bef i skip st Hall.
  - destruct skip; simpl in *; auto.
    destruct (match_at fl r bef [] i) as [e|]; auto.
    rewrite (Hall _ (or_introl eq_refl)).
    unfold mk_match; simpl. now rewrite firstn_nil.
  - destruct skip as [|n]; simpl in *.
    + destruct (match_at fl r bef (c :: aft) i) as [e|].
      * rewrite (Hall _ (or_introl eq_refl)).
        unfold mk_match at 1 2; simpl.
        destruct (idx e - i) as [|n]; simpl.
        -- rewrite IH by (intros; apply Hall; now right). reflexivity.
        -- rewrite IH by (intros; apply Hall; now right).
           now rewrite firstn_skipn.
      * rewrite IH by (intros; apply Hall; assumption). reflexivity.
    + now apply IH.
Qed.

Lemma replace_fn_identity s st :
  (forall m, In m (matches_of fl r s) -> forall st1, fn m st1 = (m_full m, st1)) ->
  replace_fn fl r fn s st = (s, st).
Proof. intros H. unfold replace_fn. now rewrite replace_go_identity. Qed.
End ReplaceFacts.

(** * Soundness of the matcher *)



Lemma reaches_nil s k z : k s = Some z -> reaches s [] (after s) k z.
Proof. intros H. exists (caps s). now destruct s. Qed.

Lemma reaches_app s w1 w2 rest k z cps :
  reaches (MState (rev w1 ++ before s) (w2 ++ rest) (length w1 + idx s) cps)
          w2 rest k z ->
  reaches s (w1 ++ w2) rest k z.
Proof.
  intros [cps' H]. exists cps'. simpl in H.
  rewrite rev_app_distr, <- app_assoc, length_app.
  now replace (length w1 + length w2 + idx s) with (length w2 + (length w1 + idx s)) by lia.
Qed.

Lemma repeat_matcher_sound fl r1 body gs g :
  sound_at fl r1 body ->
  forall fuel mn mx, sound_at fl (Rep mn mx g r1) (repeat_matcher body gs g fuel mn mx).
Proof.
  intros Hbody fuel.
  induction fuel as [|fuel IH]; intros mn mx s k z H; simpl in H; [discriminate|].
  assert (Hiter : mx <> Some 0 ->
    body (clear_caps gs s)
      (fun y => if (mn =? 0) && (idx y =? idx s) then None
                else repeat_matcher body gs g fuel (pred mn) (option_map pred mx) y k)
      = Some z ->
    exists w rest, after s = w ++ rest /\
      Matches fl (Rep mn mx g r1) (before s) w rest /\ reaches s w rest k z).
  { intros Hmx Hb.
    apply Hbody in Hb as (w1 & rest1 & Hsplit & Hm1 & cps1 & Hd).
    assert (Hcl : before (clear_caps gs s) = before s /\
                  after (clear_caps gs s) = after s /\
                  idx (clear_caps gs s) = idx s)
      by (unfold clear_caps; destruct gs; auto).
    destruct Hcl as (Hb1 & Ha1 & Hi1). rewrite Hb1, Hi1 in *. rewrite Ha1 in Hsplit.
    destruct ((mn =? 0) && (_ =? idx s)); [discriminate|].
    apply IH in Hd as (w2 & rest & Hsplit2 & Hm2 & Hr).
    simpl in Hsplit2, Hm2. subst rest1.
    exists (w1 ++ w2), rest. split; [now rewrite <- app_assoc|]. split.
    - now apply MRepIter.
    - eapply reaches_app with (cps := cps1). exact Hr. }
  assert (Hzero : k s = Some z ->
    (mn = 0 \/ mx = Some 0) ->
    exists w rest, after s = w ++ rest /\
      Matches fl (Rep mn mx g r1) (before s) w rest /\ reaches s w rest k z).
  { intros Hk Hc. exists [], (after s). split; auto. split.
    - now apply MRepStop.
    - now apply reaches_nil. }
  destruct mx as [[|mx]|].
  - apply Hzero; auto.
  - assert (Hne : Some (S mx) <> Some 0) by discriminate.
    destruct mn as [|mn]; [|now apply Hiter].
    destruct g.
    + destruct (body _ _) eqn:Hb in H.
      * inversion H; subst. now apply Hiter.
      * apply Hzero; auto.
    + destruct (k s) eqn:Hk.
      * inversion H; subst. apply Hzero; auto.
      * now apply Hiter.
  - assert (Hne : @None nat <> Some 0) by discriminate.
    destruct mn as [|mn]; [|now apply Hiter].
    destruct g.
    + destruct (body _ _) eqn:Hb in H.
      * inversion H; subst. now apply Hiter.
      * apply Hzero; auto.
    + destruct (k s) eqn:Hk.
      * inversion H; subst. apply Hzero; auto.
      * now apply Hiter.
Qed.

Theorem rmatch_sound fl r : sound_at fl r (rmatch fl r).
Proof.
  induction r as [|a|neg items|r1 IH1 r2 IH2|r1 IH1 r2 IH2|mn mx g r1 IH1
                  |i r1 IH1| | | |r1 IH1]; intros s k z H;
    try (apply (repeat_matcher_sound fl r1 (rmatch fl r1) (groups r1) g IH1) in H; exact H);
    simpl in H.
  - exists [], (after s). repeat split; auto using MEps, reaches_nil.
  - destruct (after s) as [|c rest] eqn:Ha; [discriminate|].
    destruct (char_eq fl a c) eqn:Hc; [|discriminate].
    exists [c], rest. repeat split; auto using MChr.
    exists (caps s). exact H.
  - destruct (after s) as [|c rest] eqn:Ha; [discriminate|].
    destruct (cls_match fl neg items c) eqn:Hc; [|discriminate].
    exists [c], rest. repeat split; auto using MCls.
    exists (caps s). exact H.
  - apply IH1 in H as (w1 & rest1 & Hs1 & Hm1 & cps1 & Hk1).
    apply IH2 in Hk1 as (w2 & rest & Hs2 & Hm2 & Hr).
    simpl in Hs2, Hm2. subst rest1.
    exists (w1 ++ w2), rest. split; [now rewrite <- app_assoc|]. split.
    + now apply MSeq.
    + eapply reaches_app with (cps := cps1). exact Hr.
  - destruct (rmatch fl r1 s k) eqn:H1.
    + inversion H; subst. apply IH1 in H1 as (w & rest & Hs & Hm & Hr).
      exists w, rest. auto using MAltL.
    + apply IH2 in H as (w & rest & Hs & Hm & Hr).
      exists w, rest. auto using MAltR.
  - apply IH1 in H as (w & rest & Hs & Hm & cps1 & Hk).
    exists w, rest. repeat split; auto using MGrp.
    unfold set_cap in Hk; simpl in Hk. eexists. exact Hk.
  - destruct (at_bol fl (before s)) eqn:Hb; [|discriminate].
    exists [], (after s). repeat split; auto using MBol, reaches_nil.
  - destruct (at_eol fl (after s)) eqn:Hb; [|discriminate].
    exists [], (after s). repeat split; auto using MEol, reaches_nil.
  - destruct (at_word_boundary (before s) (after s)) eqn:Hb; [|discriminate].
    exists [], (after s). repeat split; auto using MWordB, reaches_nil.
  - destruct (rmatch fl r1 s (fun s1 => Some s1)) as [s1|] eqn:H1; [|discriminate].
    apply IH1 in H1 as (w & rest & Hs & Hm & cps1 & Hk).
    exists [], (after s). repeat split.
    + eapply MAhead; eauto.
    + exists (caps s1). exact H.
Qed.

(** A match found at an index is a word of the pattern, and the end index
    has moved by the length of that word. *)
Lemma match_at_sound fl r bef aft i e :
  match_at fl r bef aft i = Some e ->
  exists w rest, aft = w ++ rest /\ Matches fl r bef w rest /\
                 idx e = length w + i /\ after e = rest.
Proof.
  unfold match_at. intros H.
  apply rmatch_sound in H as (w & rest & Hs & Hm & cps & Hk).
  simpl in *. inversion Hk; subst. exists w, rest. auto.
Qed.

(** * Trimming *)


Lemma trimStart_split s :
  exists sp, s = sp ++ trimStart s /\ forallb is_space sp = true.
Proof.
  induction s as [|c s (sp & Hs & Hsp)]; simpl.
  - now exists [].
  - destruct (is_space c) eqn:Hc.
    + exists (c :: sp); simpl. rewrite Hc, Hsp. split; [now f_equal|auto].
    + now exists [].
Qed.

Lemma trimStart_clean s : starts_clean (trimStart s).
Proof.
  induction s as [|c s IH]; simpl; auto.
  destruct (is_space c) eqn:Hc; simpl; auto.
Qed.

Lemma trimStart_id s : starts_clean s -> trimStart s = s.
Proof. destruct s as [|c s]; simpl; auto. now intros ->. Qed.

Lemma trimEnd_split s :
  exists sp, s = trimEnd s ++ sp /\ forallb is_space sp = true.
Proof.
  destruct (trimStart_split (rev s)) as (sp & Hs & Hsp).
  exists (rev sp). split.
  - unfold trimEnd. rewrite <- rev_app_distr, <- Hs. now rewrite rev_involutive.
  - rewrite forallb_forall in *. intros x Hx. apply Hsp. now apply in_rev.
Qed.

Lemma trimEnd_clean s : starts_clean (rev (trimEnd s)).
Proof. unfold trimEnd. rewrite rev_involutive. apply trimStart_clean. Qed.

Lemma trimEnd_id s : starts_clean (rev s) -> trimEnd s = s.
Proof.
  intros H. unfold trimEnd. rewrite trimStart_id by assumption.
  apply rev_involutive.
Qed.

Lemma trimEnd_keeps_start s : starts_clean s -> starts_clean (trimEnd s).
Proof.
  intros H. destruct (trimEnd_split s) as (sp & Hs & Hsp).
  destruct (trimEnd s) as [|c t] eqn:Ht; simpl; auto.
  rewrite Hs in H. exact H.
Qed.

Lemma trim_clean s : starts_clean (trim s) /\ starts_clean (rev (trim s)).
Proof.
  unfold trim. split.
  - apply trimEnd_keeps_start, trimStart_clean.
  - apply trimEnd_clean.
Qed.

Lemma trim_id s : starts_clean s -> starts_clean (rev s) -> trim s = s.
Proof.
  intros H1 H2. unfold trim. rewrite trimStart_id by assumption.
  now apply trimEnd_id.
Qed.

Lemma trim_idempotent s : trim (trim s) = trim s.
Proof. destruct (trim_clean s). now apply trim_id. Qed.

Lemma starts_clean_app a b : a <> [] -> starts_clean a -> starts_clean (a ++ b).
Proof. destruct a; simpl; auto. congruence. Qed.

(** Joining two trimmed, non-empty texts with a space gives a trimmed text. *)
Lemma trim_joined a b :
  trim a <> [] -> trim b <> [] ->
  trim (trim a ++ js " " ++ trim b) = trim a ++ js " " ++ trim b.
Proof.
  intros Ha Hb.
  destruct (trim_clean a) as [Ha1 Ha2], (trim_clean b) as [Hb1 Hb2].
  apply trim_id.
  - now apply starts_clean_app.
  - rewrite !rev_app_distr, <- app_assoc. apply starts_clean_app; auto.
    intros H. apply Hb. apply (f_equal (@rev ascii)) in H.
    now rewrite rev_involutive in H.
Qed.

(** * The alt that the normalizer chooses *)

Lemma substring_between_quotes raw :
  substring 1 (length raw - 1) raw = ImageSpec.between_quotes raw.
Proof.
  unfold substring, ImageSpec.between_quotes.
  rewrite removelast_firstn_len.
  destruct raw as [|c raw]; simpl; auto.
  now rewrite Nat.sub_0_r, Nat.sub_1_r.
Qed.

Lemma collect_push (ms : list match_result) (f : match_result -> jsstring) :
  forall acc,
    fold_left (fun alts m => match f m with [] => alts | _ => alts ++ [f m] end)
              ms acc
    = acc ++ filter ImageSpec.non_empty (map f ms).
Proof.
  induction ms as [|m ms IH]; intros acc; simpl.
  - now rewrite app_nil_r.
  - rewrite IH. destruct (f m) eqn:Hf; simpl; auto.
    now rewrite <- app_assoc.
Qed.

Lemma collectAlts_spec attrString :
  Image.collectAlts attrString =
  filter ImageSpec.non_empty (ImageSpec.alt_values attrString).
Proof.
  unfold Image.collectAlts, ImageSpec.alt_values.
  rewrite (collect_push _
    (fun m => trim (substring 1 (length (group_or_empty 1 m) - 1) (group_or_empty 1 m)))).
  simpl. f_equal. apply map_ext. intros m. now rewrite substring_between_quotes.
Qed.

Lemma find_filter_head (A : Type) (f : A -> bool) l :
  find f l = match filter f l with a :: _ => Some a | [] => None end.
Proof.
  induction l as [|x l IH]; simpl; auto.
  destruct (f x); auto.
Qed.

Lemma chooseAlt_spec values fallbackAlt :
  (forall v, In v values -> exists x, v = trim x) ->
  Image.chooseAlt (filter ImageSpec.non_empty values) fallbackAlt =
  ImageSpec.chosen_alt values fallbackAlt.
Proof.
  intros Hv. unfold Image.chooseAlt, ImageSpec.chosen_alt.
  rewrite find_filter_head.
  destruct (filter ImageSpec.non_empty values) as [|a l] eqn:Hf.
  - destruct fallbackAlt as [|c fb]; [reflexivity|].
    now destruct (trim (c :: fb)).
  - assert (Ha : In a (filter ImageSpec.non_empty values)) by (rewrite Hf; now left).
    apply filter_In in Ha as [Hin Hne].
    destruct (Hv _ Hin) as [x ->].
    destruct (trim x) as [|c0 t0] eqn:Hx; [discriminate|]. rewrite <- Hx.
    destruct fallbackAlt as [|c fb].
    + rewrite Hx. reflexivity.
    + destruct (trim (c :: fb)) as [|c1 t1] eqn:Hfb.
      * rewrite Hx. reflexivity.
      * rewrite <- Hfb. rewrite Hx at 1. rewrite <- Hx.
        assert (Hne' : ImageSpec.non_empty (trim (c :: fb)) = true) by now rewrite Hfb.
        rewrite Hne'. simpl andb.
        destruct (negb _); auto.
        apply trim_joined; congruence.
Qed.

Lemma alt_values_trimmed attrString v :
  In v (ImageSpec.alt_values attrString) -> exists x, v = trim x.
Proof.
  unfold ImageSpec.alt_values. rewrite in_map_iff.
  intros (m & <- & _). eauto.
Qed.

Lemma normalizeImgTag_rule (imgTag fallbackAlt : jsstring) :
  Image.normalizeImgTag imgTag fallbackAlt =
  js "<img"
  ++ Image.attrsPart (Image.cleanAttrs (Image.attrStringOriginal imgTag))
  ++ (js " alt=`"
      ++ htmlEntityEscape
           (ImageSpec.chosen_alt
              (ImageSpec.alt_values (Image.attrStringOriginal imgTag))
              fallbackAlt)
      ++ js "`")
  ++ js " />".
Proof.
  unfold Image.normalizeImgTag.
  rewrite collectAlts_spec, chooseAlt_spec by apply alt_values_trimmed.
  reflexivity.
Qed.

(** * A run that reports no change returns its input *)

Lemma embed_block_unchanged m st rep st' :
  Embed.blockCallback m st = (rep, st') -> Embed.c_changed st' = false ->
  rep = m_full m /\ Embed.c_changed st = false.
Proof.
  unfold Embed.blockCallback.
  destruct (Embed.attr_url _); intros H Hc; inversion H; subst; auto.
  discriminate.
Qed.

Lemma embed_single_unchanged m st rep st' :
  Embed.singleCallback m st = (rep, st') -> Embed.c_changed st' = false ->
  rep = m_full m /\ Embed.c_changed st = false.
Proof.
  unfold Embed.singleCallback.
  destruct (Embed.attr_url _); intros H Hc; inversion H; subst; auto.
  discriminate.
Qed.

Lemma image_figure_unchanged m st rep st' :
  Image.figureCallback m st = (rep, st') -> Image.c_changed st' = false ->
  rep = m_full m /\ Image.c_changed st = false.
Proof.
  unfold Image.figureCallback.
  destruct (str_match fl_i Image.imgRegex _); intros H Hc; inversion H; subst; auto.
  discriminate.
Qed.

Lemma image_img_unchanged m st rep st' :
  Image.imgCallback m st = (rep, st') -> Image.c_changed st' = false ->
  rep = m_full m /\ Image.c_changed st = false.
Proof.
  unfold Image.imgCallback.
  destruct (str_eqb _ _) eqn:He; simpl; intros H Hc; inversion H; subst.
  - split; auto. now apply str_eqb_eq.
  - discriminate.
Qed.

Lemma embed_unchanged input :
  Embed.changed (Embed.processContent input) = false ->
  Embed.text (Embed.processContent input) = input.
Proof.
  unfold Embed.processContent.
  destruct (replace_fn fl_mi Embed.blockRegex _ input _) as [t1 st1] eqn:H1.
  destruct (replace_fn fl_mi Embed.singleRegex _ t1 st1) as [t2 st2] eqn:H2.
  simpl. intros Hc.
  destruct (replace_fn_unchanged _ _ _ _ Embed.c_changed embed_single_unchanged _ _ _ _ H2 Hc)
    as [-> Hc1].
  now destruct (replace_fn_unchanged _ _ _ _ Embed.c_changed embed_block_unchanged _ _ _ _ H1 Hc1).
Qed.

Lemma hint_unchanged input :
  Hint.changed (Hint.processContent input) = false ->
  Hint.text (Hint.processContent input) = input.
Proof.
  unfold Hint.processContent.
  destruct (replace_fn fl_m Hint.startTag _ input _) as [t1 st1] eqn:H1.
  destruct (replace_fn fl_m Hint.endTag _ t1 st1) as [t2 st2] eqn:H2.
  simpl. intros Hc.
  assert (Hs : forall m st rep st', Hint.startCallback m st = (rep, st') ->
               Hint.c_changed st' = false -> rep = m_full m /\ Hint.c_changed st = false)
    by (unfold Hint.startCallback; intros ? ? ? ? H Hx; inversion H; subst; discriminate).
  assert (He : forall m st rep st', Hint.endCallback m st = (rep, st') ->
               Hint.c_changed st' = false -> rep = m_full m /\ Hint.c_changed st = false)
    by (unfold Hint.endCallback; intros ? ? ? ? H Hx; inversion H; subst; discriminate).
  destruct (replace_fn_unchanged _ _ _ _ Hint.c_changed He _ _ _ _ H2 Hc) as [-> Hc1].
  now destruct (replace_fn_unchanged _ _ _ _ Hint.c_changed Hs _ _ _ _ H1 Hc1).
Qed.

Lemma arcade_unchanged input :
  Arcade.changed (Arcade.processContent input) = false ->
  Arcade.text (Arcade.processContent input) = input.
Proof.
  unfold Arcade.processContent.
  destruct (replace_fn fl_mi Arcade.iframeRegex _ input _) as [t1 st1] eqn:H1.
  simpl. intros Hc.
  assert (Hs : forall m st rep st', Arcade.callback m st = (rep, st') ->
               Arcade.c_changed st' = false -> rep = m_full m /\ Arcade.c_changed st = false)
    by (unfold Arcade.callback; intros ? ? ? ? H Hx; inversion H; subst; discriminate).
  now destruct (replace_fn_unchanged _ _ _ _ Arcade.c_changed Hs _ _ _ _ H1 Hc).
Qed.

Lemma image_unchanged input :
  Image.changed (Image.processFileContent input) = false ->
  Image.content (Image.processFileContent input) = input.
Proof.
  unfold Image.processFileContent.
  destruct (replace_fn fl_g Image.figureRegex _ input _) as [t1 st1] eqn:H1.
  destruct (replace_fn fl_i Image.imgRegex _ t1 st1) as [t2 st2] eqn:H2.
  simpl. intros Hc.
  destruct (replace_fn_unchanged _ _ _ _ Image.c_changed image_img_unchanged _ _ _ _ H2 Hc)
    as [-> Hc1].
  now destruct (replace_fn_unchanged _ _ _ _ Image.c_changed image_figure_unchanged _ _ _ _ H1 Hc1).
Qed.

(** * The embed callbacks and the url *)

Lemma block_no_url m st :
  has_url m = false -> Embed.blockCallback m st = (m_full m, st).
Proof.
  unfold has_url, Embed.blockCallback.
  now destruct (Embed.attr_url _).
Qed.

Lemma single_no_url m st :
  has_url m = false -> Embed.singleCallback m st = (m_full m, st).
Proof.
  unfold has_url, Embed.singleCallback.
  now destruct (Embed.attr_url _).
Qed.

Lemma block_counts ms : forall st,
  let st' := fold_left (fun st m => snd (Embed.blockCallback m st)) ms st in
  Embed.c_blocks st' = Embed.c_blocks st + length (filter has_url ms) /\
  Embed.c_singles st' = Embed.c_singles st.
Proof.
  induction ms as [|m ms IH]; intros st; simpl; [lia|].
  destruct (has_url m) eqn:Hu.
  - destruct (IH (snd (Embed.blockCallback m st))) as [H1 H2].
    rewrite H1, H2. unfold has_url in Hu. unfold Embed.blockCallback.
    destruct (Embed.attr_url _); [discriminate|]. simpl. lia.
  - rewrite block_no_url by assumption. apply IH.
Qed.

Lemma single_counts ms : forall st,
  let st' := fold_left (fun st m => snd (Embed.singleCallback m st)) ms st in
  Embed.c_singles st' = Embed.c_singles st + length (filter has_url ms) /\
  Embed.c_blocks st' = Embed.c_blocks st.
Proof.
  induction ms as [|m ms IH]; intros st; simpl; [lia|].
  destruct (has_url m) eqn:Hu.
  - destruct (IH (snd (Embed.singleCallback m st))) as [H1 H2].
    rewrite H1, H2. unfold has_url in Hu. unfold Embed.singleCallback.
    destruct (Embed.attr_url _); [discriminate|]. simpl. lia.
  - rewrite single_no_url by assumption. apply IH.
Qed.

(** * The paths that the collector adds *)

(** Induction on directory trees. *)
Lemma entry_tree_ind (P : entry -> Prop) :
  (forall name, P (File name)) ->
  (forall name listing, Forall P listing -> P (Dir name listing)) ->
  (forall name, P (DirErr name)) ->
  forall e, P e.
Proof.
  intros HF HD HE. fix IH 1. intros [name|name listing|name].
  - apply HF.
  - apply HD. induction listing as [|e l IHl]; constructor; [apply IH|apply IHl].
  - apply HE.
Qed.

(** The loop inside [visit] is [collectFiles] on the sub-directory. *)
Lemma visit_dir exts dirPath name listing collected :
  visit exts dirPath (Dir name listing) collected =
  if startsWith name dot then Some collected
  else collectFiles exts (path_join dirPath name) listing collected.
Proof.
  cbn -[startsWith]. destruct (startsWith name dot); [reflexivity|].
  revert collected. induction listing as [|e l IH]; intros collected;
    cbn -[startsWith]; auto.
  destruct (visit exts (path_join dirPath name) e collected); auto.
Qed.


Lemma below_join dirPath name p :
  visible name = true -> below (path_join dirPath name) p -> below dirPath p.
Proof.
  intros Hv (names & -> & Hne & Hall).
  exists (names ++ [name]). unfold path_join. rewrite <- app_assoc. simpl.
  repeat split.
  - now destruct names.
  - rewrite forallb_app, Hall. cbn -[visible]. now rewrite Hv.
Qed.


Lemma adds_below_refl dirPath collected : adds_below dirPath collected collected.
Proof. exists []. now rewrite app_nil_r. Qed.

Lemma adds_below_trans dirPath a b c :
  adds_below dirPath a b -> adds_below dirPath b c -> adds_below dirPath a c.
Proof.
  intros (x & -> & Hx) (y & -> & Hy). exists (x ++ y).
  rewrite app_assoc. split; auto. now apply Forall_app.
Qed.

Lemma collectFiles_adds exts dirPath entries :
  Forall (fun e => forall dirPath collected out,
            visit exts dirPath e collected = Some out ->
            adds_below dirPath collected out) entries ->
  forall collected out,
    collectFiles exts dirPath entries collected = Some out ->
    adds_below dirPath collected out.
Proof.
  induction 1 as [|e l He Hl IH]; intros collected out H; simpl in H.
  - inversion H; subst. apply adds_below_refl.
  - destruct (visit exts dirPath e collected) as [c1|] eqn:Hv; [|discriminate].
    eapply adds_below_trans; eauto.
Qed.

Lemma visit_adds exts e :
  forall dirPath collected out,
    visit exts dirPath e collected = Some out ->
    adds_below dirPath collected out.
Proof.
  induction e as [name|name listing IH|name] using entry_tree_ind;
    intros dirPath collected out H.
  - cbn -[startsWith] in H. destruct (startsWith name dot) eqn:Hd.
    + inversion H; subst. apply adds_below_refl.
    + destruct (existsb _ exts); inversion H; subst.
      * exists [path_join dirPath name]. split; auto.
        constructor; auto. exists [name]. repeat split; try discriminate.
        cbn -[startsWith]. unfold visible. now rewrite Hd.
      * apply adds_below_refl.
  - rewrite visit_dir in H. destruct (startsWith name dot) eqn:Hd.
    + inversion H; subst. apply adds_below_refl.
    + apply (collectFiles_adds _ _ _ IH) in H.
      destruct H as (added & -> & Hadd). exists added. split; auto.
      eapply Forall_impl; [|exact Hadd]. intros p. apply below_join.
      unfold visible. now rewrite Hd.
  - cbn -[startsWith] in H. destruct (startsWith name dot); [|discriminate].
    inversion H; subst. apply adds_below_refl.
Qed.

(** * Running the matcher on inputs that are known in part *)

Lemma ok_seq fl r1 r2 s k z :
  rmatch fl r1 s (fun s1 => rmatch fl r2 s1 k) = Some z ->
  rmatch fl (Seq r1 r2) s k = Some z.
Proof. auto. Qed.

Lemma ok_eps fl s k z : k s = Some z -> rmatch fl Eps s k = Some z.
Proof. auto. Qed.

Lemma ok_grp fl i r s k z :
  rmatch fl r s (fun s1 => k (set_cap i s s1)) = Some z ->
  rmatch fl (Grp i r) s k = Some z.
Proof. auto. Qed.

Lemma ok_bol fl s k z :
  at_bol fl (before s) = true -> k s = Some z -> rmatch fl Bol s k = Some z.
Proof. simpl. now intros ->. Qed.

Lemma ok_eol fl s k z :
  at_eol fl (after s) = true -> k s = Some z -> rmatch fl Eol s k = Some z.
Proof. simpl. now intros ->. Qed.

Lemma ok_wordb fl s k z :
  at_word_boundary (before s) (after s) = true -> k s = Some z ->
  rmatch fl WordB s k = Some z.
Proof. simpl. now intros ->. Qed.

Lemma ok_chr fl a s k z c rest :
  after s = c :: rest -> char_eq fl a c = true ->
  k (advance c rest s) = Some z ->
  rmatch fl (Chr a) s k = Some z.
Proof. simpl. now intros -> ->. Qed.

Lemma ok_cls fl neg items s k z c rest :
  after s = c :: rest -> cls_match fl neg items c = true ->
  k (advance c rest s) = Some z ->
  rmatch fl (Cls neg items) s k = Some z.
Proof. simpl. now intros -> ->. Qed.


Lemma moved_nil s : moved s [] (after s) = s.
Proof. now destruct s. Qed.

Lemma moved_cons s c w rest :
  moved (advance c (w ++ rest) s) w rest = moved s (c :: w) rest.
Proof.
  unfold moved, advance; simpl. rewrite <- app_assoc. simpl.
  now rewrite Nat.add_succ_r.
Qed.


Lemma ok_chars fl l : forall s k z w rest,
  after s = w ++ rest -> chars_eq fl l w = true ->
  k (moved s w rest) = Some z ->
  rmatch fl (seq (map Chr l)) s k = Some z.
Proof.
  induction l as [|a l IH]; intros s k z [|c w] rest Ha Hc Hk;
    simpl in Hc; try discriminate.
  - simpl in *. subst rest. now rewrite moved_nil in Hk.
  - apply andb_prop in Hc as [Hc1 Hc2].
    simpl. simpl in Ha. rewrite Ha, Hc1.
    apply (IH _ _ _ w rest); auto.
    now rewrite moved_cons.
Qed.

Lemma ok_lit fl str s k z w rest :
  after s = w ++ rest -> chars_eq fl (list_ascii_of_string str) w = true ->
  k (moved s w rest) = Some z ->
  rmatch fl (lit str) s k = Some z.
Proof. apply ok_chars. Qed.


Lemma rmatch_rep fl mn mx g r s k :
  rmatch fl (Rep mn mx g r) s k =
  repeat_matcher (rmatch fl r) (groups r) g (S (mn + length (after s))) mn mx s k.
Proof. reflexivity. Qed.

Lemma repeat_step fl neg items g fuel s k :
  repeat_matcher (rmatch fl (Cls neg items)) [] g (S fuel) 0 None s k =
  let iter :=
    match after s with
    | [] => None
    | c :: rest =>
      if cls_match fl neg items c
      then repeat_matcher (rmatch fl (Cls neg items)) [] g fuel 0 None
             (advance c rest s) k
      else None
    end in
  if g then match iter with Some z => Some z | None => k s end
  else match k s with Some z => Some z | None => iter end.
Proof.
  cbn [repeat_matcher rmatch clear_caps Nat.eqb andb Nat.pred option_map].
  cbv zeta.
  destruct (after s) as [|c rest]; [reflexivity|].
  destruct (cls_match fl neg items c); [|reflexivity].
  assert (E : (idx (advance c rest s) =? idx s) = false)
    by (apply Nat.eqb_neq; simpl; lia).
  rewrite E. reflexivity.
Qed.

(** A greedy star over a class reads as far as the class goes; when what
    follows in the pattern succeeds from there, that is the result. *)
Lemma repeat_greedy_cls fl neg items k z w : forall fuel s rest,
  length w < fuel ->
  after s = w ++ rest ->
  forallb (cls_match fl neg items) w = true ->
  stops fl neg items rest = true ->
  k (moved s w rest) = Some z ->
  repeat_matcher (rmatch fl (Cls neg items)) [] true fuel 0 None s k = Some z.
Proof.
  induction w as [|c w IH]; intros fuel s rest Hf Ha Hw Hr Hk;
    (destruct fuel as [|fuel]; [simpl in Hf; lia|]);
    rewrite repeat_step; cbv zeta; rewrite Ha; simpl app.
  - simpl in Ha. subst rest. rewrite moved_nil in Hk.
    destruct (after s) as [|c r]; simpl in Hr; auto.
    apply negb_true_iff in Hr. now rewrite Hr.
  - simpl in Hw, Hf. apply andb_prop in Hw as [Hc Hw]. rewrite Hc.
    rewrite (IH fuel (advance c (w ++ rest) s) rest); auto; try lia.
    now rewrite moved_cons.
Qed.

Lemma ok_star_cls fl neg items s k z w rest :
  after s = w ++ rest ->
  forallb (cls_match fl neg items) w = true ->
  stops fl neg items rest = true ->
  k (moved s w rest) = Some z ->
  rmatch fl (star (Cls neg items)) s k = Some z.
Proof.
  intros Ha Hw Hr Hk. unfold star. rewrite rmatch_rep. cbn [groups].
  apply (repeat_greedy_cls fl neg items k z w _ s rest); auto.
  rewrite Ha, length_app. lia.
Qed.

(** A lazy star over a class stops at the first point from which what
    follows in the pattern succeeds. *)
Lemma repeat_lazy_cls fl neg items k z w : forall fuel s rest,
  length w < fuel ->
  after s = w ++ rest ->
  forallb (cls_match fl neg items) w = true ->
  (forall w1 w2, w = w1 ++ w2 -> w2 <> [] ->
                 k (moved s w1 (w2 ++ rest)) = None) ->
  k (moved s w rest) = Some z ->
  repeat_matcher (rmatch fl (Cls neg items)) [] false fuel 0 None s k = Some z.
Proof.
  induction w as [|c w IH]; intros fuel s rest Hf Ha Hw Hn Hk;
    (destruct fuel as [|fuel]; [simpl in Hf; lia|]);
    rewrite repeat_step; cbv zeta.
  - simpl in Ha. subst rest. rewrite moved_nil in Hk. now rewrite Hk.
  - simpl in Hw, Hf. apply andb_prop in Hw as [Hc Hw].
    pose proof (Hn [] (c :: w) eq_refl) as H0.
    rewrite <- Ha, moved_nil in H0. rewrite H0 by discriminate.
    rewrite Ha. cbn [app]. rewrite Hc.
    apply (IH fuel (advance c (w ++ rest) s) rest); auto; try lia.
    + intros w1 w2 -> Hw2.
      pose proof (moved_cons s c w1 (w2 ++ rest)) as Hm.
      rewrite app_assoc in Hm. rewrite Hm.
      apply (Hn (c :: w1) w2); auto.
    + now rewrite moved_cons.
Qed.

Lemma ok_lazy_cls fl neg items s k z w rest :
  after s = w ++ rest ->
  forallb (cls_match fl neg items) w = true ->
  (forall w1 w2, w = w1 ++ w2 -> w2 <> [] ->
                 k (moved s w1 (w2 ++ rest)) = None) ->
  k (moved s w rest) = Some z ->
  rmatch fl (lazy_star (Cls neg items)) s k = Some z.
Proof.
  intros Ha Hw Hn Hk. unfold lazy_star. rewrite rmatch_rep. cbn [groups].
  apply (repeat_lazy_cls fl neg items k z w _ s rest); auto.
  rewrite Ha, length_app. lia.
Qed.

(** * Texts without the opening of a pattern *)

Lemma startsWith_app p s : startsWith (p ++ s) p = true.
Proof. induction p as [|c p IH]; simpl; auto. now rewrite Ascii.eqb_refl. Qed.

Lemma startsWith_app_r s p b : startsWith s p = true -> startsWith (s ++ b) p = true.
Proof.
  revert s; induction p as [|x p IH]; intros [|y s]; simpl; auto; try discriminate.
  intros H. apply andb_prop in H as [-> H]. simpl. auto.
Qed.

Lemma includes_unfold s p :
  includes s p = startsWith s p || match s with [] => false | _ :: s' => includes s' p end.
Proof. destruct s; reflexivity. Qed.



Lemma includes_app_l a s p : includes s p = true -> includes (a ++ s) p = true.
Proof.
  intros H. induction a as [|c a IH]; auto.
  simpl app. rewrite includes_unfold, IH. apply orb_true_r.
Qed.

Lemma includes_middle a p b : includes (a ++ p ++ b) p = true.
Proof.
  apply includes_app_l. rewrite includes_unfold, startsWith_app. reflexivity.
Qed.

Lemma includes_tail c s p : includes (c :: s) p = false -> includes s p = false.
Proof. rewrite includes_unfold. intros H. now apply orb_false_elim in H. Qed.

(** ** What a match must contain *)

Lemma Matches_seq_inv fl r1 r2 bef w rest :
  Matches fl (Seq r1 r2) bef w rest ->
  exists w1 w2, w = w1 ++ w2 /\ Matches fl r1 bef w1 (w2 ++ rest) /\
                Matches fl r2 (rev w1 ++ bef) w2 rest.
Proof. intros H. inversion H; subst. eauto. Qed.

Lemma Matches_chars_inv fl l : forall bef w rest,
  Matches fl (seq (map Chr l)) bef w rest -> chars_eq fl l w = true.
Proof.
  induction l as [|a l IH]; intros bef w rest H; simpl in H.
  - inversion H; subst. reflexivity.
  - apply Matches_seq_inv in H as (w1 & w2 & -> & H1 & H2).
    inversion H1; subst. simpl. apply IH in H2. now rewrite H2, andb_true_r.
Qed.

(** A pattern [seq (rs1 ++ lit op :: rs2)] only matches words with the
    characters of [op] in them. *)
Lemma Matches_has_lit fl op rs2 rs1 : forall bef w rest,
  Matches fl (seq (rs1 ++ lit op :: rs2)) bef w rest ->
  exists w1 wop w2, w = w1 ++ wop ++ w2 /\
                    chars_eq fl (list_ascii_of_string op) wop = true.
Proof.
  induction rs1 as [|r rs1 IH]; intros bef w rest H; simpl in H;
    apply Matches_seq_inv in H as (w1 & w2 & -> & H1 & H2).
  - apply Matches_chars_inv in H1. exists [], w1, w2. auto.
  - apply IH in H2 as (u1 & wop & u2 & -> & Hc).
    exists (w1 ++ u1), wop, u2. now rewrite <- app_assoc.
Qed.

Lemma lower_canonicalize c : lower_char (canonicalize c) = lower_char c.
Proof. destruct c as [[] [] [] [] [] [] [] []]; reflexivity. Qed.

Lemma char_eq_lower fl a c :
  char_eq fl a c = true -> lower_char c = lower_char a.
Proof.
  unfold char_eq. destruct (ignoreCase fl); intros H; apply Ascii.eqb_eq in H.
  - now rewrite <- (lower_canonicalize c), <- H, lower_canonicalize.
  - now subst.
Qed.

Lemma chars_eq_lower fl l : forall w,
  chars_eq fl l w = true -> toLowerCase w = toLowerCase l.
Proof.
  induction l as [|a l IH]; intros [|c w] H; simpl in H; try discriminate; auto.
  apply andb_prop in H as [H1 H2]. simpl. f_equal; auto.
  now apply (char_eq_lower fl).
Qed.

(** The characters that have no other case stand for themselves alone. *)
Lemma canonicalize_caseless a c :
  lower_char a = a -> canonicalize a = a ->
  canonicalize a = canonicalize c -> c = a.
Proof.
  intros Hl Hu H. rewrite Hu in H. subst a.
  rewrite lower_canonicalize in Hl.
  destruct c as [[] [] [] [] [] [] [] []]; try reflexivity; discriminate.
Qed.


Lemma chars_eq_exact fl l : forall w,
  ignoreCase fl = false \/ caseless l = true ->
  chars_eq fl l w = true -> w = l.
Proof.
  induction l as [|a l IH]; intros [|c w] Hl H; simpl in *; try discriminate; auto.
  apply andb_prop in H as [H1 H2].
  unfold char_eq in H1.
  destruct Hl as [Hl|Hl].
  - rewrite Hl in H1. apply Ascii.eqb_eq in H1. subst. f_equal. auto.
  - apply andb_prop in Hl as [Hl Hl3]. apply andb_prop in Hl as [Hl1 Hl2].
    apply Ascii.eqb_eq in Hl1, Hl2.
    f_equal; auto.
    destruct (ignoreCase fl); apply Ascii.eqb_eq in H1.
    + now apply canonicalize_caseless.
    + now subst.
Qed.

(** A match of a pattern with the literal [op] in it needs [op] in the
    text: no match where the text lacks it. *)
Section NoOpener.
Variable fl : flags.
Variable op : string.
Variables rs1 rs2 : list regex.
Let r := seq (rs1 ++ lit op :: rs2).
Let opener := list_ascii_of_string op.

Lemma match_at_needs_lower bef aft i :
  includes (toLowerCase aft) (toLowerCase opener) = false ->
  match_at fl r bef aft i = None.
Proof.
  intros Hno. destruct (match_at fl r bef aft i) as [e|] eqn:He; auto.
  apply match_at_sound in He as (w & rest & -> & Hm & _).
  apply Matches_has_lit in Hm as (w1 & wop & w2 & -> & Hc).
  apply chars_eq_lower in Hc.
  unfold toLowerCase in *. rewrite !map_app, Hc, <- !app_assoc in Hno.
  now rewrite includes_middle in Hno.
Qed.

Lemma match_at_needs bef aft i :
  ignoreCase fl = false \/ caseless opener = true ->
  includes aft opener = false ->
  match_at fl r bef aft i = None.
Proof.
  intros Hcl Hno. destruct (match_at fl r bef aft i) as [e|] eqn:He; auto.
  apply match_at_sound in He as (w & rest & -> & Hm & _).
  apply Matches_has_lit in Hm as (w1 & wop & w2 & -> & Hc).
  apply chars_eq_exact in Hc; auto. subst wop.
  rewrite <- !app_assoc in Hno.
  now rewrite includes_middle in Hno.
Qed.
End NoOpener.

(** Where the pattern matches nowhere, [replace] gives the text back and
    calls nothing. *)
Section NoMatch.
Variable fl : flags.
Variable r : regex.
Variable St : Type.
Variable fn : match_result -> St -> jsstring * St.
Variable free : jsstring -> Prop.
Hypothesis free_tail : forall c s, free (c :: s) -> free s.
Hypothesis free_no_match :
  forall bef aft i, free aft -> match_at fl r bef aft i = None.

Lemma replace_go_free aft : forall bef i st,
  free aft -> replace_go fl r fn bef aft i 0 st = (aft, st).
Proof.
  induction aft as [|c aft IH]; intros bef i st Hf; simpl;
    rewrite free_no_match by assumption; auto.
  rewrite IH; eauto.
Qed.

Lemma replace_fn_free s st : free s -> replace_fn fl r fn s st = (s, st).
Proof. apply replace_go_free. Qed.
End NoMatch.

Lemma lower_free_tail op c s :
  includes (toLowerCase (c :: s)) op = false -> includes (toLowerCase s) op = false.
Proof. simpl. apply includes_tail. Qed.

(** * [replace] at a match that is known *)

Section ReplaceHit.
Variable fl : flags.
Variable r : regex.
Variable St : Type.
Variable fn : match_result -> St -> jsstring * St.

Lemma replace_go_skip w : forall bef rest i st,
  replace_go fl r fn bef (w ++ rest) i (length w) st =
  replace_go fl r fn (rev w ++ bef) rest (length w + i) 0 st.
Proof.
  induction w as [|c w IH]; intros bef rest i st; [reflexivity|].
  cbn [length app replace_go]. rewrite IH. cbn [rev].
  rewrite <- app_assoc. cbn [app]. now rewrite Nat.add_succ_r.
Qed.

Lemma replace_go_hit bef aft i st e w rest :
  match_at fl r bef aft i = Some e ->
  aft = w ++ rest -> w <> [] -> idx e = length w + i ->
  replace_go fl r fn bef aft i 0 st =
  (let (rep, st1) := fn (Match i w (caps e)) st in
   let (out, st2) :=
     replace_go fl r fn (rev w ++ bef) rest (length w + i) 0 st1 in
   (rep ++ out, st2)).
Proof.
  intros Hm -> Hw Hi. destruct w as [|c w]; [congruence|].
  cbn [app] in Hm. cbn [app replace_go]. rewrite Hm.
  unfold mk_match. rewrite Hi.
  replace (length (c :: w) + i - i) with (S (length w)) by (cbn [length]; lia).
  assert (Hf : firstn (S (length w)) (c :: w ++ rest) = c :: w).
  { cbn [firstn]. f_equal.
    rewrite firstn_app, firstn_all, Nat.sub_diag. cbn [firstn].
    now rewrite app_nil_r. }
  rewrite Hf.
  destruct (fn (Match i (c :: w) (caps e)) st) as [rep st1].
  rewrite replace_go_skip. cbn [rev length].
  rewrite <- app_assoc. cbn [app]. now rewrite Nat.add_succ_r.
Qed.
End ReplaceHit.

Lemma group_found i a0 a1 w cps m_i m_w :
  a0 = w ++ a1 ->
  group i (Match m_i m_w ((i, (a0, a1)) :: cps)) = Some w.
Proof.
  intros ->. unfold group. cbn [m_caps find fst]. rewrite Nat.eqb_refl.
  rewrite length_app, Nat.add_sub, firstn_app, firstn_all, Nat.sub_diag.
  cbn [firstn]. now rewrite app_nil_r.
Qed.

(** * The hint patterns at a marker *)

Lemma cls_space fl c : cls_match fl false [CSpace] c = is_space c.
Proof. unfold cls_match. simpl. now rewrite orb_false_r. Qed.

Lemma forallb_space fl w :
  forallb is_space w = true -> forallb (cls_match fl false [CSpace]) w = true.
Proof.
  intros H. rewrite forallb_forall in *. intros c Hc.
  rewrite cls_space. now apply H.
Qed.

Lemma lacks_none_of fl x w :
  lower_char x = x -> canonicalize x = x ->
  lacks x w = true -> forallb (cls_match fl true [CChar x]) w = true.
Proof.
  intros Hl Hu H. unfold lacks in H. rewrite forallb_forall in *.
  intros c Hc. specialize (H c Hc). unfold cls_match. simpl.
  rewrite orb_false_r. unfold char_eq.
  destruct (ignoreCase fl); [|exact H].
  destruct (Ascii.eqb (canonicalize x) (canonicalize c)) eqn:E; auto.
  apply Ascii.eqb_eq in E. apply canonicalize_caseless in E; auto.
  subst c. now rewrite Ascii.eqb_refl in H.
Qed.

Lemma includes_skip x p a b :
  lacks x a = true -> includes (a ++ b) (x :: p) = includes b (x :: p).
Proof.
  induction a as [|c a IH]; intros H; [reflexivity|].
  cbn [lacks forallb] in H. apply andb_prop in H as [Hc Ha].
  cbn [app]. rewrite includes_unfold. cbn [startsWith].
  apply negb_true_iff in Hc. rewrite Hc. cbn [andb orb]. now apply IH.
Qed.

Lemma space_lacks x w :
  is_space x = false -> forallb is_space w = true -> lacks x w = true.
Proof.
  intros Hx H. unfold lacks. rewrite forallb_forall in *. intros c Hc.
  specialize (H c Hc). destruct (Ascii.eqb x c) eqn:E; auto.
  apply Ascii.eqb_eq in E. subst. congruence.
Qed.

Ltac split_ok :=
  cbn [after before idx caps moved set_cap advance];
  repeat rewrite <- app_assoc; reflexivity.

(** The start marker at the start of a line. *)
Lemma startTag_match bef indent style post i :
  at_bol fl_m bef = true ->
  forallb is_space indent = true ->
  lacks "%"%char style = true ->
  let marker := js "{% hint style=`" ++ style ++ js "` %}" in
  exists e,
    match_at fl_m Hint.startTag bef (indent ++ marker ++ post) i = Some e /\
    idx e = length (indent ++ marker) + i /\
    caps e = [(1, (indent ++ marker ++ post, marker ++ post))].
Proof.
  intros Hbol Hind Hsty marker. subst marker. eexists. split; [|split].
  - unfold match_at, Hint.startTag. cbn [seq fold_right].
    apply ok_seq, ok_bol; [exact Hbol|].
    apply ok_seq, ok_grp.
    apply (ok_star_cls _ _ _ _ _ _ indent
             ((js "{% hint style=`" ++ style ++ js "` %}") ++ post));
      [reflexivity | now apply forallb_space | reflexivity |].
    apply ok_seq.
    apply (ok_lit _ _ _ _ _ (js "{%")
             (js " hint style=`" ++ style ++ js "` %}" ++ post));
      [split_ok | reflexivity |].
    apply ok_seq.
    apply (ok_star_cls _ _ _ _ _ _ (js " ")
             (js "hint style=`" ++ style ++ js "` %}" ++ post));
      [split_ok | reflexivity | reflexivity |].
    apply ok_seq.
    apply (ok_lit _ _ _ _ _ (js "hint")
             (js " style=`" ++ style ++ js "` %}" ++ post));
      [split_ok | reflexivity |].
    apply ok_seq, ok_wordb; [reflexivity|].
    apply ok_seq.
    apply (ok_star_cls _ _ _ _ _ _ (js " style=`" ++ style ++ js "` ")
             (js "%}" ++ post)).
    + split_ok.
    + rewrite !forallb_app. unfold none_of. cbn [map].
      rewrite (lacks_none_of _ _ style); auto.
    + reflexivity.
    + apply ok_seq.
      apply (ok_lit _ _ _ _ _ (js "%}") post);
        [split_ok | reflexivity |].
      apply ok_eps. reflexivity.
  - cbn [idx moved set_cap].
    rewrite !length_app. cbn [length js map list_ascii_of_string]. lia.
  - reflexivity.
Qed.

(** The end marker at the start of a line. *)
Lemma endTag_match bef indent post i :
  at_bol fl_m bef = true ->
  forallb is_space indent = true ->
  exists e,
    match_at fl_m Hint.endTag bef (indent ++ js "{% endhint %}" ++ post) i = Some e /\
    idx e = length (indent ++ js "{% endhint %}") + i /\
    caps e = [(1, (indent ++ js "{% endhint %}" ++ post, js "{% endhint %}" ++ post))].
Proof.
  intros Hbol Hind. eexists. split; [|split].
  - unfold match_at, Hint.endTag. cbn [seq fold_right].
    apply ok_seq, ok_bol; [exact Hbol|].
    apply ok_seq, ok_grp.
    apply (ok_star_cls _ _ _ _ _ _ indent (js "{% endhint %}" ++ post));
      [reflexivity | now apply forallb_space | reflexivity |].
    apply ok_seq.
    apply (ok_lit _ _ _ _ _ (js "{%") (js " endhint %}" ++ post));
      [split_ok | reflexivity |].
    apply ok_seq.
    apply (ok_star_cls _ _ _ _ _ _ (js " ") (js "endhint %}" ++ post));
      [split_ok | reflexivity | reflexivity |].
    apply ok_seq.
    apply (ok_lit _ _ _ _ _ (js "endhint") (js " %}" ++ post));
      [split_ok | reflexivity |].
    apply ok_seq.
    apply (ok_star_cls _ _ _ _ _ _ (js " ") (js "%}" ++ post));
      [split_ok | reflexivity | reflexivity |].
    apply ok_seq.
    apply (ok_lit _ _ _ _ _ (js "%}") post);
      [split_ok | reflexivity |].
    apply ok_eps. reflexivity.
  - cbn [idx moved set_cap].
    rewrite !length_app. cbn [length js map list_ascii_of_string]. lia.
  - reflexivity.
Qed.


Lemma no_directive_tail c s : no_directive (c :: s) -> no_directive s.
Proof. apply includes_tail. Qed.

Lemma startTag_free bef aft i :
  no_directive aft -> match_at fl_m Hint.startTag bef aft i = None.
Proof.
  apply (match_at_needs fl_m "{%" [Bol; Grp 1 (star ws)] _ bef aft i).
  now left.
Qed.

Lemma endTag_free bef aft i :
  no_directive aft -> match_at fl_m Hint.endTag bef aft i = None.
Proof.
  apply (match_at_needs fl_m "{%" [Bol; Grp 1 (star ws)] _ bef aft i).
  now left.
Qed.

(** ** What the words of the hint patterns look like *)

Lemma Matches_rep_cls fl mn mx g neg items bef w rest :
  Matches fl (Rep mn mx g (Cls neg items)) bef w rest ->
  forallb (cls_match fl neg items) w = true.
Proof.
  remember (Rep mn mx g (Cls neg items)) as r eqn:Hr. intros H.
  revert mn mx Hr.
  induction H as [ | | | | | | |mn0 mx0 g0 r0 bef w1 w2 rest Hmx H1 _ H2 IH2| | | | | ];
    intros mn' mx' Hr; try discriminate; inversion Hr; subst; auto.
  inversion H1 as [ | |neg' items' c bef' rest' Hc| | | | | | | | | | ]; subst.
  cbn [app forallb]. rewrite Hc. cbn [andb].
  now apply (IH2 _ _ eq_refl).
Qed.

Lemma Matches_star_ws fl bef w rest :
  Matches fl (star ws) bef w rest -> forallb is_space w = true.
Proof.
  intros H. apply Matches_rep_cls in H. rewrite forallb_forall in *.
  intros c Hc. rewrite <- (cls_space fl). now apply H.
Qed.

Lemma Matches_grp_inv fl i r bef w rest :
  Matches fl (Grp i r) bef w rest -> Matches fl r bef w rest.
Proof. intros H. now inversion H. Qed.

Lemma Matches_bol_inv fl bef w rest :
  Matches fl Bol bef w rest -> w = [] /\ at_bol fl bef = true.
Proof. intros H. inversion H; subst. auto. Qed.

Lemma Matches_lit_exact fl op bef w rest :
  ignoreCase fl = false \/ caseless (list_ascii_of_string op) = true ->
  Matches fl (lit op) bef w rest -> w = list_ascii_of_string op.
Proof.
  intros Hc H. apply Matches_chars_inv in H. now apply (chars_eq_exact fl).
Qed.

Lemma trimStart_ws_app a b :
  forallb is_space a = true -> trimStart (a ++ b) = trimStart b.
Proof.
  induction a as [|c a IH]; intros H; [reflexivity|].
  cbn [forallb] in H. apply andb_prop in H as [Hc Ha].
  cbn [app trimStart]. rewrite Hc. auto.
Qed.

Lemma trimStart_head_space c s :
  is_space c = true -> trimStart (c :: s) = trimStart s.
Proof. cbn [trimStart]. now intros ->. Qed.

Lemma startTag_not_endhint bef sp post i :
  forallb is_space sp = true ->
  match_at fl_m Hint.startTag bef (sp ++ js "{% endhint %}" ++ post) i = None.
Proof.
  intros Hsp.
  destruct (match_at fl_m Hint.startTag bef _ i) as [e|] eqn:He; auto.
  exfalso.
  apply match_at_sound in He as (w & rest & Heq & Hm & _).
  unfold Hint.startTag in Hm. cbn [seq fold_right] in Hm.
  apply Matches_seq_inv in Hm as (w0 & v0 & -> & H0 & Hm).
  apply Matches_bol_inv in H0 as [-> _].
  apply Matches_seq_inv in Hm as (w1 & v1 & -> & H1 & Hm).
  apply Matches_grp_inv, Matches_star_ws in H1.
  apply Matches_seq_inv in Hm as (w2 & v2 & -> & H2 & Hm).
  apply Matches_lit_exact in H2; [|now left]. subst w2.
  apply Matches_seq_inv in Hm as (w3 & v3 & -> & H3 & Hm).
  apply Matches_star_ws in H3.
  apply Matches_seq_inv in Hm as (w4 & v4 & -> & H4 & Hm).
  apply Matches_lit_exact in H4; [|now left]. subst w4.
  apply (f_equal trimStart) in Heq.
  cbn [app] in Heq. rewrite <- !app_assoc in Heq.
  rewrite (trimStart_ws_app sp), (trimStart_ws_app w1) in Heq by assumption.
  rewrite !trimStart_id in Heq by exact eq_refl.
  inversion Heq as [Heq'].
  apply (f_equal trimStart) in Heq'.
  rewrite trimStart_head_space, (trimStart_ws_app w3) in Heq'
    by (assumption || reflexivity).
  rewrite !trimStart_id in Heq' by exact eq_refl.
  vm_compute in Heq'. discriminate.
Qed.

Lemma lacks_app_r x a b : lacks x (a ++ b) = true -> lacks x b = true.
Proof. unfold lacks. rewrite forallb_app. intros H. now apply andb_prop in H. Qed.


Lemma suffix_cases (a b p t : jsstring) :
  a ++ b = p ++ t ->
  (exists l, a = p ++ l /\ t = l ++ b) \/ (exists l, b = l ++ t).
Proof.
  intros H. apply app_eq_app in H as [l [[-> ->]|[-> ->]]]; eauto.
Qed.

Lemma no_directive_suffix a t : no_directive (a ++ t) -> no_directive t.
Proof.
  unfold no_directive. intros H.
  destruct (includes t (js "{%")) eqn:E; auto.
  now rewrite (includes_app_l a) in H.
Qed.

(** * The escaping, character by character *)

Lemma replaceAll_char x rep s :
  replaceAll [x] rep s = flat_map (fun c => if Ascii.eqb c x then rep else [c]) s.
Proof.
  unfold replaceAll. induction s as [|c s IH]; [reflexivity|].
  cbn [replaceAll_go startsWith flat_map length Nat.sub].
  rewrite andb_true_r, IH, (Ascii.eqb_sym x c).
  now destruct (Ascii.eqb c x).
Qed.

Lemma flat_map_flat_map (A B C : Type) (f : A -> list B) (g : B -> list C) s :
  flat_map g (flat_map f s) = flat_map (fun a => flat_map g (f a)) s.
Proof.
  induction s as [|a s IH]; [reflexivity|].
  cbn [flat_map]. now rewrite flat_map_app, IH.
Qed.

Lemma htmlEntityEscape_chars text :
  htmlEntityEscape text = flat_map escape_char text.
Proof.
  unfold htmlEntityEscape.
  change (js ">") with [">"%char]. change (js "<") with ["<"%char].
  change (js "`") with [DQ]. change (js "&") with ["&"%char].
  rewrite !replaceAll_char, !flat_map_flat_map.
  apply flat_map_ext. intros c.
  destruct c as [[] [] [] [] [] [] [] []]; reflexivity.
Qed.

Lemma htmlEscapeAttribute_chars value :
  htmlEscapeAttribute value = flat_map escape_char value.
Proof. apply htmlEntityEscape_chars. Qed.


(** * Texts that a transformer leaves alone *)


Lemma embed_settled text :
  includes text (js "{%") = false ->
  Embed.processContent text = Embed.Result text false 0 0.
Proof.
  intros H. unfold Embed.processContent.
  rewrite (replace_fn_free fl_mi Embed.blockRegex _ Embed.blockCallback
             no_directive no_directive_tail); auto.
  - rewrite (replace_fn_free fl_mi Embed.singleRegex _ Embed.singleCallback
               no_directive no_directive_tail); auto.
    intros bef aft i.
    apply (match_at_needs fl_mi "{%" [Bol; Grp 1 (star ws)] _ bef aft i).
    now right.
  - intros bef aft i.
    apply (match_at_needs fl_mi "{%" [Bol; Grp 1 (star ws)] _ bef aft i).
    now right.
Qed.

Lemma hint_settled text :
  includes text (js "{%") = false ->
  Hint.processContent text = Hint.Result text false 0 0.
Proof.
  intros H. unfold Hint.processContent.
  rewrite (replace_fn_free fl_m Hint.startTag _ Hint.startCallback
             no_directive no_directive_tail startTag_free); auto.
  rewrite (replace_fn_free fl_m Hint.endTag _ Hint.endCallback
             no_directive no_directive_tail endTag_free); auto.
Qed.

Lemma arcade_settled text :
  includes (toLowerCase text) (js "<iframe") = false ->
  Arcade.processContent text = Arcade.Result text false 0.
Proof.
  intros H. unfold Arcade.processContent.
  rewrite (replace_fn_free fl_mi Arcade.iframeRegex _ Arcade.callback
             (fun s => includes (toLowerCase s) (js "<iframe") = false)
             (lower_free_tail (js "<iframe"))); auto.
  intros bef aft i.
  apply (match_at_needs_lower fl_mi "<iframe" [Bol; Grp 1 (star ws)] _ bef aft i).
Qed.


(** * The iteration bound of the quantifiers is never reached *)

(** The matcher only moves forward: what follows in the pattern is called
    on states that are [ahead] of the one it started from. *)
Lemma ahead_refl s : ahead s s.
Proof. unfold ahead. lia. Qed.

Lemma ahead_trans s y z : ahead s y -> ahead y z -> ahead s z.
Proof. unfold ahead. lia. Qed.

Lemma ahead_advance s c rest : after s = c :: rest -> ahead s (advance c rest s).
Proof. unfold ahead. intros ->. simpl. lia. Qed.

Lemma ahead_clear gs s y : ahead (clear_caps gs s) y <-> ahead s y.
Proof. unfold ahead, clear_caps. destruct gs; simpl; tauto. Qed.

Lemma repeat_matcher_forward body gs g :
  forward body ->
  forall fuel mn mx, forward (repeat_matcher body gs g fuel mn mx).
Proof.
  intros Hbody fuel. induction fuel as [|fuel IH]; intros mn mx s k k' Hk;
    [reflexivity|].
  cbn [repeat_matcher].
  assert (Hd : body (clear_caps gs s)
                 (fun y => if (mn =? 0) && (idx y =? idx s) then None
                           else repeat_matcher body gs g fuel (pred mn)
                                  (option_map pred mx) y k)
             = body (clear_caps gs s)
                 (fun y => if (mn =? 0) && (idx y =? idx s) then None
                           else repeat_matcher body gs g fuel (pred mn)
                                  (option_map pred mx) y k')).
  { apply Hbody. intros y Hy. apply ahead_clear in Hy.
    destruct ((mn =? 0) && (idx y =? idx s)); [reflexivity|].
    apply IH. intros z Hz. apply Hk. eapply ahead_trans; eauto. }
  rewrite Hd, (Hk s (ahead_refl s)). reflexivity.
Qed.

Lemma rmatch_forward fl r : forward (rmatch fl r).
Proof.
  induction r as [|a|neg items|r1 IH1 r2 IH2|r1 IH1 r2 IH2|mn mx g r1 IH1
                  |i r1 IH1| | | |r1 IH1]; intros s k k' Hk.
  - apply Hk, ahead_refl.
  - cbn [rmatch]. destruct (after s) as [|c rest] eqn:Ha; [reflexivity|].
    destruct (char_eq fl a c); [|reflexivity].
    apply Hk. now apply ahead_advance.
  - cbn [rmatch]. destruct (after s) as [|c rest] eqn:Ha; [reflexivity|].
    destruct (cls_match fl neg items c); [|reflexivity].
    apply Hk. now apply ahead_advance.
  - cbn [rmatch]. apply IH1. intros y Hy. apply IH2. intros z Hz.
    apply Hk. eapply ahead_trans; eauto.
  - cbn [rmatch]. now rewrite (IH1 s k k' Hk), (IH2 s k k' Hk).
  - rewrite !rmatch_rep. now apply repeat_matcher_forward.
  - cbn [rmatch]. apply IH1. intros y Hy. apply Hk. exact Hy.
  - cbn [rmatch]. now rewrite (Hk s (ahead_refl s)).
  - cbn [rmatch]. now rewrite (Hk s (ahead_refl s)).
  - cbn [rmatch]. now rewrite (Hk s (ahead_refl s)).
  - cbn [rmatch]. destruct (rmatch fl r1 s (fun s1 => Some s1)); [|reflexivity].
    apply Hk. unfold ahead. simpl. lia.
Qed.

(** With [S (mn + length (after s))] iterations allowed, allowing more
    changes nothing: a failure of a quantifier is never due to the bound. *)
Theorem repeat_fuel_enough fl r gs g :
  forall fuel fuel' mn mx s k,
    mn + length (after s) < fuel -> mn + length (after s) < fuel' ->
    repeat_matcher (rmatch fl r) gs g fuel mn mx s k =
    repeat_matcher (rmatch fl r) gs g fuel' mn mx s k.
Proof.
  induction fuel as [|fuel IH]; intros fuel' mn mx s k H H'; [lia|].
  destruct fuel' as [|fuel']; [lia|].
  cbn [repeat_matcher].
  assert (Hd : rmatch fl r (clear_caps gs s)
                 (fun y => if (mn =? 0) && (idx y =? idx s) then None
                           else repeat_matcher (rmatch fl r) gs g fuel (pred mn)
                                  (option_map pred mx) y k)
             = rmatch fl r (clear_caps gs s)
                 (fun y => if (mn =? 0) && (idx y =? idx s) then None
                           else repeat_matcher (rmatch fl r) gs g fuel' (pred mn)
                                  (option_map pred mx) y k)).
  { apply rmatch_forward. intros y Hy. apply ahead_clear in Hy.
    destruct ((mn =? 0) && (idx y =? idx s)) eqn:E; [reflexivity|].
    unfold ahead in Hy.
    apply IH; destruct mn as [|mn]; cbn [pred]; try lia;
      cbn [Nat.eqb andb] in E; apply Nat.eqb_neq in E; lia. }
  rewrite Hd. reflexivity.
Qed.

(** * The patterns of the [exec] loops consume a character *)

Lemma Matches_cls_inv fl neg items bef w rest :
  Matches fl (Cls neg items) bef w rest ->
  exists c, w = [c] /\ cls_match fl neg items c = true.
Proof. intros H. inversion H; subst. eauto. Qed.

Lemma Matches_chr_inv fl a bef w rest :
  Matches fl (Chr a) bef w rest -> exists c, w = [c] /\ char_eq fl a c = true.
Proof. intros H. inversion H; subst. eauto. Qed.

Lemma Matches_plus_cls fl neg items bef w rest :
  Matches fl (plus (Cls neg items)) bef w rest ->
  w <> [] /\ forallb (cls_match fl neg items) w = true.
Proof.
  intros H. split; [|now apply Matches_rep_cls in H].
  unfold plus in H. inversion H as [ | | | | | |? ? ? ? ? ? Hstop|
                                    ? ? ? ? ? w1 w2 ? ? H1 H2| | | | | ]; subst.
  - destruct Hstop; discriminate.
  - apply Matches_cls_inv in H1 as (c & -> & _). discriminate.
Qed.

Theorem altAttrRegex_consumes bef aft i e :
  match_at fl_g Image.altAttrRegex bef aft i = Some e -> i < idx e.
Proof.
  intros H. apply match_at_sound in H as (w & rest & _ & Hm & -> & _).
  unfold Image.altAttrRegex in Hm. cbn [seq fold_right] in Hm.
  apply Matches_seq_inv in Hm as (w1 & w2 & -> & H1 & _).
  apply Matches_cls_inv in H1 as (c & -> & _). simpl. lia.
Qed.

Theorem attrRegex_consumes bef aft i e :
  match_at fl_g Embed.attrRegex bef aft i = Some e -> i < idx e.
Proof.
  intros H. apply match_at_sound in H as (w & rest & _ & Hm & -> & _).
  unfold Embed.attrRegex in Hm. cbn [seq fold_right] in Hm.
  apply Matches_seq_inv in Hm as (w1 & w2 & -> & H1 & _).
  apply Matches_grp_inv, Matches_plus_cls in H1 as [H1 _].
  destruct w1; [congruence|]. simpl. lia.
Qed.

(** * An image tag with one alt attribute *)

Lemma cls_any fl c : cls_match fl false [CSpace; CNonSpace] c = true.
Proof. unfold cls_match. simpl. now destruct (is_space c). Qed.

Lemma forallb_any fl w : forallb (cls_match fl false [CSpace; CNonSpace]) w = true.
Proof. apply forallb_forall. intros c _. apply cls_any. Qed.

Lemma ok_alt_l fl r1 r2 s k z :
  rmatch fl r1 s k = Some z -> rmatch fl (Alt r1 r2) s k = Some z.
Proof. cbn [rmatch]. now intros ->. Qed.

Lemma ok_opt_chr fl a s k z c rest :
  after s = c :: rest -> char_eq fl a c = true ->
  k (advance c rest s) = Some z ->
  rmatch fl (opt (Chr a)) s k = Some z.
Proof.
  intros Ha Hc Hk. unfold opt. rewrite rmatch_rep.
  cbn [repeat_matcher rmatch groups clear_caps Nat.eqb andb Nat.add
       option_map Nat.pred].
  rewrite Ha, Hc. cbn [length repeat_matcher].
  assert (E : (idx (advance c rest s) =? idx s) = false)
    by (apply Nat.eqb_neq; simpl; lia).
  now rewrite E, Hk.
Qed.

Lemma ok_none_seq fl r1 r2 s k :
  rmatch fl r1 s (fun s1 => rmatch fl r2 s1 k) = None ->
  rmatch fl (Seq r1 r2) s k = None.
Proof. auto. Qed.

Lemma fail_chr fl a s k c rest :
  after s = c :: rest -> char_eq fl a c = false ->
  rmatch fl (Chr a) s k = None.
Proof. cbn [rmatch]. now intros -> ->. Qed.


Lemma Matches_opt_chr fl a bef w rest :
  Matches fl (opt (Chr a)) bef w rest ->
  w = [] \/ exists c, w = [c] /\ char_eq fl a c = true.
Proof.
  unfold opt. intros H.
  inversion H as [ | | | | | |? ? ? ? ? ? Hstop|
                    ? ? ? ? ? w1 w2 ? ? H1 H2| | | | | ]; subst; auto.
  right. apply Matches_chr_inv in H1 as (c & -> & Hc).
  cbn [option_map Nat.pred] in H2.
  inversion H2 as [ | | | | | |? ? ? ? ? ? Hstop'|
                     ? ? ? ? ? ? ? ? Hne ? ?| | | | | ]; subst.
  - exists c. auto.
  - congruence.
Qed.

Lemma Matches_eol_inv fl bef w rest :
  Matches fl Eol bef w rest -> w = [] /\ at_eol fl rest = true.
Proof. intros H. inversion H; subst. auto. Qed.

Lemma Matches_eps_inv fl bef w rest : Matches fl Eps bef w rest -> w = [].
Proof. intros H. now inversion H. Qed.

Lemma char_eq_exact fl a c :
  ignoreCase fl = false \/ caseless [a] = true ->
  char_eq fl a c = true -> c = a.
Proof.
  intros H Hc.
  assert (Hl : chars_eq fl [a] [c] = true) by (simpl; now rewrite Hc).
  apply chars_eq_exact in Hl; auto. now inversion Hl.
Qed.

Lemma at_eol_single fl rest :
  multiline fl = false -> at_eol fl rest = true -> rest = [].
Proof. intros Hm. destruct rest; auto. simpl. now rewrite Hm. Qed.

Lemma tagEnd_sound s k z :
  rmatch fl_i tagEnd s k = Some z ->
  exists o sw, after s = o ++ sw ++ [">"%char] /\
               (o = [] \/ o = ["/"%char]) /\ forallb is_space sw = true.
Proof.
  intros H. apply rmatch_sound in H as (w & rest & Ha & Hm & _).
  unfold tagEnd in Hm.
  apply Matches_seq_inv in Hm as (o & w1 & -> & Ho & Hm).
  apply Matches_seq_inv in Hm as (sw & w2 & -> & Hs & Hm).
  apply Matches_seq_inv in Hm as (g & w3 & -> & Hg & Hm).
  apply Matches_seq_inv in Hm as (e & w4 & -> & He & Hm).
  apply Matches_eps_inv in Hm. subst w4.
  apply Matches_eol_inv in He as [-> He].
  apply at_eol_single in He; [|reflexivity]. cbn [app] in He. subst rest.
  apply Matches_star_ws in Hs.
  apply Matches_chr_inv in Hg as (c & -> & Hc).
  apply char_eq_exact in Hc; [|now right]. subst c.
  exists o, sw. rewrite Ha, !app_nil_r. split; [reflexivity|]. split; auto.
  apply Matches_opt_chr in Ho as [->|(c & -> & Hc)]; auto.
  apply char_eq_exact in Hc; [|now right]. subst c. auto.
Qed.

Lemma tail_shape o sw x c :
  o = [] \/ o = ["/"%char] -> forallb is_space sw = true ->
  o ++ sw = x ++ [c] -> is_space c = true \/ (c = "/"%char /\ x = []).
Proof.
  intros Ho Hs H. destruct sw as [|d sw' _] using rev_ind.
  - rewrite app_nil_r in H. destruct Ho as [->| ->].
    + now destruct x.
    + right. change ["/"%char] with ([] ++ ["/"%char]) in H.
      apply app_inj_tail in H as [<- <-]. auto.
  - left. rewrite app_assoc in H. apply app_inj_tail in H as [_ <-].
    rewrite forallb_app in Hs. apply andb_prop in Hs as [_ Hs].
    simpl in Hs. now rewrite andb_true_r in Hs.
Qed.

Lemma suffix_last (w1 w2 x : jsstring) c :
  w2 <> [] -> w1 ++ w2 = x ++ [c] -> exists w2', w2 = w2' ++ [c].
Proof.
  intros Hne H. destruct (exists_last Hne) as (w2' & d & ->).
  rewrite app_assoc in H. apply app_inj_tail in H as [_ ->]. eauto.
Qed.

Lemma ok_opt_skip fl a s k z :
  match after s with [] => true | c :: _ => negb (char_eq fl a c) end = true ->
  k s = Some z ->
  rmatch fl (opt (Chr a)) s k = Some z.
Proof.
  intros Ha Hk. unfold opt. rewrite rmatch_rep.
  cbn [repeat_matcher rmatch groups clear_caps Nat.eqb andb Nat.add
       option_map Nat.pred].
  destruct (after s) as [|c rest]; [exact Hk|].
  apply negb_true_iff in Ha. now rewrite Ha.
Qed.

Lemma exec_from_hit fl r bef aft i e :
  match_at fl r bef aft i = Some e ->
  exec_from fl r bef aft i = Some (mk_match i aft e).
Proof. intros H. destruct aft; cbn [exec_from]; now rewrite H. Qed.

(** The whole-tag pattern on a tag closed by [>]: the attribute string
    runs up to the bracket when it does not end in white space or a
    slash. *)
Lemma wholeTag_plain attrs x c :
  attrs = x ++ [c] -> is_space c = false -> c <> "/"%char ->
  word_next (attrs ++ js ">") = false ->
  Image.attrStringOriginal (js "<img" ++ attrs ++ js ">") = attrs.
Proof.
  intros Hattrs Hc1 Hc2 Hw.
  assert (Hm : exists e,
    match_at fl_i Image.wholeTagRegex [] (js "<img" ++ attrs ++ js ">") 0 = Some e /\
    caps e = [(1, (attrs ++ js ">", js ">"))]).
  { eexists. split.
    - unfold match_at, Image.wholeTagRegex. cbn [seq fold_right].
      apply ok_seq, ok_bol; [reflexivity|].
      apply ok_seq.
      apply (ok_lit _ _ _ _ _ (js "<img") (attrs ++ js ">"));
        [reflexivity | reflexivity |].
      apply ok_seq, ok_wordb.
      { cbn [after before moved]. unfold at_word_boundary. now rewrite Hw. }
      apply ok_seq, ok_grp.
      apply (ok_lazy_cls _ _ _ _ _ _ attrs (js ">"));
        [reflexivity | apply forallb_any | |].
      + intros w1 w2 Hsplit Hne.
        match goal with |- ?lhs = None => destruct lhs eqn:E; auto end.
        exfalso.
        apply (tagEnd_sound _ _ _) in E as (o & sw & Ha & Ho & Hs).
        cbn [after set_cap moved] in Ha.
        rewrite Hattrs in Hsplit. symmetry in Hsplit.
        apply suffix_last in Hsplit as (w2' & ->); auto.
        change (js ">") with [">"%char] in Ha.
        rewrite !app_assoc in Ha.
        apply app_inj_tail in Ha as [Ha _]. symmetry in Ha.
        apply tail_shape in Ha as [Ha|[Ha _]]; auto; congruence.
      + apply ok_seq, ok_opt_skip; [reflexivity|].
        apply ok_seq.
        apply (ok_star_cls _ _ _ _ _ _ [] (js ">"));
          [reflexivity | reflexivity | reflexivity |].
        apply ok_seq.
        apply (ok_chr _ _ _ _ _ ">"%char []); [reflexivity | reflexivity |].
        apply ok_seq, ok_eol; [reflexivity|].
        apply ok_eps. reflexivity.
    - reflexivity. }
  destruct Hm as (e & Hm & Hcaps).
  unfold Image.attrStringOriginal, str_match.
  rewrite exec_from_hit with (e := e) by exact Hm.
  unfold group_or_empty, mk_match. rewrite Hcaps.
  now rewrite (group_found 1 _ _ attrs).
Qed.

(** The whole-tag pattern on a tag closed by [/>]. *)
Lemma wholeTag_closed attrs :
  word_next (attrs ++ js "/>") = false ->
  Image.attrStringOriginal (js "<img" ++ attrs ++ js "/>") = attrs.
Proof.
  intros Hw.
  assert (Hm : exists e,
    match_at fl_i Image.wholeTagRegex [] (js "<img" ++ attrs ++ js "/>") 0 = Some e /\
    caps e = [(1, (attrs ++ js "/>", js "/>"))]).
  { eexists. split.
    - unfold match_at, Image.wholeTagRegex. cbn [seq fold_right].
      apply ok_seq, ok_bol; [reflexivity|].
      apply ok_seq.
      apply (ok_lit _ _ _ _ _ (js "<img") (attrs ++ js "/>"));
        [reflexivity | reflexivity |].
      apply ok_seq, ok_wordb.
      { cbn [after before moved]. unfold at_word_boundary. now rewrite Hw. }
      apply ok_seq, ok_grp.
      apply (ok_lazy_cls _ _ _ _ _ _ attrs (js "/>"));
        [reflexivity | apply forallb_any | |].
      + intros w1 w2 Hsplit Hne.
        match goal with |- ?lhs = None => destruct lhs eqn:E; auto end.
        exfalso.
        apply (tagEnd_sound _ _ _) in E as (o & sw & Ha & Ho & Hs).
        cbn [after set_cap moved] in Ha.
        change (js "/>") with (["/"%char] ++ [">"%char]) in Ha.
        rewrite !app_assoc in Ha.
        apply app_inj_tail in Ha as [Ha _]. symmetry in Ha.
        apply tail_shape in Ha; auto.
        destruct Ha as [Ha|[_ Ha]]; [vm_compute in Ha; discriminate|].
        apply Hne. exact Ha.
      + apply ok_seq.
        apply (ok_opt_chr _ _ _ _ _ "/"%char (js ">"));
          [reflexivity | reflexivity |].
        apply ok_seq.
        apply (ok_star_cls _ _ _ _ _ _ [] (js ">"));
          [reflexivity | reflexivity | reflexivity |].
        apply ok_seq.
        apply (ok_chr _ _ _ _ _ ">"%char []); [reflexivity | reflexivity |].
        apply ok_seq, ok_eol; [reflexivity|].
        apply ok_eps. reflexivity.
    - reflexivity. }
  destruct Hm as (e & Hm & Hcaps).
  unfold Image.attrStringOriginal, str_match.
  rewrite exec_from_hit with (e := e) by exact Hm.
  unfold group_or_empty, mk_match. rewrite Hcaps.
  now rewrite (group_found 1 _ _ attrs).
Qed.

(** The alt pattern at an alt attribute in double quotes. *)
Lemma altAttr_match bef v rest i :
  lacks DQ v = true ->
  exists e,
    match_at fl_g Image.altAttrRegex bef (js " alt=`" ++ v ++ DQ :: rest) i = Some e /\
    idx e = length (js " alt=`" ++ v ++ [DQ]) + i /\
    caps e = [(1, (DQ :: v ++ DQ :: rest, rest))].
Proof.
  intros Hv. eexists. split; [|split].
  - unfold match_at, Image.altAttrRegex. cbn [seq fold_right].
    apply ok_seq.
    apply (ok_cls _ _ _ _ _ _ " "%char (js "alt=`" ++ v ++ DQ :: rest));
      [reflexivity | reflexivity |].
    apply ok_seq.
    apply (ok_lit _ _ _ _ _ (js "alt") (js "=`" ++ v ++ DQ :: rest));
      [reflexivity | reflexivity |].
    apply ok_seq.
    apply (ok_star_cls _ _ _ _ _ _ [] (js "=`" ++ v ++ DQ :: rest));
      [reflexivity | reflexivity | reflexivity |].
    apply ok_seq.
    apply (ok_chr _ _ _ _ _ "="%char (DQ :: v ++ DQ :: rest));
      [reflexivity | reflexivity |].
    apply ok_seq.
    apply (ok_star_cls _ _ _ _ _ _ [] (DQ :: v ++ DQ :: rest));
      [reflexivity | reflexivity | reflexivity |].
    apply ok_seq, ok_grp, ok_alt_l.
    apply ok_seq.
    apply (ok_chr _ _ _ _ _ DQ (v ++ DQ :: rest)); [reflexivity | reflexivity |].
    apply ok_seq.
    apply (ok_lazy_cls _ _ _ _ _ _ v (DQ :: rest));
      [reflexivity | apply forallb_any | |].
    + intros w1 w2 -> Hne. destruct w2 as [|c w2]; [congruence|].
      apply ok_none_seq.
      apply (fail_chr _ _ _ _ c (w2 ++ DQ :: rest)); [reflexivity|].
      unfold lacks in Hv. rewrite forallb_app in Hv.
      apply andb_prop in Hv as [_ Hv]. cbn [forallb] in Hv.
      apply andb_prop in Hv as [Hv _]. now apply negb_true_iff in Hv.
    + apply ok_seq.
      apply (ok_chr _ _ _ _ _ DQ rest); [reflexivity | reflexivity |].
      apply ok_eps, ok_eps. reflexivity.
  - cbn [idx moved set_cap advance].
    rewrite !length_app. cbn [length js map list_ascii_of_string]. lia.
  - reflexivity.
Qed.

Section ExecHit.
Variable fl : flags.
Variable r : regex.

Lemma exec_all_skip w : forall bef rest i,
  exec_all fl r bef (w ++ rest) i (length w) =
  exec_all fl r (rev w ++ bef) rest (length w + i) 0.
Proof.
  induction w as [|c w IH]; intros bef rest i; [reflexivity|].
  cbn [length app exec_all]. rewrite IH. cbn [rev].
  rewrite <- app_assoc. cbn [app]. now rewrite Nat.add_succ_r.
Qed.

Lemma exec_all_hit bef aft i e w rest :
  match_at fl r bef aft i = Some e ->
  aft = w ++ rest -> w <> [] -> idx e = length w + i ->
  exec_all fl r bef aft i 0 =
  Match i w (caps e) :: exec_all fl r (rev w ++ bef) rest (length w + i) 0.
Proof.
  intros Hm -> Hw Hi. destruct w as [|c w]; [congruence|].
  cbn [app] in Hm. cbn [app exec_all]. rewrite Hm.
  unfold mk_match. rewrite Hi.
  replace (length (c :: w) + i - i) with (S (length w)) by (cbn [length]; lia).
  assert (Hf : firstn (S (length w)) (c :: w ++ rest) = c :: w).
  { cbn [firstn]. f_equal.
    rewrite firstn_app, firstn_all, Nat.sub_diag. cbn [firstn].
    now rewrite app_nil_r. }
  rewrite Hf. f_equal. cbn [Nat.pred].
  rewrite exec_all_skip. cbn [rev length].
  rewrite <- app_assoc. cbn [app]. now rewrite Nat.add_succ_r.
Qed.

Variable free : jsstring -> Prop.
Hypothesis free_tail : forall c s, free (c :: s) -> free s.
Hypothesis free_no_match :
  forall bef aft i, free aft -> match_at fl r bef aft i = None.

Lemma exec_all_free aft : forall bef i,
  free aft -> exec_all fl r bef aft i 0 = [].
Proof.
  induction aft as [|c aft IH]; intros bef i Hf; cbn [exec_all];
    rewrite free_no_match by assumption; auto.
  apply IH. eauto.
Qed.
End ExecHit.


Lemma no_alt_tail c s : no_alt (c :: s) -> no_alt s.
Proof. apply includes_tail. Qed.

Lemma altAttr_free bef aft i :
  no_alt aft -> match_at fl_g Image.altAttrRegex bef aft i = None.
Proof.
  apply (match_at_needs fl_g "alt" [ws] _ bef aft i). now left.
Qed.

Lemma removelast_snoc (A : Type) (l : list A) x : removelast (l ++ [x]) = l.
Proof. rewrite removelast_app by discriminate. simpl. apply app_nil_r. Qed.

Lemma alt_values_one v rest :
  lacks DQ v = true -> no_alt rest ->
  ImageSpec.alt_values (js " alt=`" ++ v ++ DQ :: rest) = [trim v].
Proof.
  intros Hv Hrest. unfold ImageSpec.alt_values, matches_of.
  destruct (altAttr_match [] v rest 0 Hv) as (e & Hm & Hi & Hc).
  rewrite (exec_all_hit fl_g Image.altAttrRegex [] _ 0 e
             (js " alt=`" ++ v ++ [DQ]) rest Hm); [| | discriminate | exact Hi].
  - rewrite (exec_all_free fl_g Image.altAttrRegex no_alt no_alt_tail altAttr_free)
      by exact Hrest.
    cbn [map]. unfold group_or_empty. rewrite Hc.
    rewrite (group_found 1 _ _ (DQ :: v ++ [DQ])).
    + unfold ImageSpec.between_quotes. cbn [tl]. now rewrite removelast_snoc.
    + cbn [app]. now rewrite <- app_assoc.
  - cbn [app]. now rewrite <- !app_assoc.
Qed.

Lemma strip_alt_one v rest :
  lacks DQ v = true -> no_alt rest ->
  replace_str fl_g Image.altAttrRegex [] (js " alt=`" ++ v ++ DQ :: rest) = rest.
Proof.
  intros Hv Hrest. unfold replace_str, replace_fn.
  destruct (altAttr_match [] v rest 0 Hv) as (e & Hm & Hi & Hc).
  rewrite (replace_go_hit fl_g Image.altAttrRegex _ _ [] _ 0 tt e
             (js " alt=`" ++ v ++ [DQ]) rest Hm); [| | discriminate | exact Hi].
  - rewrite (replace_go_free fl_g Image.altAttrRegex _ _ no_alt no_alt_tail
               altAttr_free) by exact Hrest.
    reflexivity.
  - cbn [app]. now rewrite <- !app_assoc.
Qed.

Lemma chosen_alt_single v : ImageSpec.chosen_alt [trim v] [] = trim v.
Proof.
  unfold ImageSpec.chosen_alt. cbn [find].
  destruct (trim v) eqn:E; reflexivity.
Qed.

(** An image tag whose only attribute is an alt in double quotes gets the
    trimmed alt, escaped; the same holds for a tag in the form that the
    normalizer emits. *)
Lemma normalize_plain v :
  lacks DQ v = true ->
  Image.normalizeImgTag (js "<img alt=`" ++ v ++ js "`>") [] =
  js "<img alt=`" ++ htmlEntityEscape (trim v) ++ js "` />".
Proof.
  intros Hv. rewrite normalizeImgTag_rule.
  assert (Ha : Image.attrStringOriginal (js "<img alt=`" ++ v ++ js "`>")
               = js " alt=`" ++ v ++ [DQ]).
  { transitivity (Image.attrStringOriginal
                    (js "<img" ++ (js " alt=`" ++ v ++ [DQ]) ++ js ">")).
    - f_equal. cbn [app]. now rewrite <- !app_assoc.
    - apply (wholeTag_plain _ (js " alt=`" ++ v) DQ);
        try reflexivity; discriminate. }
  rewrite Ha, (alt_values_one v []), chosen_alt_single by (auto; reflexivity).
  unfold Image.cleanAttrs. rewrite (strip_alt_one v []) by (auto; reflexivity).
  assert (Hc : trim (replace_str fl_g Image.spacesRegex (js " ")
                       (replace_str fl_g Image.straySlashRegex [] [])) = [])
    by (vm_compute; reflexivity).
  rewrite Hc. cbn [Image.attrsPart app]. now rewrite <- !app_assoc.
Qed.

Lemma normalize_closed v :
  lacks DQ v = true ->
  Image.normalizeImgTag (js "<img alt=`" ++ v ++ js "` />") [] =
  js "<img alt=`" ++ htmlEntityEscape (trim v) ++ js "` />".
Proof.
  intros Hv. rewrite normalizeImgTag_rule.
  assert (Ha : Image.attrStringOriginal (js "<img alt=`" ++ v ++ js "` />")
               = js " alt=`" ++ v ++ DQ :: js " ").
  { transitivity (Image.attrStringOriginal
                    (js "<img" ++ (js " alt=`" ++ v ++ DQ :: js " ") ++ js "/>")).
    - f_equal. cbn [app]. now rewrite <- !app_assoc.
    - now apply wholeTag_closed. }
  rewrite Ha, (alt_values_one v (js " ")), chosen_alt_single by (auto; reflexivity).
  unfold Image.cleanAttrs. rewrite (strip_alt_one v (js " ")) by (auto; reflexivity).
  assert (Hc : trim (replace_str fl_g Image.spacesRegex (js " ")
                       (replace_str fl_g Image.straySlashRegex [] (js " "))) = [])
    by (vm_compute; reflexivity).
  rewrite Hc. cbn [Image.attrsPart app]. now rewrite <- !app_assoc.
Qed.

(** * Escaped values *)

Lemma lacks_app x a b : lacks x (a ++ b) = lacks x a && lacks x b.
Proof. apply forallb_app. Qed.

Lemma lacks_flat_map x (f : ascii -> jsstring) s :
  (forall c, lacks x (f c) = true) -> lacks x (flat_map f s) = true.
Proof.
  intros H. induction s as [|c s IH]; [reflexivity|].
  cbn [flat_map]. now rewrite lacks_app, H, IH.
Qed.

Lemma escape_char_lacks c :
  lacks DQ (escape_char c) = true /\
  lacks "<"%char (escape_char c) = true /\
  lacks ">"%char (escape_char c) = true.
Proof. destruct c as [[] [] [] [] [] [] [] []]; repeat split. Qed.

Lemma escaped_lacks s :
  lacks DQ (htmlEntityEscape s) = true /\
  lacks "<"%char (htmlEntityEscape s) = true /\
  lacks ">"%char (htmlEntityEscape s) = true.
Proof.
  rewrite htmlEntityEscape_chars.
  repeat split; apply lacks_flat_map; intros c; apply escape_char_lacks.
Qed.

Lemma escape_char_clean c :
  is_space c = false ->
  exists d t, escape_char c = d :: t /\ is_space d = false /\
  exists d' t', rev (escape_char c) = d' :: t' /\ is_space d' = false.
Proof.
  destruct c as [[] [] [] [] [] [] [] []]; intros H; try discriminate H;
    (eexists; eexists; split; [reflexivity|]; split; [reflexivity|];
     eexists; eexists; split; reflexivity).
Qed.

Lemma rev_flat_map (A B : Type) (f : A -> list B) s :
  rev (flat_map f s) = flat_map (fun a => rev (f a)) (rev s).
Proof.
  induction s as [|a s IH]; [reflexivity|].
  cbn [flat_map rev]. rewrite rev_app_distr, IH, flat_map_app.
  cbn [flat_map]. now rewrite app_nil_r.
Qed.

(** Escaping a trimmed text gives a trimmed text. *)
Lemma escaped_trimmed s :
  trim (htmlEntityEscape (trim s)) = htmlEntityEscape (trim s).
Proof.
  destruct (trim_clean s) as [H1 H2].
  rewrite htmlEntityEscape_chars. apply trim_id.
  - destruct (trim s) as [|c t]; [exact I|]. cbn [flat_map].
    destruct (escape_char_clean c H1) as (d & t0 & -> & Hd & _). exact Hd.
  - rewrite rev_flat_map. destruct (rev (trim s)) as [|c t]; [exact I|].
    cbn [flat_map].
    destruct (escape_char_clean c H2) as (_ & _ & _ & _ & d & t0 & -> & Hd).
    exact Hd.
Qed.


(** * A text that is one image tag *)

Lemma lacks_includes x p s : lacks x s = true -> includes s (x :: p) = false.
Proof.
  intros H. rewrite <- (app_nil_r s). now rewrite includes_skip.
Qed.

Lemma lacks_char_eq fl a c :
  caseless [a] = true -> negb (Ascii.eqb a c) = true -> char_eq fl a c = false.
Proof.
  intros Ha Hc. destruct (char_eq fl a c) eqn:E; auto.
  apply char_eq_exact in E; [|now right]. subst c.
  now rewrite Ascii.eqb_refl in Hc.
Qed.


Lemma figure_free bef aft i :
  no_figure aft -> match_at fl_g Image.figureRegex bef aft i = None.
Proof. apply (match_at_needs fl_g "<figure" [] _ bef aft i). now left. Qed.

Lemma img_free bef aft i :
  no_img aft -> match_at fl_i Image.imgRegex bef aft i = None.
Proof. apply (match_at_needs_lower fl_i "<img" [] _ bef aft i). Qed.

Lemma no_figure_tail c s : no_figure (c :: s) -> no_figure s.
Proof. apply includes_tail. Qed.

Lemma no_img_tail c s : no_img (c :: s) -> no_img s.
Proof. apply lower_free_tail. Qed.

(** The image pattern reads a tag up to its first closing bracket. *)
Lemma imgRegex_match bef body post i :
  lacks ">"%char body = true ->
  word_next (body ++ js ">") = false ->
  exists e,
    match_at fl_i Image.imgRegex bef (js "<img" ++ body ++ js ">" ++ post) i = Some e /\
    idx e = length (js "<img" ++ body ++ js ">") + i.
Proof.
  intros Hb Hw. eexists. split.
  - unfold match_at, Image.imgRegex. cbn [seq fold_right].
    apply ok_seq.
    apply (ok_lit _ _ _ _ _ (js "<img") (body ++ js ">" ++ post));
      [reflexivity | reflexivity |].
    apply ok_seq, ok_wordb.
    { cbn [after before moved]. unfold at_word_boundary.
      replace (word_next (body ++ js ">" ++ post)) with false; [reflexivity|].
      destruct body; [reflexivity | exact (eq_sym Hw)]. }
    apply ok_seq.
    apply (ok_lazy_cls _ _ _ _ _ _ body (js ">" ++ post));
      [reflexivity | apply forallb_any | |].
    + intros w1 w2 -> Hne. destruct w2 as [|c w2]; [congruence|].
      apply ok_none_seq.
      apply (fail_chr _ _ _ _ c (w2 ++ js ">" ++ post)); [reflexivity|].
      apply lacks_char_eq; [reflexivity|].
      rewrite lacks_app in Hb. apply andb_prop in Hb as [_ Hb].
      cbn [lacks forallb] in Hb. now apply andb_prop in Hb.
    + apply ok_seq.
      apply (ok_chr _ _ _ _ _ ">"%char post); [reflexivity | reflexivity |].
      apply ok_eps. reflexivity.
  - cbn [idx moved set_cap advance].
    rewrite !length_app. cbn [length js map list_ascii_of_string]. lia.
Qed.

Lemma str_eqb_neq a b : a <> b -> str_eqb a b = false.
Proof.
  intros H. destruct (str_eqb a b) eqn:E; auto.
  now apply str_eqb_eq in E.
Qed.

(** The run on a text that is a single image tag without brackets inside:
    the tag is normalized, and counted when that changes it. *)
Lemma run_single_tag body :
  lacks "<"%char body = true -> lacks ">"%char body = true ->
  word_next (body ++ js ">") = false ->
  let tag := js "<img" ++ body ++ js ">" in
  run ImageNormalization tag =
  (Image.normalizeImgTag tag [],
   negb (str_eqb (Image.normalizeImgTag tag []) tag)).
Proof.
  intros Hlt Hgt Hw tag. subst tag. cbn [run].
  unfold Image.processFileContent.
  rewrite (replace_fn_free fl_g Image.figureRegex _ Image.figureCallback
             no_figure no_figure_tail figure_free).
  2:{ unfold no_figure. change (js "<img" ++ body ++ js ">")
        with ("<"%char :: js "img" ++ body ++ js ">").
      rewrite includes_unfold.
      replace (startsWith _ (js "<figure")) with false by reflexivity.
      apply lacks_includes. rewrite !lacks_app.
      change (js_char "<"%char) with "<"%char. rewrite Hlt. reflexivity. }
  unfold replace_fn.
  destruct (imgRegex_match [] body [] 0 Hgt Hw) as (e & Hm & Hi).
  rewrite (replace_go_hit fl_i Image.imgRegex _ Image.imgCallback [] _ 0 _ e
             (js "<img" ++ body ++ js ">") [] Hm);
    [| now rewrite <- !app_assoc | discriminate | exact Hi].
  destruct (Image.imgCallback _ _) as [rep st1] eqn:Hcb.
  rewrite (replace_go_free fl_i Image.imgRegex _ Image.imgCallback
             no_img no_img_tail img_free) by reflexivity.
  unfold Image.imgCallback in Hcb. cbn [m_full] in Hcb.
  destruct (str_eqb (Image.normalizeImgTag (js "<img" ++ body ++ js ">") [])
                    (js "<img" ++ body ++ js ">"));
    cbn [negb] in *; inversion Hcb; subst; cbn [Image.c_changed];
    now rewrite app_nil_r.
Qed.

Lemma lacks_trim x s : lacks x s = true -> lacks x (trim s) = true.
Proof.
  intros H. destruct (trimStart_split s) as (sp & Hs & _).
  destruct (trimEnd_split (trimStart s)) as (sp' & Hs' & _).
  rewrite Hs, Hs', !lacks_app in H. fold (trim s) in H.
  apply andb_prop in H as [_ H]. now apply andb_prop in H as [H _].
Qed.

Lemma escape_plain s :
  lacks "&"%char s = true -> lacks DQ s = true ->
  lacks "<"%char s = true -> lacks ">"%char s = true ->
  htmlEntityEscape s = s.
Proof.
  rewrite htmlEntityEscape_chars.
  induction s as [|c s IH]; intros H1 H2 H3 H4; [reflexivity|].
  cbn [lacks forallb] in H1, H2, H3, H4.
  apply andb_prop in H1 as [A1 B1]. apply andb_prop in H2 as [A2 B2].
  apply andb_prop in H3 as [A3 B3]. apply andb_prop in H4 as [A4 B4].
  cbn [flat_map]. rewrite (IH B1 B2 B3 B4).
  unfold escape_char.
  rewrite (Ascii.eqb_sym c "&"%char), (Ascii.eqb_sym c DQ),
          (Ascii.eqb_sym c "<"%char), (Ascii.eqb_sym c ">"%char).
  apply negb_true_iff in A1, A2, A3, A4. now rewrite A1, A2, A3, A4.
Qed.

Lemma tag_forms v :
  js "<img alt=`" ++ v ++ js "`>" = js "<img" ++ (js " alt=`" ++ v ++ [DQ]) ++ js ">" /\
  js "<img alt=`" ++ v ++ js "` />"
    = js "<img" ++ (js " alt=`" ++ v ++ js "` /") ++ js ">".
Proof. split; cbn [app]; now rewrite <- !app_assoc. Qed.

Lemma plain_not_normal x v :
  js "<img alt=`" ++ x ++ js "` />" <> js "<img alt=`" ++ v ++ js "`>".
Proof.
  intros H. apply app_inv_head in H.
  change (js "` />") with ([DQ; " "%char] ++ ["/"%char] ++ [">"%char]) in H.
  change (js "`>") with ([DQ] ++ [">"%char]) in H.
  rewrite !app_assoc in H. apply app_inj_tail in H as [H _].
  apply app_inj_tail in H as [_ H]. discriminate.
Qed.

(** The runs on an image tag whose only attribute is an alt without
    quotes and brackets in it: the first run gives the tag in normal form
    with the alt escaped; the second run escapes that alt again, and
    changes nothing when the alt has no [&]. *)
Theorem image_alt_tag_runs v :
  lacks DQ v = true -> lacks "<"%char v = true -> lacks ">"%char v = true ->
  let input := js "<img alt=`" ++ v ++ js "`>" in
  run ImageNormalization input
    = (js "<img alt=`" ++ htmlEntityEscape (trim v) ++ js "` />", true) /\
  fst (run ImageNormalization (fst (run ImageNormalization input)))
    = js "<img alt=`" ++ htmlEntityEscape (htmlEntityEscape (trim v)) ++ js "` />" /\
  (lacks "&"%char v = true -> second_run_idle ImageNormalization input).
Proof.
  intros Hq Hlt Hgt input. subst input.
  assert (Hfirst : run ImageNormalization (js "<img alt=`" ++ v ++ js "`>")
            = (js "<img alt=`" ++ htmlEntityEscape (trim v) ++ js "` />", true)).
  { destruct (tag_forms v) as [-> _].
    rewrite run_single_tag.
    - destruct (tag_forms v) as [<- _]. rewrite normalize_plain by exact Hq.
      now rewrite (str_eqb_neq _ _ (plain_not_normal _ v)).
    - rewrite !lacks_app, Hlt. reflexivity.
    - rewrite !lacks_app, Hgt. reflexivity.
    - reflexivity. }
  assert (Hsecond : forall w,
            lacks DQ w = true -> lacks "<"%char w = true -> lacks ">"%char w = true ->
            run ImageNormalization (js "<img alt=`" ++ w ++ js "` />")
            = (js "<img alt=`" ++ htmlEntityEscape (trim w) ++ js "` />",
               negb (str_eqb (js "<img alt=`" ++ htmlEntityEscape (trim w) ++ js "` />")
                             (js "<img alt=`" ++ w ++ js "` />")))).
  { intros w Wq Wlt Wgt. destruct (tag_forms w) as [_ ->].
    rewrite run_single_tag.
    - destruct (tag_forms w) as [_ <-]. now rewrite normalize_closed by exact Wq.
    - rewrite !lacks_app, Wlt. reflexivity.
    - rewrite !lacks_app, Wgt. reflexivity.
    - reflexivity. }
  destruct (escaped_lacks (trim v)) as (E1 & E2 & E3).
  split; [exact Hfirst|]. split.
  - rewrite Hfirst. cbn [fst]. rewrite Hsecond by assumption.
    cbn [fst]. now rewrite escaped_trimmed.
  - intros Hamp. unfold second_run_idle. rewrite Hfirst. cbn [fst].
    rewrite Hsecond by assumption.
    rewrite escaped_trimmed.
    assert (Hplain : htmlEntityEscape (trim v) = trim v)
      by (apply escape_plain; now apply lacks_trim).
    rewrite !Hplain. now rewrite str_eqb_refl.
Qed.

(** * An embed directive on a line of its own *)

Lemma repeat_step_one fl neg items g fuel s k :
  repeat_matcher (rmatch fl (Cls neg items)) [] g (S fuel) 1 None s k =
  match after s with
  | [] => None
  | c :: rest =>
    if cls_match fl neg items c
    then repeat_matcher (rmatch fl (Cls neg items)) [] g fuel 0 None
           (advance c rest s) k
    else None
  end.
Proof.
  cbn [repeat_matcher rmatch clear_caps Nat.eqb andb Nat.pred option_map].
  destruct (after s) as [|c rest]; reflexivity.
Qed.

Lemma ok_plus_cls fl neg items s k z c w rest :
  after s = (c :: w) ++ rest ->
  forallb (cls_match fl neg items) (c :: w) = true ->
  stops fl neg items rest = true ->
  k (moved s (c :: w) rest) = Some z ->
  rmatch fl (plus (Cls neg items)) s k = Some z.
Proof.
  intros Ha Hw Hr Hk. unfold plus. rewrite rmatch_rep. cbn [groups].
  cbn [forallb] in Hw. apply andb_prop in Hw as [Hc Hw].
  rewrite repeat_step_one. cbn [app] in Ha. rewrite Ha, Hc.
  apply (repeat_greedy_cls fl neg items k z w _ (advance c (w ++ rest) s) rest);
    auto.
  - cbn [length]. rewrite length_app. lia.
  - now rewrite moved_cons.
Qed.

Lemma group_skip i j a cps m_i m_w :
  j <> i ->
  group i (Match m_i m_w ((j, a) :: cps)) = group i (Match m_i m_w cps).
Proof.
  intros H. unfold group. cbn [m_caps find fst].
  apply Nat.eqb_neq in H. now rewrite H.
Qed.

(** The attribute pattern at a [url] attribute in double quotes. *)
Lemma attrRegex_match bef u rest i :
  lacks DQ u = true ->
  exists e,
    match_at fl_g Embed.attrRegex bef (js "url=`" ++ u ++ DQ :: rest) i = Some e /\
    idx e = length (js "url=`" ++ u ++ [DQ]) + i /\
    caps e = [(2, (DQ :: u ++ DQ :: rest, rest));
              (3, (u ++ DQ :: rest, DQ :: rest));
              (1, (js "url=`" ++ u ++ DQ :: rest, js "=`" ++ u ++ DQ :: rest))].
Proof.
  intros Hu. eexists. split; [|split].
  - unfold match_at, Embed.attrRegex. cbn [seq fold_right].
    apply ok_seq, ok_grp.
    apply (ok_plus_cls _ _ _ _ _ _ "u"%char (js "rl") (js "=`" ++ u ++ DQ :: rest));
      [reflexivity | reflexivity | reflexivity |].
    apply ok_seq.
    apply (ok_star_cls _ _ _ _ _ _ [] (js "=`" ++ u ++ DQ :: rest));
      [reflexivity | reflexivity | reflexivity |].
    apply ok_seq.
    apply (ok_chr _ _ _ _ _ "="%char (DQ :: u ++ DQ :: rest));
      [reflexivity | reflexivity |].
    apply ok_seq.
    apply (ok_star_cls _ _ _ _ _ _ [] (DQ :: u ++ DQ :: rest));
      [reflexivity | reflexivity | reflexivity |].
    apply ok_seq, ok_grp, ok_alt_l.
    apply ok_seq.
    apply (ok_chr _ _ _ _ _ DQ (u ++ DQ :: rest)); [reflexivity | reflexivity |].
    apply ok_seq, ok_grp.
    apply (ok_lazy_cls _ _ _ _ _ _ u (DQ :: rest));
      [reflexivity | apply forallb_any | |].
    + intros w1 w2 -> Hne. destruct w2 as [|c w2]; [congruence|].
      apply ok_none_seq.
      apply (fail_chr _ _ _ _ c (w2 ++ DQ :: rest)); [reflexivity|].
      unfold lacks in Hu. rewrite forallb_app in Hu.
      apply andb_prop in Hu as [_ Hu]. cbn [forallb] in Hu.
      apply andb_prop in Hu as [Hu _]. now apply negb_true_iff in Hu.
    + apply ok_seq.
      apply (ok_chr _ _ _ _ _ DQ rest); [reflexivity | reflexivity |].
      apply ok_eps, ok_eps. reflexivity.
  - cbn [idx moved set_cap advance].
    rewrite !length_app. cbn [length js map list_ascii_of_string]. lia.
  - reflexivity.
Qed.

Lemma parse_url_only u :
  lacks DQ u = true ->
  let a := Embed.parseEmbedAttrs (js " url=`" ++ u ++ js "` ") in
  Embed.attr_url a = trim u /\ forall other, Embed.caption_or a other = other.
Proof.
  intros Hu a. subst a. unfold Embed.parseEmbedAttrs, matches_of.
  change (js " url=`" ++ u ++ js "` ")
    with (" "%char :: js "url=`" ++ u ++ DQ :: js " ").
  cbn [exec_all].
  replace (match_at fl_g Embed.attrRegex [] (" "%char :: js "url=`" ++ u ++ DQ :: js " ") 0)
    with (@None mstate) by reflexivity.
  destruct (attrRegex_match [" "%char] u (js " ") 1 Hu) as (e & Hm & Hi & Hc).
  rewrite (exec_all_hit fl_g Embed.attrRegex _ _ 1 e
             (js "url=`" ++ u ++ [DQ]) (js " ") Hm);
    [| cbn [app]; now rewrite <- !app_assoc | discriminate | exact Hi].
  replace (exec_all fl_g Embed.attrRegex _ (js " ") _ 0) with (@nil match_result)
    by reflexivity.
  cbn [fold_left]. unfold group_or_empty. rewrite Hc.
  rewrite (group_skip 1 2), (group_skip 1 3) by discriminate.
  rewrite (group_found 1 _ _ (js "url")) by reflexivity.
  rewrite (group_skip 3 2) by discriminate.
  rewrite (group_found 3 _ _ u) by reflexivity.
  split.
  - reflexivity.
  - intros other. reflexivity.
Qed.


(** ** The block pattern needs three percent signs *)





Lemma lacks_second x y s : lacks y s = true -> includes s [x; y] = false.
Proof.
  induction s as [|c s IH]; intros H; [reflexivity|].
  cbn [lacks forallb] in H. apply andb_prop in H as [Hc Hs].
  rewrite includes_unfold, (IH Hs), orb_false_r. cbn [startsWith].
  destruct s as [|d s]; [now rewrite andb_false_r|].
  cbn [lacks forallb] in Hs. apply andb_prop in Hs as [Hd _].
  apply negb_true_iff in Hd. now rewrite Hd, andb_false_r.
Qed.

Lemma escape_char_percent c :
  negb (Ascii.eqb "%"%char c) = true -> lacks "%"%char (escape_char c) = true.
Proof.
  destruct c as [[] [] [] [] [] [] [] []]; intros H; try reflexivity;
    discriminate H.
Qed.

Lemma escaped_lacks_percent s :
  lacks "%"%char s = true -> lacks "%"%char (htmlEscapeAttribute s) = true.
Proof.
  rewrite htmlEscapeAttribute_chars.
  induction s as [|c s IH]; intros H; [reflexivity|].
  cbn [lacks forallb] in H. apply andb_prop in H as [Hc Hs].
  cbn [flat_map]. now rewrite lacks_app, escape_char_percent, IH.
Qed.




(** * A pass over a text made of markers *)

(** Where the pattern matches nowhere in [w], [replace] copies [w]. *)
Lemma replace_go_pass fl r St (fn : match_result -> St -> jsstring * St) w :
  forall bef rest i st,
    (forall p c t i', w = p ++ c :: t ->
       match_at fl r (rev p ++ bef) (c :: t ++ rest) i' = None) ->
    replace_go fl r fn bef (w ++ rest) i 0 st =
    (let (out, st2) := replace_go fl r fn (rev w ++ bef) rest (length w + i) 0 st in
     (w ++ out, st2)).
Proof.
  induction w as [|c w IH]; intros bef rest i st H.
  - cbn [app rev length Nat.add]. now destruct (replace_go _ _ _ _ _ _ _ _).
  - pose proof (H [] c w i eq_refl) as H0. cbn [rev app] in H0.
    cbn [app replace_go]. rewrite H0.
    rewrite IH.
    + cbn [rev length]. rewrite <- app_assoc. cbn [app].
      rewrite Nat.add_succ_r. cbn [Nat.add].
      now destruct (replace_go _ _ _ _ _ _ _ _).
    + intros p d t i' ->. specialize (H (c :: p) d t i' eq_refl).
      cbn [rev] in H. rewrite <- app_assoc in H. exact H.
Qed.

Lemma at_line_start_nonspace p :
  forall b, forallb is_space p = false ->
            at_line_start b p = at_line_start false p.
Proof.
  induction p as [|c p IH]; intros b H; [discriminate H|].
  cbn [forallb] in H. cbn [at_line_start].
  destruct (is_line_terminator c); [reflexivity|].
  destruct (is_space c); cbn [andb] in *.
  - rewrite andb_true_r, (IH b H). symmetry. now apply IH.
  - now rewrite andb_false_r.
Qed.

(** A text that holds more than white space and no directive does not
    lead, through white space, to the opening of a directive. *)
Lemma no_open p x rest sp y :
  forallb is_space p = false -> no_directive p -> starts_plain x = true ->
  forallb is_space sp = true ->
  p ++ x ++ rest = sp ++ js "{%" ++ y -> False.
Proof.
  intros Hp Hn Hx Hsp Heq.
  destruct (trimStart_split p) as (sp0 & Hsplit & Hsp0).
  pose proof (trimStart_clean p) as Hc.
  destruct (trimStart p) as [|d q] eqn:Hq.
  - rewrite app_nil_r in Hsplit. subst sp0. congruence.
  - apply (f_equal trimStart) in Heq.
    rewrite Hsplit, <- app_assoc in Heq.
    rewrite (trimStart_ws_app sp0), (trimStart_ws_app sp) in Heq by assumption.
    rewrite !trimStart_id in Heq by exact eq_refl || exact Hc.
    cbn [app js list_ascii_of_string map js_char] in Heq.
    inversion Heq as [[Hd Hrest]]. subst d.
    destruct q as [|d q].
    + destruct x as [|c x]; [discriminate Hx|].
      cbn [app] in Hrest. inversion Hrest; subst. discriminate Hx.
    + cbn [app] in Hrest. injection Hrest as Hd _.
      unfold no_directive in Hn. rewrite Hsplit, Hd in Hn.
      pose proof (includes_middle sp0 (js "{%") q) as Hi.
      exact (eq_true_false_abs _ Hi Hn).
Qed.

Section Pass.
Variable R : regex.
Variable St : Type.
Variable cb : match_result -> St -> jsstring * St.
Variable note : jsstring.
Variable bump : St -> St.
Hypothesis R_opens : opens R.
Hypothesis cb_spec :
  forall m st, cb m st = (group_or_empty 1 m ++ note, bump st).

Lemma pass_free bef aft i :
  no_directive aft -> match_at fl_m R bef aft i = None.
Proof.
  intros Hn. destruct (match_at fl_m R bef aft i) as [e|] eqn:He; auto.
  destruct (R_opens _ _ _ _ He) as (_ & sp & x & _ & ->).
  unfold no_directive in Hn. now rewrite includes_middle in Hn.
Qed.

Lemma pass_none bef p x rest i :
  at_bol fl_m bef && forallb is_space p = false ->
  no_directive p -> starts_plain x = true ->
  match_at fl_m R bef (p ++ x ++ rest) i = None.
Proof.
  intros Hb Hn Hx.
  destruct (match_at fl_m R bef _ i) as [e|] eqn:He; auto.
  destruct (R_opens _ _ _ _ He) as (Hbol & sp & y & Hsp & Heq).
  rewrite Hbol in Hb. cbn [andb] in Hb.
  destruct (no_open p x rest sp y Hb Hn Hx Hsp Heq).
Qed.

Lemma pass_hit x :
  hits R x -> starts_plain x = true ->
  forall pre bef rest i st,
    no_directive pre -> at_line_start (at_bol fl_m bef) pre = true ->
    replace_go fl_m R cb bef (pre ++ x ++ rest) i 0 st =
    (let (out, st2) :=
       replace_go fl_m R cb (rev (pre ++ x) ++ bef) rest
         (length (pre ++ x) + i) 0 (bump st) in
     (pre ++ note ++ out, st2)).
Proof.
  intros Hhit Hx.
  assert (Hgo : forall indent bef rest i st,
             at_bol fl_m bef = true -> forallb is_space indent = true ->
             replace_go fl_m R cb bef (indent ++ x ++ rest) i 0 st =
             (let (out, st2) :=
                replace_go fl_m R cb (rev (indent ++ x) ++ bef) rest
                  (length (indent ++ x) + i) 0 (bump st) in
              (indent ++ note ++ out, st2))).
  { intros indent bef rest i st Hb Hi.
    destruct (Hhit bef indent rest i Hb Hi) as (e & Hm & Hidx & Hc).
    rewrite (replace_go_hit fl_m R St cb bef _ i st e (indent ++ x) rest Hm
               (app_assoc _ _ _)); [| | exact Hidx].
    - rewrite cb_spec. unfold group_or_empty.
      rewrite Hc, (group_found 1 _ _ indent) by reflexivity.
      destruct (replace_go _ _ _ _ _ _ _ _) as [out st2].
      now rewrite <- app_assoc.
    - destruct x; [discriminate Hx|]. now destruct indent. }
  induction pre as [|c pre IH]; intros bef rest i st Hn Hl.
  - cbn [at_line_start] in Hl. apply (Hgo [] bef rest i st Hl eq_refl).
  - destruct (at_bol fl_m bef && forallb is_space (c :: pre)) eqn:E.
    + apply andb_prop in E as [Hb Hi]. now apply Hgo.
    + pose proof (pass_none bef (c :: pre) x rest i E Hn Hx) as Hnone.
      cbn [app] in Hnone. cbn [app replace_go]. rewrite Hnone.
      rewrite IH.
      * cbn [rev length]. rewrite <- !app_assoc. cbn [app].
        rewrite Nat.add_succ_r. cbn [Nat.add].
        now destruct (replace_go _ _ _ _ _ _ _ _).
      * now apply no_directive_tail in Hn.
      * cbn [at_line_start] in Hl.
        change (at_bol fl_m (c :: bef)) with (is_line_terminator c).
        destruct (is_line_terminator c); [exact Hl|].
        destruct (at_bol fl_m bef && is_space c) eqn:E2; [|exact Hl].
        cbn [forallb] in E. rewrite andb_assoc, E2 in E. cbn [andb] in E.
        now rewrite <- (at_line_start_nonspace pre true E).
Qed.

Lemma pass_miss x :
  misses R x -> starts_plain x = true -> one_line x = true ->
  forall pre bef rest i st,
    no_directive pre ->
    replace_go fl_m R cb bef (pre ++ x ++ rest) i 0 st =
    (let (out, st2) :=
       replace_go fl_m R cb (rev (pre ++ x) ++ bef) rest
         (length (pre ++ x) + i) 0 st in
     (pre ++ x ++ out, st2)).
Proof.
  intros Hmiss Hx Hone pre bef rest i st Hn.
  rewrite app_assoc, replace_go_pass.
  - destruct (replace_go _ _ _ _ _ _ _ _) as [out st2].
    now rewrite <- app_assoc.
  - intros p c t i' Heq.
    change (c :: t ++ rest) with ((c :: t) ++ rest).
    apply app_eq_app in Heq as [l [[-> Ht]|[-> Hxl]]].
    + rewrite Ht, <- app_assoc.
      destruct (forallb is_space l) eqn:El.
      * now apply Hmiss.
      * apply pass_none; auto.
        -- now rewrite El, andb_false_r.
        -- now apply no_directive_suffix in Hn.
    + destruct (rev l) as [|d l'] eqn:Hl.
      * apply (f_equal (@rev ascii)) in Hl. rewrite rev_involutive in Hl.
        cbn [rev] in Hl. subst l. cbn [app] in Hxl. rewrite <- Hxl.
        now apply (Hmiss _ []).
      * destruct (match_at fl_m R _ _ i') as [e|] eqn:He; auto.
        destruct (R_opens _ _ _ _ He) as (Hbol & _).
        rewrite rev_app_distr, Hl in Hbol. cbn [app at_bol] in Hbol.
        apply (f_equal (@rev ascii)) in Hl. rewrite rev_involutive in Hl.
        cbn [rev] in Hl. subst l.
        unfold one_line in Hone. rewrite Hxl, <- app_assoc in Hone.
        rewrite !forallb_app in Hone.
        apply andb_prop in Hone as [_ Hone]. cbn [app forallb] in Hone.
        apply andb_prop in Hone as [Hone _]. rewrite andb_true_r in Hone.
        apply negb_true_iff in Hone. rewrite Hone in Hbol.
        now rewrite andb_false_r in Hbol.
Qed.
End Pass.

Lemma at_bol_after x pre bef :
  ends_in_line x = true -> at_bol fl_m (rev (pre ++ x) ++ bef) = false.
Proof.
  unfold ends_in_line. rewrite rev_app_distr.
  destruct (rev x) as [|c t]; [discriminate|]. intros H.
  apply negb_true_iff in H. cbn [app at_bol]. now rewrite H, andb_false_r.
Qed.

Lemma count_markers_cons sel pre m d :
  count_markers sel ((pre, m) :: d) =
  (if sel m then 1 else 0) + count_markers sel d.
Proof. unfold count_markers. cbn [map snd filter]. now destruct (sel m). Qed.

(** A pass over a text made of markers rewrites the markers it hits and
    copies the rest. *)
Lemma pass_doc R St (cb : match_result -> St -> jsstring * St) note bump
      (src tgt : marker -> jsstring) (sel : marker -> bool) :
  opens R ->
  (forall m st, cb m st = (group_or_empty 1 m ++ note, bump st)) ->
  (forall m, marker_ok m = true ->
     starts_plain (src m) = true /\ ends_in_line (src m) = true /\
     if sel m then hits R (src m) /\ tgt m = note
     else misses R (src m) /\ one_line (src m) = true /\ tgt m = src m) ->
  forall d post bef i st,
    doc_ok (at_bol fl_m bef) d = true -> no_directive post ->
    replace_go fl_m R cb bef (doc_render src d post) i 0 st =
    (doc_render tgt d post, Nat.iter (count_markers sel d) bump st).
Proof.
  intros Ho Hcb Hitem d post.
  induction d as [|[pre m] d IH]; intros bef i st Hd Hp.
  - cbn [doc_render]. unfold count_markers. cbn [map filter length Nat.iter].
    apply (replace_go_free fl_m R St cb no_directive no_directive_tail).
    + intros bef0 aft i0. now apply pass_free.
    + exact Hp.
  - cbn [doc_ok] in Hd.
    apply andb_prop in Hd as [Hd Hd'].
    apply andb_prop in Hd as [Hd Hm].
    apply andb_prop in Hd as [Hn Hl]. apply negb_true_iff in Hn.
    destruct (Hitem m Hm) as (Hx & He & Hsel).
    cbn [doc_render]. rewrite count_markers_cons.
    destruct (sel m).
    + destruct Hsel as [Hhit ->].
      rewrite (pass_hit R St cb note bump Ho Hcb (src m) Hhit Hx) by assumption.
      rewrite IH; [| now rewrite at_bol_after | exact Hp].
      cbn [Nat.add]. now rewrite Nat.iter_succ_r.
    + destruct Hsel as (Hmiss & Hone & ->).
      rewrite (pass_miss R St cb Ho (src m) Hmiss Hx Hone) by assumption.
      rewrite IH; [| now rewrite at_bol_after | exact Hp].
      reflexivity.
Qed.

(** ** The two patterns of the hint transformer *)

Lemma opens_marker r :
  opens (Seq Bol (Seq (Grp 1 (star ws)) (Seq (lit "{%") r))).
Proof.
  intros bef t i e He.
  apply match_at_sound in He as (w & rest & Heq & Hm & _).
  apply Matches_seq_inv in Hm as (w0 & v0 & -> & H0 & Hm).
  apply Matches_bol_inv in H0 as [-> Hbol].
  apply Matches_seq_inv in Hm as (w1 & v1 & -> & H1 & Hm).
  apply Matches_grp_inv, Matches_star_ws in H1.
  apply Matches_seq_inv in Hm as (w2 & v2 & -> & H2 & Hm).
  apply Matches_lit_exact in H2; [|now left]. subst w2.
  split; [exact Hbol|]. exists w1, (v2 ++ rest). split; [exact H1|].
  rewrite Heq. cbn [app]. now rewrite <- !app_assoc.
Qed.

Lemma startTag_opens : opens Hint.startTag.
Proof. apply opens_marker. Qed.

Lemma endTag_opens : opens Hint.endTag.
Proof. apply opens_marker. Qed.

Lemma endTag_misses_note : misses Hint.endTag (js "<Note>").
Proof.
  intros bef indent rest i Hi.
  destruct (match_at fl_m Hint.endTag bef _ i) as [e|] eqn:He; auto.
  destruct (endTag_opens _ _ _ _ He) as (_ & sp & y & Hsp & Heq).
  apply (f_equal trimStart) in Heq.
  rewrite (trimStart_ws_app indent), (trimStart_ws_app sp) in Heq by assumption.
  rewrite !trimStart_id in Heq by exact eq_refl.
  discriminate Heq.
Qed.

Lemma start_pass_items m :
  marker_ok m = true ->
  starts_plain (marker_text m) = true /\ ends_in_line (marker_text m) = true /\
  if is_start m then hits Hint.startTag (marker_text m) /\ half_text m = js "<Note>"
  else misses Hint.startTag (marker_text m) /\ one_line (marker_text m) = true /\
       half_text m = marker_text m.
Proof.
  destruct m as [style|]; intros Hm; cbn [marker_ok is_start] in *.
  - split; [reflexivity|]. split.
    + unfold ends_in_line, marker_text. now rewrite !rev_app_distr.
    + split; [|reflexivity].
      intros bef indent rest i Hb Hi.
      apply (startTag_match bef indent style rest i Hb Hi Hm).
  - split; [reflexivity|]. split; [reflexivity|].
    split; [|split; reflexivity].
    intros bef indent rest i Hi. now apply startTag_not_endhint.
Qed.

Lemma end_pass_items m :
  marker_ok m = true ->
  starts_plain (half_text m) = true /\ ends_in_line (half_text m) = true /\
  if is_end m then hits Hint.endTag (half_text m) /\ note_text m = js "</Note>"
  else misses Hint.endTag (half_text m) /\ one_line (half_text m) = true /\
       note_text m = half_text m.
Proof.
  destruct m as [style|]; intros _; cbn [is_end is_start negb].
  - split; [reflexivity|]. split; [reflexivity|].
    split; [|split; reflexivity]. apply endTag_misses_note.
  - split; [reflexivity|]. split; [reflexivity|].
    split; [|reflexivity].
    intros bef indent rest i Hb Hi. now apply endTag_match.
Qed.




(** The two passes of the hint transformer over a text made of markers. *)
Lemma hint_doc_passes (d : hint_doc) (post : jsstring) :
  doc_ok true d = true -> no_directive post ->
  (forall st,
     replace_fn fl_m Hint.startTag Hint.startCallback (doc_source d post) st =
     (doc_render half_text d post,
      Nat.iter (count_markers is_start d)
        (fun st => Hint.Counters true (S (Hint.c_start st)) (Hint.c_end st)) st)) /\
  (forall st,
     replace_fn fl_m Hint.endTag Hint.endCallback (doc_render half_text d post) st =
     (doc_target d post,
      Nat.iter (count_markers is_end d)
        (fun st => Hint.Counters true (Hint.c_start st) (S (Hint.c_end st))) st)).
Proof.
  intros Hd Hp. unfold replace_fn, doc_source, doc_target. split; intros st.
  - apply (pass_doc Hint.startTag _ Hint.startCallback (js "<Note>")
             (fun st => Hint.Counters true (S (Hint.c_start st)) (Hint.c_end st))
             marker_text half_text is_start startTag_opens
             (fun m st => eq_refl) start_pass_items d post [] 0 st Hd Hp).
  - apply (pass_doc Hint.endTag _ Hint.endCallback (js "</Note>")
             (fun st => Hint.Counters true (Hint.c_start st) (S (Hint.c_end st)))
             half_text note_text is_end endTag_opens
             (fun m st => eq_refl) end_pass_items d post [] 0 st Hd Hp).
Qed.

Lemma no_directive_app a b :
  no_directive a -> no_directive b -> starts_plain b = true ->
  no_directive (a ++ b).
Proof.
  unfold no_directive. intros Ha Hb Hs.
  induction a as [|c a IH]; [exact Hb|].
  cbn [app]. rewrite includes_unfold. rewrite includes_unfold in Ha.
  apply orb_false_elim in Ha as [Hst Ha].
  rewrite (IH Ha), orb_false_r.
  destruct a as [|d a]; [|exact Hst].
  cbn [app]. destruct b as [|d b]; [exact Hst|].
  cbn [starts_plain] in Hs. apply negb_true_iff in Hs.
  cbn [startsWith js list_ascii_of_string map js_char].
  change (js_char "%") with "%"%char.
  now rewrite (Ascii.eqb_sym _ d), Hs, andb_false_r.
Qed.

(** The text that the hint transformer makes of such a document holds no
    directive any more. *)
Lemma doc_target_settled d post :
  forall first, doc_ok first d = true -> no_directive post ->
                no_directive (doc_target d post).
Proof.
  unfold doc_target.
  induction d as [|[pre m] d IH]; intros first Hd Hp; [exact Hp|].
  cbn [doc_ok] in Hd.
  apply andb_prop in Hd as [Hd Hd'].
  apply andb_prop in Hd as [Hd _].
  apply andb_prop in Hd as [Hn _]. apply negb_true_iff in Hn.
  cbn [doc_render]. apply no_directive_app; [exact Hn | | now destruct m].
  unfold no_directive. change (js "{%") with ("{"%char :: ["%"%char]).
  rewrite includes_skip by now destruct m.
  now apply (IH false).
Qed.

Lemma hint_doc_second_run d post :
  doc_ok true d = true -> includes post (js "{%") = false ->
  second_run_idle HintToNote (doc_source d post).
Proof.
  intros Hd Hp. unfold second_run_idle. cbn [run].
  assert (Ht : Hint.text (Hint.processContent (doc_source d post))
               = doc_target d post).
  { destruct (hint_doc_passes d post Hd Hp) as [H1 H2].
    unfold Hint.processContent. now rewrite H1, H2. }
  cbn [fst]. rewrite Ht, hint_settled; [reflexivity|].
  now apply (doc_target_settled d post true).
Qed.

(** * The claims *)

(** ** Running a transformer twice (C1) *)




(** It fails for the other two as well: the title of an iframe can hold
    an embed that a later end marker closes, and the text taken as the URL
    of an arcade iframe can hold another arcade iframe. *)
Lemma second_run_embed_arcade :
  ~ second_run_idle EmbedReplacement
      (js "{% embed url=`a` %}x~{% embed url='b' %}z~{% endembed %}~{% endembed %}") /\
  ~ second_run_idle ArcadeUnwrapping
      (js "<iframe src='https://app.arcade.software/x>~<iframe src='https://app.arcade.software/y'></iframe>~`></iframe>").
Proof.
  unfold second_run_idle. split; vm_compute; discriminate.
Qed.

(** ** Escaping (C2) *)




(** ** The embed example (C3) *)

(** C3. On the single-line input of the specification the block pattern
    does not match, the end marker not being at the start of a line: the
    text comes back as it is, with no block counted. *)
Theorem C3_single_line_block_unchanged :
  Embed.processContent
    (js "{% embed url=`https://x.com/a` %}Caption text{% endembed %}")
  = Embed.Result
      (js "{% embed url=`https://x.com/a` %}Caption text{% endembed %}")
      false 0 0.
Proof. vm_compute. reflexivity. Qed.

(** With the end marker on a line of its own the block is replaced. *)
Lemma embed_block_on_lines :
  Embed.processContent
    (js "{% embed url=`https://x.com/a` %}Caption text~{% endembed %}")
  = Embed.Result
      (Embed.iframe_head ++ js "https://x.com/a" ++ Embed.iframe_mid
       ++ js "Caption text" ++ Embed.iframe_tail)
      true 1 0.
Proof. vm_compute. reflexivity. Qed.

(** ** The duplicate-alt example (C4) *)

(** C4, amended. The fallback is appended to the alt that is there: the
    tag gets the single attribute [alt="Foo Foo Bar"]. *)
Theorem C4_fallback_appended :
  Image.normalizeImgTag (js "<img src=`a.png` alt=`Foo`>") (js "Foo Bar")
  = js "<img src=`a.png` alt=`Foo Foo Bar` />" /\
  alt_attributes
    (Image.normalizeImgTag (js "<img src=`a.png` alt=`Foo`>") (js "Foo Bar"))
  = [js "Foo Foo Bar"].
Proof. vm_compute. split; reflexivity. Qed.

Lemma C4_counterexample :
  alt_attributes
    (Image.normalizeImgTag (js "<img src=`a.png` alt=`Foo`>") (js "Foo Bar"))
  <> [js "Foo Bar"].
Proof. vm_compute. discriminate. Qed.

(** ** The rule of the chosen alt (C5) *)


(** ** Embeds without a url (C6) *)

(** C6. An embed directive without a (non-empty) url attribute is given
    back as it is and leaves the counters alone; the counters count the
    directives that carry a url; and a text in which no embed directive
    carries a url comes back unchanged, with [changed = false] and both
    counters at 0. *)
Theorem C6_embed_without_url (input : jsstring) :
  (forall m st, has_url m = false ->
     Embed.blockCallback m st = (m_full m, st) /\
     Embed.singleCallback m st = (m_full m, st)) /\
  (let afterBlocks :=
     fst (replace_fn fl_mi Embed.blockRegex Embed.blockCallback input
            (Embed.Counters false 0 0)) in
   Embed.blocks (Embed.processContent input)
     = length (filter has_url (matches_of fl_mi Embed.blockRegex input)) /\
   Embed.singles (Embed.processContent input)
     = length (filter has_url (matches_of fl_mi Embed.singleRegex afterBlocks))) /\
  (forallb no_url (matches_of fl_mi Embed.blockRegex input) = true ->
   forallb no_url (matches_of fl_mi Embed.singleRegex input) = true ->
   Embed.processContent input = Embed.Result input false 0 0).
Proof.
  split; [|split].
  - intros m st H. split; [now apply block_no_url | now apply single_no_url].
  - unfold Embed.processContent.
    pose proof (replace_go_state fl_mi Embed.blockRegex _ Embed.blockCallback
                  input [] 0 0 (Embed.Counters false 0 0)) as H1.
    fold (replace_fn fl_mi Embed.blockRegex Embed.blockCallback input
            (Embed.Counters false 0 0)) in H1.
    destruct (replace_fn fl_mi Embed.blockRegex _ input _) as [t1 st1].
    pose proof (replace_go_state fl_mi Embed.singleRegex _ Embed.singleCallback
                  t1 [] 0 0 st1) as H2.
    fold (replace_fn fl_mi Embed.singleRegex Embed.singleCallback t1 st1) in H2.
    destruct (replace_fn fl_mi Embed.singleRegex _ t1 st1) as [t2 st2].
    simpl in *. subst st1 st2.
    fold (matches_of fl_mi Embed.blockRegex input).
    fold (matches_of fl_mi Embed.singleRegex t1).
    destruct (block_counts (matches_of fl_mi Embed.blockRegex input)
                (Embed.Counters false 0 0)) as [B1 B2].
    destruct (single_counts (matches_of fl_mi Embed.singleRegex t1)
                (fold_left (fun st m => snd (Embed.blockCallback m st))
                   (matches_of fl_mi Embed.blockRegex input)
                   (Embed.Counters false 0 0))) as [S1 S2].
    simpl in *. rewrite S2, S1, B1, B2. auto.
  - intros Hb Hs. rewrite forallb_forall in Hb, Hs.
    unfold Embed.processContent.
    rewrite replace_fn_identity.
    + rewrite replace_fn_identity; [reflexivity|].
      intros m Hm st1. apply single_no_url.
      specialize (Hs m Hm). unfold no_url in Hs. now destruct (has_url m).
    + intros m Hm st1. apply block_no_url.
      specialize (Hb m Hm). unfold no_url in Hb. now destruct (has_url m).
Qed.

Lemma C6_witness :
  Embed.processContent (js "{% embed caption=`x` %}~body~{% endembed %}")
  = Embed.Result (js "{% embed caption=`x` %}~body~{% endembed %}") false 0 0.
Proof.
  apply (C6_embed_without_url (js "{% embed caption=`x` %}~body~{% endembed %}"));
    vm_compute; reflexivity.
Defined.

(** The example of the specification, on one line, is not matched at all. *)
Lemma embed_missing_url_example :
  Embed.processContent (js "{% embed caption=`x` %}body{% endembed %}")
  = Embed.Result (js "{% embed caption=`x` %}body{% endembed %}") false 0 0.
Proof. vm_compute. reflexivity. Qed.

(** ** Hint markers (C7) *)




(** ** The arcade iframes (C8) *)

(** The example of the specification. *)
Lemma arcade_example :
  Arcade.processContent
    (js "<iframe src=`https://app.arcade.software/share/abc` ...></iframe>")
  = Arcade.Result (js "https://app.arcade.software/share/abc") true 1.
Proof. vm_compute. reflexivity. Qed.

(** C8. With the src in single quotes and another single quote further
    on in the tag, the text that replaces the iframe is not the URL: it
    runs on to the last single quote. *)
Theorem C8_single_quoted_src :
  Arcade.processContent
    (js "<iframe src='https://app.arcade.software/share/abc' width='100'></iframe>")
  = Arcade.Result (js "https://app.arcade.software/share/abc' width='100") true 1.
Proof. vm_compute. reflexivity. Qed.

(** ** The file collector (C9) *)

(** C9. Whatever the directory tree and the extensions, every collected
    path lies below the root through names none of which starts with a
    dot, the name of the file included; and an entry whose name starts
    with a dot is passed over as it is: nothing is collected from it and,
    being a directory, it is not read (not even when it cannot be read). *)
Theorem C9_dot_entries_skipped (exts : list jsstring) (dirPath : path)
  (entries : list entry) (out : list path) :
  collectFiles exts dirPath entries [] = Some out ->
  (forall p, In p out ->
     exists names, p = names ++ dirPath /\ names <> [] /\
                   forallb visible names = true) /\
  (forall e collected, startsWith (entry_name e) dot = true ->
     visit exts dirPath e collected = Some collected).
Proof.
  intros H. split.
  - apply collectFiles_adds in H.
    + destruct H as (added & -> & Hadd). simpl. intros p Hp.
      rewrite Forall_forall in Hadd. apply (Hadd p Hp).
    + apply Forall_forall. intros e _. apply visit_adds.
  - intros e collected Hd. destruct e; cbn -[startsWith] in *; now rewrite Hd.
Qed.


Lemma C9_witness :
  (exists names, [js "a.mdx"; js "docs"] = names ++ [] /\ names <> [] /\
                 forallb visible names = true) /\
  visit [js ".md"; js ".mdx"] []
    (Dir (js ".git") [File (js "config.md"); DirErr (js "objects")]) []
  = Some [].
Proof.
  destruct (C9_dot_entries_skipped [js ".md"; js ".mdx"] [] sample_tree
              [[js "README.MD"]; [js "a.mdx"; js "docs"]]) as [Hpaths Hskip].
  - vm_compute. reflexivity.
  - split.
    + apply Hpaths. right. left. reflexivity.
    + apply Hskip. reflexivity.
Defined.

(** ** The changed flag (C10) *)

(** C10. For every transformer and every input text: when the returned
    [changed] flag is false, the returned text is the input text. *)
Theorem C10_not_changed_same_text (t : transformer) (input : jsstring) :
  snd (run t input) = false -> fst (run t input) = input.
Proof.
  destruct t; simpl.
  - apply embed_unchanged.
  - apply hint_unchanged.
  - apply arcade_unchanged.
  - apply image_unchanged.
Qed.

Lemma C10_witness :
  fst (run ImageNormalization (js "<img src=`a.png` alt=`Desc` />"))
  = js "<img src=`a.png` alt=`Desc` />".
Proof.
  apply (C10_not_changed_same_text ImageNormalization
           (js "<img src=`a.png` alt=`Desc` />")).
  vm_compute. reflexivity.
Defined.

(** * The collector, in full *)

Lemma collectable_app exts dirPath a b p :
  collectable exts dirPath (a ++ b) p <->
  collectable exts dirPath a p \/ collectable exts dirPath b p.
Proof.
  split.
  - intros H. remember (a ++ b) as ab eqn:Hab.
    destruct H as [d es name Hin Hv Hx|d es name listing p Hin Hv Hc];
      subst es; apply in_app_or in Hin as [Hin|Hin].
    + left. now constructor.
    + right. now constructor.
    + left. eapply collectable_dir; eassumption.
    + right. eapply collectable_dir; eassumption.
  - intros [H|H];
      destruct H as [d es name Hin Hv Hx|d es name listing p Hin Hv Hc].
    + constructor; auto. apply in_or_app. now left.
    + eapply collectable_dir; [apply in_or_app; left; eassumption|auto..].
    + constructor; auto. apply in_or_app. now right.
    + eapply collectable_dir; [apply in_or_app; right; eassumption|auto..].
Qed.

Lemma blocked_app a b : blocked (a ++ b) <-> blocked a \/ blocked b.
Proof.
  split.
  - intros H. remember (a ++ b) as ab eqn:Hab.
    destruct H as [es name Hin Hv|es name listing Hin Hv Hb];
      subst es; apply in_app_or in Hin as [Hin|Hin].
    + left. eapply blocked_here; eassumption.
    + right. eapply blocked_here; eassumption.
    + left. eapply blocked_below; eassumption.
    + right. eapply blocked_below; eassumption.
  - intros [H|H]; destruct H as [es name Hin Hv|es name listing Hin Hv Hb].
    + eapply blocked_here; [apply in_or_app; left; eassumption|auto..].
    + eapply blocked_below; [apply in_or_app; left; eassumption|auto..].
    + eapply blocked_here; [apply in_or_app; right; eassumption|auto..].
    + eapply blocked_below; [apply in_or_app; right; eassumption|auto..].
Qed.

Lemma collects_nil exts : collects exts [] (fun _ collected => Some collected).
Proof.
  intros dirPath. right. split.
  - intros H. inversion H as [es name Hin|es name listing Hin]; destruct Hin.
  - exists []. split.
    + intros collected. now rewrite app_nil_r.
    + intros p. split; [intros []|].
      intros H. inversion H as [d es name Hin|d es name listing q Hin];
        destruct Hin.
Qed.

Lemma collects_cons exts e l :
  collects exts [e] (fun dirPath => visit exts dirPath e) ->
  collects exts l (fun dirPath => collectFiles exts dirPath l) ->
  collects exts (e :: l) (fun dirPath => collectFiles exts dirPath (e :: l)).
Proof.
  intros He Hl dirPath. cbn [collectFiles].
  change (e :: l) with ([e] ++ l).
  destruct (He dirPath) as [[Hb Hn]|(Hnb & a1 & Ha1 & Hc1)].
  - left. split; [apply blocked_app; now left|].
    intros collected. now rewrite Hn.
  - destruct (Hl dirPath) as [[Hb Hn]|(Hnb2 & a2 & Ha2 & Hc2)].
    + left. split; [apply blocked_app; now right|].
      intros collected. now rewrite Ha1, Hn.
    + right. split.
      * intros H. apply blocked_app in H as [H|H]; auto.
      * exists (a1 ++ a2). split.
        -- intros collected. now rewrite Ha1, Ha2, app_assoc.
        -- intros p. rewrite in_app_iff, collectable_app, Hc1, Hc2. reflexivity.
Qed.

Lemma collects_all exts entries :
  Forall (fun e => collects exts [e] (fun dirPath => visit exts dirPath e)) entries ->
  collects exts entries (fun dirPath => collectFiles exts dirPath entries).
Proof.
  induction 1 as [|e l He Hl IH].
  - apply collects_nil.
  - now apply collects_cons.
Qed.

Lemma visible_dot name : visible name = negb (startsWith name dot).
Proof. reflexivity. Qed.

Lemma collects_visit exts e :
  collects exts [e] (fun dirPath => visit exts dirPath e).
Proof.
  induction e as [name|name listing IH|name] using entry_tree_ind; intros dirPath.
  - right. split.
    { intros H. inversion H as [es n Hin|es n ls Hin];
        destruct Hin as [Hin|[]]; discriminate Hin. }
    cbn -[startsWith]. destruct (startsWith name dot) eqn:Hd.
    + exists []. split; [intros c; now rewrite app_nil_r|].
      intros p. split; [intros []|]. intros H.
      inversion H as [d es n Hin Hv|d es n ls q Hin Hv];
        destruct Hin as [Hin|[]]; inversion Hin; subst.
      rewrite visible_dot, Hd in Hv. discriminate Hv.
    + destruct (existsb _ exts) eqn:Hx.
      * exists [path_join dirPath name]. split; [reflexivity|].
        intros p. split.
        -- intros [<-|[]]. constructor; [now left| |exact Hx].
           now rewrite visible_dot, Hd.
        -- intros H. inversion H as [d es n Hin Hv|d es n ls q Hin Hv];
             destruct Hin as [Hin|[]]; inversion Hin; subst. now left.
      * exists []. split; [intros c; now rewrite app_nil_r|].
        intros p. split; [intros []|]. intros H.
        inversion H as [d es n Hin Hv Hx'|d es n ls q Hin Hv];
          destruct Hin as [Hin|[]]; inversion Hin; subst. congruence.
  - destruct (startsWith name dot) eqn:Hd.
    + right. split.
      { intros H. inversion H as [es n Hin|es n ls Hin Hv];
          destruct Hin as [Hin|[]]; inversion Hin; subst.
        rewrite visible_dot, Hd in Hv. discriminate Hv. }
      exists []. split.
      * intros c. now rewrite visit_dir, Hd, app_nil_r.
      * intros p. split; [intros []|]. intros H.
        inversion H as [d es n Hin Hv|d es n ls q Hin Hv];
          destruct Hin as [Hin|[]]; inversion Hin; subst.
        rewrite visible_dot, Hd in Hv. discriminate Hv.
    + assert (Hvis : visible name = true) by now rewrite visible_dot, Hd.
      destruct (collects_all exts listing IH (path_join dirPath name))
        as [[Hb Hn]|(Hnb & added & Ha & Hc)].
      * left. split.
        -- eapply blocked_below; try eassumption. now left.
        -- intros c. now rewrite visit_dir, Hd.
      * right. split.
        -- intros H. inversion H as [es n Hin|es n ls Hin Hv Hb];
             destruct Hin as [Hin|[]]; inversion Hin; subst. auto.
        -- exists added. split.
           ++ intros c. now rewrite visit_dir, Hd.
           ++ intros p. rewrite Hc. split.
              ** intros H. eapply collectable_dir; try eassumption. now left.
              ** intros H.
                 inversion H as [d es n Hin Hv|d es n ls q Hin Hv Hq];
                   destruct Hin as [Hin|[]]; inversion Hin; subst. exact Hq.
  - cbn -[startsWith]. destruct (startsWith name dot) eqn:Hd.
    + right. split.
      { intros H. inversion H as [es n Hin Hv|es n ls Hin];
          destruct Hin as [Hin|[]]; inversion Hin; subst.
        rewrite visible_dot, Hd in Hv. discriminate Hv. }
      exists []. split; [intros c; now rewrite app_nil_r|].
      intros p. split; [intros []|]. intros H.
      inversion H as [d es n Hin Hv|d es n ls q Hin Hv];
        destruct Hin as [Hin|[]]; inversion Hin.
    + left. split; [|reflexivity].
      eapply blocked_here; [now left|]. now rewrite visible_dot, Hd.
Qed.

Lemma collectFiles_collects exts entries :
  collects exts entries (fun dirPath => collectFiles exts dirPath entries).
Proof.
  apply collects_all, Forall_forall. intros e _. apply collects_visit.
Qed.

(** * The batch runners *)

Lemma path_eqb_refl p : path_eqb p p = true.
Proof.
  induction p as [|a p IH]; [reflexivity|].
  cbn [path_eqb]. now rewrite str_eqb_refl.
Qed.

Lemma path_eqb_eq p q : path_eqb p q = true -> p = q.
Proof.
  revert q. induction p as [|a p IH]; intros [|b q] H; try discriminate H; auto.
  cbn [path_eqb] in H. apply andb_prop in H as [Ha Hp].
  apply str_eqb_eq in Ha. f_equal; auto.
Qed.

Lemma path_eqb_neq p q : p <> q -> path_eqb p q = false.
Proof.
  intros H. destruct (path_eqb p q) eqn:E; auto.
  apply path_eqb_eq in E. contradiction.
Qed.

Lemma existsb_path_eqb p files : existsb (path_eqb p) files = true <-> In p files.
Proof.
  rewrite existsb_exists. split.
  - intros (q & Hq & He). apply path_eqb_eq in He. now subst.
  - intros H. exists p. split; auto. apply path_eqb_refl.
Qed.

(** A turn of the loop leaves the other files alone. *)
Lemma main_step_other t rs file p :
  p <> file -> rs_files (main_step t rs file) p = rs_files rs p.
Proof.
  intros Hne. unfold main_step.
  destruct (f_read (rs_files rs file)) as [s|message]; [|reflexivity].
  destruct (script_process t s) as [[text changed] counts].
  destruct changed; [|reflexivity].
  destruct (f_write_error (rs_files rs file)); [reflexivity|].
  cbn [rs_files]. unfold write_file. now rewrite path_eqb_neq.
Qed.

Lemma main_step_at t rs file :
  rs_files (main_step t rs file) file = file_after t (rs_files rs file).
Proof.
  unfold main_step, file_after.
  destruct (f_read (rs_files rs file)) as [s|message]; [|reflexivity].
  destruct (script_process t s) as [[text changed] counts].
  destruct changed; [|reflexivity].
  destruct (f_write_error (rs_files rs file)) eqn:Hw; [reflexivity|].
  cbn [rs_files]. unfold write_file. now rewrite path_eqb_refl, Hw.
Qed.

Lemma main_loop_other t files : forall rs p,
  ~ In p files -> rs_files (main_loop t files rs) p = rs_files rs p.
Proof.
  unfold main_loop.
  induction files as [|f files IH]; intros rs p Hn; [reflexivity|].
  cbn [fold_left]. rewrite IH by (intros H; apply Hn; now right).
  apply main_step_other. intros ->. apply Hn. now left.
Qed.

Lemma main_loop_files t files : forall rs p,
  NoDup files ->
  rs_files (main_loop t files rs) p =
  if existsb (path_eqb p) files then file_after t (rs_files rs p)
  else rs_files rs p.
Proof.
  unfold main_loop.
  induction files as [|f files IH]; intros rs p Hnd; [reflexivity|].
  inversion Hnd as [|f' l Hnotin Hnd']; subst.
  cbn [fold_left existsb]. rewrite (IH _ _ Hnd').
  destruct (path_eqb p f) eqn:E.
  - apply path_eqb_eq in E. subst p. cbn [orb].
    destruct (existsb (path_eqb f) files) eqn:Ex.
    + apply existsb_path_eqb in Ex. contradiction.
    + apply main_step_at.
  - cbn [orb]. assert (Hne : p <> f).
    { intros ->. now rewrite path_eqb_refl in E. }
    now rewrite main_step_other.
Qed.

(** The counters and the log go together. *)
Lemma updated_counts_app a b :
  updated_counts (a ++ b) = updated_counts a ++ updated_counts b.
Proof.
  induction a as [|e a IH]; [reflexivity|].
  destruct e; cbn [app updated_counts]; now rewrite ?IH.
Qed.

Lemma main_step_tallied t zero rs file :
  tallied zero rs -> tallied zero (main_step t rs file).
Proof.
  intros [Hc Ht]. unfold main_step.
  destruct (f_read (rs_files rs file)) as [s|message].
  - destruct (script_process t s) as [[text changed] counts].
    destruct changed; [|now split].
    destruct (f_write_error (rs_files rs file)); unfold tallied;
      cbn [rs_changed rs_totals rs_log]; rewrite updated_counts_app;
      cbn [updated_counts]; rewrite ?app_nil_r; auto.
    rewrite length_app, fold_left_app, <- Ht, Hc. cbn [length fold_left].
    split; [lia | reflexivity].
  - unfold tallied. cbn [rs_changed rs_totals rs_log].
    rewrite updated_counts_app. cbn [updated_counts]. now rewrite app_nil_r.
Qed.

Lemma main_loop_tallied t zero files : forall rs,
  tallied zero rs -> tallied zero (main_loop t files rs).
Proof.
  unfold main_loop. induction files as [|f files IH]; intros rs H; [exact H|].
  cbn [fold_left]. apply IH. now apply main_step_tallied.
Qed.

(** The log only grows, by lines that are not the last line. *)
Lemma main_loop_log t files : forall rs,
  exists evs, rs_log (main_loop t files rs) = rs_log rs ++ evs /\
              Forall (fun e => match e with Done _ _ => False | _ => True end) evs /\
              length evs <= length files.
Proof.
  unfold main_loop. induction files as [|f files IH]; intros rs.
  - exists []. rewrite app_nil_r. repeat split; auto.
  - cbn [fold_left]. destruct (IH (main_step t rs f)) as (evs & -> & Hf & Hl).
    assert (Hs : exists e1, rs_log (main_step t rs f) = rs_log rs ++ e1 /\
                  Forall (fun e => match e with Done _ _ => False | _ => True end) e1 /\
                  length e1 <= 1).
    { unfold main_step.
      destruct (f_read (rs_files rs f)) as [s|message].
      - destruct (script_process t s) as [[text changed] counts].
        destruct changed.
        + destruct (f_write_error (rs_files rs f)); eexists;
            (split; [reflexivity|]); split; auto.
        + exists []. rewrite app_nil_r. repeat split; auto.
      - eexists. split; [reflexivity|]. split; auto. }
    destruct Hs as (e1 & -> & Hf1 & Hl1).
    exists (e1 ++ evs). rewrite app_assoc. split; [reflexivity|].
    split; [now apply Forall_app|]. rewrite length_app. cbn [length]. lia.
Qed.

(** * The escaping as a code *)

Lemma escape_char_cases c :
  (special c = false /\ escape_char c = [c]) \/
  (c = "&"%char /\ escape_char c = "&"%char :: list_ascii_of_string "amp;") \/
  (c = DQ /\ escape_char c = "&"%char :: list_ascii_of_string "quot;") \/
  (c = "<"%char /\ escape_char c = "&"%char :: list_ascii_of_string "lt;") \/
  (c = ">"%char /\ escape_char c = "&"%char :: list_ascii_of_string "gt;").
Proof.
  unfold special, escape_char.
  destruct (Ascii.eqb c "&"%char) eqn:E1.
  { apply Ascii.eqb_eq in E1. right. left. now subst. }
  destruct (Ascii.eqb c DQ) eqn:E2.
  { apply Ascii.eqb_eq in E2. right. right. left. now subst. }
  destruct (Ascii.eqb c "<"%char) eqn:E3.
  { apply Ascii.eqb_eq in E3. right. right. right. left. now subst. }
  destruct (Ascii.eqb c ">"%char) eqn:E4.
  { apply Ascii.eqb_eq in E4. right. right. right. right. now subst. }
  left. now split.
Qed.

Lemma special_amp c : special c = false -> c <> "&"%char.
Proof. intros H ->. discriminate H. Qed.

Ltac escape_cases c S H :=
  destruct (escape_char_cases c)
    as [[S H]|[[S H]|[[S H]|[[S H]|[S H]]]]].

Lemma escape_chars_injective a :
  forall b, flat_map escape_char a = flat_map escape_char b -> a = b.
Proof.
  induction a as [|x a IH]; intros [|y b] H; auto.
  - exfalso. cbn [flat_map] in H. escape_cases y Sy Hy; rewrite Hy in H;
      discriminate H.
  - exfalso. cbn [flat_map] in H. escape_cases x Sx Hx; rewrite Hx in H;
      discriminate H.
  - cbn [flat_map] in H.
    escape_cases x Sx Hx; escape_cases y Sy Hy; rewrite Hx, Hy in H;
      cbn [app list_ascii_of_string] in H;
      try discriminate H;
      try (subst x y; injection H as H; f_equal; now apply IH);
      try (injection H as E _; exfalso;
           first [apply special_amp in Sx | apply special_amp in Sy];
           congruence).
    injection H as E H. subst. f_equal. now apply IH.
Qed.

Lemma escape_chars_length s : length s <= length (flat_map escape_char s).
Proof.
  induction s as [|c s IH]; [auto|].
  cbn [flat_map length]. rewrite length_app.
  escape_cases c Sc Hc; rewrite Hc; cbn [length list_ascii_of_string]; lia.
Qed.

Lemma escape_chars_fixed s :
  flat_map escape_char s = s -> forallb (fun c => negb (special c)) s = true.
Proof.
  induction s as [|c s IH]; intros H; [reflexivity|].
  cbn [flat_map] in H. pose proof (escape_chars_length s) as Hl.
  escape_cases c Sc Hc; rewrite Hc in H;
    cbn [app list_ascii_of_string] in H.
  - injection H as H. cbn [forallb]. rewrite Sc.
    cbn [negb andb]. now apply IH.
  - exfalso. injection H as _ H. apply (f_equal (@length ascii)) in H.
    cbn [length] in H. lia.
  - exfalso. injection H as _ H. apply (f_equal (@length ascii)) in H.
    cbn [length] in H. lia.
  - exfalso. injection H as _ H. apply (f_equal (@length ascii)) in H.
    cbn [length] in H. lia.
  - exfalso. injection H as _ H. apply (f_equal (@length ascii)) in H.
    cbn [length] in H. lia.
Qed.

Lemma escape_chars_plain s :
  forallb (fun c => negb (special c)) s = true -> flat_map escape_char s = s.
Proof.
  induction s as [|c s IH]; intros H; [reflexivity|].
  cbn [forallb] in H. apply andb_prop in H as [Hc Hs].
  apply negb_true_iff in Hc. cbn [flat_map]. rewrite (IH Hs).
  escape_cases c Sc Hx; subst; try discriminate Hc. now rewrite Hx.
Qed.

(** * The counters of the transformers *)

Lemma fold_left_keeps (A B : Type) (f : A -> B -> A) (Inv : A -> Prop) l :
  forall a, Inv a -> (forall a b, Inv a -> Inv (f a b)) -> Inv (fold_left f l a).
Proof.
  induction l as [|b l IH]; intros a Ha Hf; [exact Ha|].
  cbn [fold_left]. apply IH; auto.
Qed.

(** What holds of the counters before [replace] and is kept by the
    callback holds after it. *)
Lemma replace_fn_keeps fl r St (fn : match_result -> St -> jsstring * St)
      (Inv : St -> Prop) s st :
  Inv st -> (forall m st1, Inv st1 -> Inv (snd (fn m st1))) ->
  Inv (snd (replace_fn fl r fn s st)).
Proof.
  intros H0 Hf. unfold replace_fn. rewrite replace_go_state.
  apply fold_left_keeps; auto.
Qed.

Lemma replace_fn_state fl r St (fn : match_result -> St -> jsstring * St) s st :
  snd (replace_fn fl r fn s st) =
  fold_left (fun st m => snd (fn m st)) (matches_of fl r s) st.
Proof. unfold replace_fn, matches_of. apply replace_go_state. Qed.

Lemma embed_tally s :
  let r := Embed.processContent s in
  Embed.changed r = (0 <? Embed.blocks r + Embed.singles r).
Proof.
  unfold Embed.processContent.
  set (Inv := fun st => Embed.c_changed st
                        = (0 <? Embed.c_blocks st + Embed.c_singles st)).
  pose proof (replace_fn_keeps fl_mi Embed.blockRegex _ Embed.blockCallback Inv s
                (Embed.Counters false 0 0) eq_refl) as H1.
  destruct (replace_fn fl_mi Embed.blockRegex _ s _) as [t1 st1].
  cbn [snd] in H1.
  assert (I1 : Inv st1).
  { apply H1. intros m st0 H0. unfold Embed.blockCallback.
    destruct (Embed.attr_url _); [exact H0|reflexivity]. }
  pose proof (replace_fn_keeps fl_mi Embed.singleRegex _ Embed.singleCallback Inv t1
                st1 I1) as H2.
  destruct (replace_fn fl_mi Embed.singleRegex _ t1 st1) as [t2 st2].
  cbn [snd] in H2. cbn [Embed.changed Embed.blocks Embed.singles].
  apply H2. intros m st0 H0. unfold Embed.singleCallback.
  destruct (Embed.attr_url _); [exact H0|].
  unfold Inv. cbn [snd Embed.c_changed Embed.c_blocks Embed.c_singles].
  now rewrite Nat.add_succ_r.
Qed.

Lemma image_tally s :
  let r := Image.processFileContent s in
  Image.changed r = (0 <? Image.figureUnwrapped r + Image.imgsNormalized r).
Proof.
  unfold Image.processFileContent.
  set (Inv := fun st => Image.c_changed st
                        = (0 <? Image.c_figures st + Image.c_imgs st)).
  pose proof (replace_fn_keeps fl_g Image.figureRegex _ Image.figureCallback Inv s
                (Image.Counters false 0 0) eq_refl) as H1.
  destruct (replace_fn fl_g Image.figureRegex _ s _) as [t1 st1].
  cbn [snd] in H1.
  assert (I1 : Inv st1).
  { apply H1. intros m st0 H0. unfold Image.figureCallback.
    destruct (str_match fl_i Image.imgRegex _); [reflexivity|exact H0]. }
  pose proof (replace_fn_keeps fl_i Image.imgRegex _ Image.imgCallback Inv t1
                st1 I1) as H2.
  destruct (replace_fn fl_i Image.imgRegex _ t1 st1) as [t2 st2].
  cbn [snd] in H2. cbn [Image.changed Image.figureUnwrapped Image.imgsNormalized].
  apply H2. intros m st0 H0. unfold Image.imgCallback.
  destruct (negb _); [|exact H0].
  unfold Inv. cbn [snd Image.c_changed Image.c_figures Image.c_imgs].
  now rewrite Nat.add_succ_r.
Qed.

Lemma hint_start_fold ms : forall st,
  let st' := fold_left (fun st m => snd (Hint.startCallback m st)) ms st in
  Hint.c_start st' = Hint.c_start st + length ms /\
  Hint.c_end st' = Hint.c_end st /\
  Hint.c_changed st' = Hint.c_changed st || (0 <? length ms).
Proof.
  induction ms as [|m ms IH]; intros st; cbn [fold_left length].
  - cbn. rewrite orb_false_r. auto with arith.
  - destruct (IH (snd (Hint.startCallback m st))) as (H1 & H2 & H3).
    rewrite H1, H2, H3. cbn. rewrite orb_true_r. repeat split; lia.
Qed.

Lemma hint_end_fold ms : forall st,
  let st' := fold_left (fun st m => snd (Hint.endCallback m st)) ms st in
  Hint.c_end st' = Hint.c_end st + length ms /\
  Hint.c_start st' = Hint.c_start st /\
  Hint.c_changed st' = Hint.c_changed st || (0 <? length ms).
Proof.
  induction ms as [|m ms IH]; intros st; cbn [fold_left length].
  - cbn. rewrite orb_false_r. auto with arith.
  - destruct (IH (snd (Hint.endCallback m st))) as (H1 & H2 & H3).
    rewrite H1, H2, H3. cbn. rewrite orb_true_r. repeat split; lia.
Qed.

Lemma arcade_fold ms : forall st,
  let st' := fold_left (fun st m => snd (Arcade.callback m st)) ms st in
  Arcade.c_replaced st' = Arcade.c_replaced st + length ms /\
  Arcade.c_changed st' = Arcade.c_changed st || (0 <? length ms).
Proof.
  induction ms as [|m ms IH]; intros st; cbn [fold_left length].
  - cbn. rewrite orb_false_r. auto with arith.
  - destruct (IH (snd (Arcade.callback m st))) as (H1 & H2).
    rewrite H1, H2. cbn. rewrite orb_true_r. split; lia.
Qed.

(** The hint transformer counts the matches of its two patterns, the
    second in the text that the first pass gives. *)
Lemma hint_counts s :
  let r := Hint.processContent s in
  let text1 := fst (replace_fn fl_m Hint.startTag Hint.startCallback s
                      (Hint.Counters false 0 0)) in
  Hint.startCount r = length (matches_of fl_m Hint.startTag s) /\
  Hint.endCount r = length (matches_of fl_m Hint.endTag text1) /\
  Hint.changed r = (0 <? Hint.startCount r + Hint.endCount r).
Proof.
  unfold Hint.processContent.
  pose proof (replace_fn_state fl_m Hint.startTag _ Hint.startCallback s
                (Hint.Counters false 0 0)) as H1.
  destruct (replace_fn fl_m Hint.startTag _ s _) as [t1 st1].
  pose proof (replace_fn_state fl_m Hint.endTag _ Hint.endCallback t1 st1) as H2.
  destruct (replace_fn fl_m Hint.endTag _ t1 st1) as [t2 st2].
  cbn [fst snd] in *. cbn [Hint.startCount Hint.endCount Hint.changed].
  destruct (hint_start_fold (matches_of fl_m Hint.startTag s)
              (Hint.Counters false 0 0)) as (A1 & A2 & A3).
  destruct (hint_end_fold (matches_of fl_m Hint.endTag t1) st1) as (B1 & B2 & B3).
  cbn zeta in A1, A2, A3, B1, B2, B3.
  rewrite <- H1 in A1, A2, A3. rewrite <- H2 in B1, B2, B3.
  cbn [Hint.c_start Hint.c_end Hint.c_changed Nat.add orb] in A1, A2, A3.
  rewrite B2, B1, B3, A1, A2, A3. repeat split.
  destruct (length (matches_of fl_m Hint.startTag s)),
           (length (matches_of fl_m Hint.endTag t1)); reflexivity.
Qed.

Lemma arcade_counts s :
  let r := Arcade.processContent s in
  Arcade.replaced r = length (matches_of fl_mi Arcade.iframeRegex s) /\
  Arcade.changed r = (0 <? Arcade.replaced r).
Proof.
  unfold Arcade.processContent.
  pose proof (replace_fn_state fl_mi Arcade.iframeRegex _ Arcade.callback s
                (Arcade.Counters false 0)) as H1.
  destruct (replace_fn fl_mi Arcade.iframeRegex _ s _) as [t1 st1].
  cbn [snd] in H1. cbn [Arcade.replaced Arcade.changed].
  destruct (arcade_fold (matches_of fl_mi Arcade.iframeRegex s)
              (Arcade.Counters false 0)) as (A1 & A2).
  cbn zeta in A1, A2. rewrite <- H1 in A1, A2.
  cbn [Arcade.c_replaced Arcade.c_changed Nat.add orb] in A1, A2.
  now rewrite A1, A2.
Qed.

Lemma figure_fold ms : forall st,
  let st' := fold_left (fun st m => snd (Image.figureCallback m st)) ms st in
  Image.c_figures st' = Image.c_figures st + length (filter holds_img ms) /\
  Image.c_imgs st' = Image.c_imgs st.
Proof.
  induction ms as [|m ms IH]; intros st; cbn [fold_left filter]; [cbn; lia|].
  destruct (IH (snd (Image.figureCallback m st))) as [H1 H2].
  cbn zeta. rewrite H1, H2. unfold Image.figureCallback, holds_img.
  destruct (str_match fl_i Image.imgRegex _); cbn; lia.
Qed.

Lemma img_fold ms : forall st,
  let st' := fold_left (fun st m => snd (Image.imgCallback m st)) ms st in
  Image.c_imgs st' = Image.c_imgs st + length (filter not_normal ms) /\
  Image.c_figures st' = Image.c_figures st.
Proof.
  induction ms as [|m ms IH]; intros st; cbn [fold_left filter]; [cbn; lia|].
  destruct (IH (snd (Image.imgCallback m st))) as [H1 H2].
  cbn zeta. rewrite H1, H2. unfold Image.imgCallback, not_normal.
  destruct (negb _); cbn; lia.
Qed.

(** The image script counts the figures that hold an image tag and, in
    the text without these figures, the image tags that the normalizer
    changes. *)
Lemma image_counts s :
  let r := Image.processFileContent s in
  let content1 := fst (replace_fn fl_g Image.figureRegex Image.figureCallback s
                         (Image.Counters false 0 0)) in
  Image.figureUnwrapped r
    = length (filter holds_img (matches_of fl_g Image.figureRegex s)) /\
  Image.imgsNormalized r
    = length (filter not_normal (matches_of fl_i Image.imgRegex content1)).
Proof.
  unfold Image.processFileContent.
  pose proof (replace_fn_state fl_g Image.figureRegex _ Image.figureCallback s
                (Image.Counters false 0 0)) as H1.
  destruct (replace_fn fl_g Image.figureRegex _ s _) as [t1 st1].
  pose proof (replace_fn_state fl_i Image.imgRegex _ Image.imgCallback t1 st1) as H2.
  destruct (replace_fn fl_i Image.imgRegex _ t1 st1) as [t2 st2].
  cbn [fst snd] in *. cbn [Image.figureUnwrapped Image.imgsNormalized].
  destruct (figure_fold (matches_of fl_g Image.figureRegex s)
              (Image.Counters false 0 0)) as (A1 & A2).
  destruct (img_fold (matches_of fl_i Image.imgRegex t1) st1) as (B1 & B2).
  cbn zeta in A1, A2, B1, B2.
  rewrite <- H1 in A1, A2. rewrite <- H2 in B1, B2.
  cbn [Image.c_figures Image.c_imgs Nat.add] in A1, A2.
  now rewrite B2, B1, A1, A2.
Qed.

(** * The captures of a match are pieces of the input *)

Section Within.
Variable input : jsstring.

Lemma within_clear gs s : within input s -> within input (clear_caps gs s).
Proof.
  intros [Ha Hc]. destruct gs as [|g gs]; [now split|].
  split; [exact Ha|]. cbn [clear_caps caps].
  intros i a0 a1 Hin. apply filter_In in Hin as [Hin _]. eauto.
Qed.

Lemma keeps_within_repeat body gs g :
  keeps_within input body ->
  forall fuel mn mx, keeps_within input (repeat_matcher body gs g fuel mn mx).
Proof.
  intros Hbody fuel. induction fuel as [|fuel IH]; intros mn mx s k z Hs H;
    [discriminate H|].
  cbn [repeat_matcher] in H.
  assert (Hstop : k s = Some z ->
                  exists y, within input y /\
                            (exists w, after s = w ++ after y) /\ k y = Some z).
  { intros Hk. exists s. split; [exact Hs|]. split; [now exists []|exact Hk]. }
  assert (Hiter : body (clear_caps gs s)
                    (fun y => if (mn =? 0) && (idx y =? idx s) then None
                              else repeat_matcher body gs g fuel (pred mn)
                                     (option_map pred mx) y k) = Some z ->
                  exists y, within input y /\
                            (exists w, after s = w ++ after y) /\ k y = Some z).
  { intros Hb.
    apply Hbody in Hb as (y & Hy & (w & Hw) & Hd); [|now apply within_clear].
    destruct ((mn =? 0) && (idx y =? idx s)); [discriminate Hd|].
    apply IH in Hd as (y2 & Hy2 & (w2 & Hw2) & Hk); [|exact Hy].
    exists y2. split; [exact Hy2|]. split; [|exact Hk].
    exists (w ++ w2). rewrite <- app_assoc, <- Hw2.
    destruct gs; exact Hw. }
  destruct mx as [[|mx]|].
  - now apply Hstop.
  - destruct mn as [|mn]; [|now apply Hiter].
    destruct g.
    + destruct (body _ _) as [z'|] eqn:Hb.
      * injection H as ->. now apply Hiter.
      * now apply Hstop.
    + destruct (k s) as [z'|] eqn:Hk.
      * injection H as ->. now apply Hstop.
      * now apply Hiter.
  - destruct mn as [|mn]; [|now apply Hiter].
    destruct g.
    + destruct (body _ _) as [z'|] eqn:Hb.
      * injection H as ->. now apply Hiter.
      * now apply Hstop.
    + destruct (k s) as [z'|] eqn:Hk.
      * injection H as ->. now apply Hstop.
      * now apply Hiter.
Qed.

Lemma within_advance s c rest :
  within input s -> after s = c :: rest -> within input (advance c rest s).
Proof.
  intros [[pre Ha] Hc] E. split; [|exact Hc].
  exists (pre ++ [c]). cbn [advance after]. rewrite <- app_assoc.
  cbn [app]. now rewrite <- E.
Qed.

Lemma rmatch_within fl r : keeps_within input (rmatch fl r).
Proof.
  induction r as [|a|neg items|r1 IH1 r2 IH2|r1 IH1 r2 IH2|mn mx g r1 IH1
                  |i r1 IH1| | | |r1 IH1]; intros s k z Hs H.
  - exists s. split; [exact Hs|]. split; [now exists []|exact H].
  - cbn [rmatch] in H. destruct (after s) as [|c rest] eqn:Ha; [discriminate H|].
    destruct (char_eq fl a c); [|discriminate H].
    exists (advance c rest s). split; [now apply within_advance|].
    split; [now exists [c]|exact H].
  - cbn [rmatch] in H. destruct (after s) as [|c rest] eqn:Ha; [discriminate H|].
    destruct (cls_match fl neg items c); [|discriminate H].
    exists (advance c rest s). split; [now apply within_advance|].
    split; [now exists [c]|exact H].
  - cbn [rmatch] in H.
    apply IH1 in H as (y1 & Hy1 & (w1 & Hw1) & H); [|exact Hs].
    apply IH2 in H as (y2 & Hy2 & (w2 & Hw2) & H); [|exact Hy1].
    exists y2. split; [exact Hy2|]. split; [|exact H].
    exists (w1 ++ w2). now rewrite <- app_assoc, <- Hw2.
  - cbn [rmatch] in H. destruct (rmatch fl r1 s k) as [z'|] eqn:H1.
    + injection H as ->. now apply IH1.
    + now apply IH2.
  - rewrite rmatch_rep in H.
    now apply (keeps_within_repeat _ _ _ IH1) in H.
  - cbn [rmatch] in H.
    apply IH1 in H as (y & Hy & (w & Hw) & H); [|exact Hs].
    exists (set_cap i s y). split; [|split; [now exists w|exact H]].
    destruct Hy as [Hya Hyc]. split; [exact Hya|].
    cbn [set_cap caps]. intros j a0 a1 [E|Hin]; [|eauto].
    injection E as _ <- <-. destruct Hs as [[pre Hpre] _].
    exists pre, w. now split.
  - cbn [rmatch] in H. destruct (at_bol fl (before s)); [|discriminate H].
    exists s. split; [exact Hs|]. split; [now exists []|exact H].
  - cbn [rmatch] in H. destruct (at_eol fl (after s)); [|discriminate H].
    exists s. split; [exact Hs|]. split; [now exists []|exact H].
  - cbn [rmatch] in H.
    destruct (at_word_boundary (before s) (after s)); [|discriminate H].
    exists s. split; [exact Hs|]. split; [now exists []|exact H].
  - cbn [rmatch] in H.
    destruct (rmatch fl r1 s (fun s1 => Some s1)) as [s1|] eqn:H1;
      [|discriminate H].
    apply IH1 in H1 as (y & Hy & _ & Hk); [|exact Hs]. injection Hk as ->.
    eexists. split; [|split; [|exact H]].
    + destruct Hs as [Ha _], Hy as [_ Hc]. split; [exact Ha|exact Hc].
    + now exists [].
Qed.
End Within.

(** A group of a match is a piece of the text that was searched. *)
Lemma match_at_group fl r bef aft i e j w :
  match_at fl r bef aft i = Some e ->
  group j (mk_match i aft e) = Some w -> factor w aft.
Proof.
  unfold match_at. intros H Hg.
  apply (rmatch_within aft) in H as (y & [_ Hc] & _ & Hk).
  - injection Hk as ->. unfold group in Hg. cbn [mk_match m_caps] in Hg.
    destruct (find _ (caps e)) as [[j' [a0 a1]]|] eqn:Hf; [|discriminate Hg].
    injection Hg as <-. apply find_some in Hf as [Hin _].
    destruct (Hc _ _ _ Hin) as (pre & w & -> & ->).
    exists pre, a1.
    rewrite length_app, Nat.add_sub, firstn_app, firstn_all, Nat.sub_diag.
    cbn [firstn]. now rewrite app_nil_r.
  - split; [now exists []|]. intros ? ? ? [].
Qed.

Lemma exec_all_In fl r aft :
  forall bef i skip m,
    In m (exec_all fl r bef aft i skip) ->
    exists p t bef' j e,
      aft = p ++ t /\ match_at fl r bef' t j = Some e /\ m = mk_match j t e.
Proof.
  induction aft as [|c aft IH]; intros bef i skip m Hin.
  - destruct skip as [|n]; [|destruct Hin]. cbn [exec_all] in Hin.
    destruct (match_at fl r bef [] i) as [e|] eqn:He; [|destruct Hin].
    destruct Hin as [<-|[]]. exists [], [], bef, i, e. auto.
  - assert (Hrec : forall bef' i' n,
               In m (exec_all fl r bef' aft i' n) ->
               exists p t bef'' j e,
                 c :: aft = p ++ t /\ match_at fl r bef'' t j = Some e /\
                 m = mk_match j t e).
    { intros bef' i' n H. apply IH in H as (p & t & b & j & e & -> & Hm & ->).
      exists (c :: p), t, b, j, e. auto. }
    destruct skip as [|n]; cbn [exec_all] in Hin; [|now apply Hrec in Hin].
    destruct (match_at fl r bef (c :: aft) i) as [e|] eqn:He.
    + destruct Hin as [<-|Hin]; [|now apply Hrec in Hin].
      exists [], (c :: aft), bef, i, e. auto.
    + now apply Hrec in Hin.
Qed.

Lemma factor_suffix w p t : factor w t -> factor w (p ++ t).
Proof.
  intros (pre & post & ->). exists (p ++ pre), post. now rewrite <- app_assoc.
Qed.

(** A group of one of the matches of a global search is a piece of the
    text. *)
Lemma matches_group_factor fl r s m j w :
  In m (matches_of fl r s) -> group j m = Some w -> factor w s.
Proof.
  intros Hin Hg. apply exec_all_In in Hin as (p & t & b & i & e & -> & Hm & ->).
  apply factor_suffix. eapply match_at_group; eauto.
Qed.

Lemma includes_app_r s p b : includes s p = true -> includes (s ++ b) p = true.
Proof.
  induction s as [|c s IH]; intros H.
  - destruct p as [|x p]; [now destruct b|discriminate H].
  - rewrite includes_unfold in H. cbn [app]. rewrite includes_unfold.
    apply orb_prop in H as [H|H].
    + assert (Hs : startsWith ((c :: s) ++ b) p = true).
      { clear IH. revert H. generalize (c :: s) as l.
        induction p as [|x p IHp]; intros l H; [reflexivity|].
        destruct l as [|y l]; [discriminate H|].
        cbn [app startsWith] in *. apply andb_prop in H as [-> H].
        cbn [andb]. now apply IHp. }
      cbn [app] in Hs. now rewrite Hs.
    + rewrite (IH H). apply orb_true_r.
Qed.

Lemma factor_includes w s p :
  factor w s -> includes s p = false -> includes w p = false.
Proof.
  intros (pre & post & ->) H. destruct (includes w p) eqn:E; auto.
  apply (includes_app_r _ _ post), (includes_app_l pre) in E. congruence.
Qed.

Lemma factor_no_img w s : factor w s -> no_img s -> no_img w.
Proof.
  unfold no_img. intros (pre & post & ->) H.
  apply (factor_includes _ (toLowerCase (pre ++ w ++ post))); [|exact H].
  exists (toLowerCase pre), (toLowerCase post).
  unfold toLowerCase. now rewrite !map_app.
Qed.

Lemma exec_from_free fl r (free : jsstring -> Prop) :
  (forall c s, free (c :: s) -> free s) ->
  (forall bef aft i, free aft -> match_at fl r bef aft i = None) ->
  forall aft bef i, free aft -> exec_from fl r bef aft i = None.
Proof.
  intros Htail Hfree. induction aft as [|c aft IH]; intros bef i H;
    cbn [exec_from]; rewrite Hfree by exact H; [reflexivity|].
  apply IH. eapply Htail; eauto.
Qed.

(** A text without an image tag comes back from the image script as it
    is: its figures are left alone. *)
Lemma image_inert s :
  no_img s -> Image.processFileContent s = Image.Result s false 0 0.
Proof.
  intros H. unfold Image.processFileContent.
  rewrite replace_fn_identity.
  - rewrite (replace_fn_free fl_i Image.imgRegex _ Image.imgCallback
               no_img no_img_tail img_free) by exact H.
    reflexivity.
  - intros m Hm st. unfold Image.figureCallback.
    assert (Hi : no_img (group_or_empty 1 m)).
    { unfold group_or_empty. destruct (group 1 m) as [w|] eqn:Hg; [|reflexivity].
      eapply factor_no_img; [|exact H]. eapply matches_group_factor; eauto. }
    unfold str_match.
    now rewrite (exec_from_free fl_i Image.imgRegex no_img no_img_tail img_free).
Qed.

(** * Stripping tags *)

Lemma first_close s :
  lacks ">"%char s = false ->
  exists w rest, s = w ++ ">"%char :: rest /\ lacks ">"%char w = true.
Proof.
  induction s as [|c s IH]; intros H; [discriminate H|].
  cbn [lacks forallb] in H. destruct (Ascii.eqb ">"%char c) eqn:E.
  - apply Ascii.eqb_eq in E. subst c. now exists [], s.
  - cbn [negb andb] in H. destruct (IH H) as (w & rest & -> & Hw).
    exists (c :: w), rest. split; [reflexivity|].
    cbn [lacks forallb]. now rewrite E.
Qed.

(** The tag pattern at a [<] that has a [>] after it. *)
Lemma tag_match bef w rest i :
  lacks ">"%char w = true ->
  exists e,
    match_at fl_g Image.tagRegex bef ("<"%char :: w ++ ">"%char :: rest) i = Some e /\
    idx e = length ("<"%char :: w ++ [">"%char]) + i.
Proof.
  intros Hw. eexists. split.
  - unfold match_at, Image.tagRegex. cbn [seq fold_right].
    apply ok_seq.
    apply (ok_chr _ _ _ _ _ "<"%char (w ++ ">"%char :: rest));
      [reflexivity | reflexivity |].
    apply ok_seq.
    apply (ok_star_cls _ _ _ _ _ _ w (">"%char :: rest)).
    + reflexivity.
    + unfold none_of. cbn [map]. now apply lacks_none_of.
    + reflexivity.
    + apply ok_seq.
      apply (ok_chr _ _ _ _ _ ">"%char rest); [reflexivity | reflexivity |].
      apply ok_eps. reflexivity.
  - cbn [idx moved advance length]. rewrite length_app. cbn [length]. lia.
Qed.

Lemma tag_sound bef aft i e :
  match_at fl_g Image.tagRegex bef aft i = Some e ->
  exists w rest, aft = "<"%char :: w ++ ">"%char :: rest.
Proof.
  intros He. apply match_at_sound in He as (w & rest & -> & Hm & _).
  unfold Image.tagRegex in Hm. cbn [seq fold_right] in Hm.
  apply Matches_seq_inv in Hm as (w0 & v0 & -> & H0 & Hm).
  apply Matches_chr_inv in H0 as (c0 & -> & Hc0).
  apply char_eq_exact in Hc0; [|now left]. subst c0.
  apply Matches_seq_inv in Hm as (w1 & v1 & -> & _ & Hm).
  apply Matches_seq_inv in Hm as (w2 & v2 & -> & H2 & Hm).
  apply Matches_chr_inv in H2 as (c2 & -> & Hc2).
  apply char_eq_exact in Hc2; [|now left]. subst c2.
  exists w1, (v2 ++ rest). cbn [app]. now rewrite <- !app_assoc.
Qed.

Lemma tagless_tail c s : tagless (c :: s) = true -> tagless s = true.
Proof. cbn [tagless]. intros H. now apply andb_prop in H. Qed.

Lemma tagless_free bef aft i :
  tagless aft = true -> match_at fl_g Image.tagRegex bef aft i = None.
Proof.
  intros H. destruct (match_at fl_g Image.tagRegex bef aft i) as [e|] eqn:He; auto.
  apply tag_sound in He as (w & rest & ->).
  cbn [tagless] in H. apply andb_prop in H as [H _].
  rewrite Ascii.eqb_refl in H. cbn [negb orb] in H.
  unfold lacks in H. rewrite forallb_app in H.
  apply andb_prop in H as [_ H]. cbn [forallb] in H.
  now rewrite Ascii.eqb_refl in H.
Qed.

Lemma lacks_tagless s : lacks ">"%char s = true -> tagless s = true.
Proof.
  induction s as [|c s IH]; intros H; [reflexivity|].
  cbn [lacks forallb] in H. apply andb_prop in H as [_ H].
  cbn [tagless]. fold (lacks ">"%char s) in H. now rewrite H, orb_true_r, IH.
Qed.

Lemma lacks_close_free bef aft i :
  lacks ">"%char aft = true -> match_at fl_g Image.tagRegex bef aft i = None.
Proof. intros H. now apply tagless_free, lacks_tagless. Qed.

Lemma lacks_tail x c s : lacks x (c :: s) = true -> lacks x s = true.
Proof. cbn [lacks forallb]. intros H. now apply andb_prop in H. Qed.

Section Strip.
Let fn : match_result -> unit -> jsstring * unit := fun _ u => ([], u).

Lemma strip_go_tagless n : forall aft bef i,
  length aft <= n ->
  tagless (fst (replace_go fl_g Image.tagRegex fn bef aft i 0 tt)) = true.
Proof.
  induction n as [|n IH]; intros aft bef i Hn.
  - destruct aft; [|cbn [length] in Hn; lia]. cbn [replace_go].
    now destruct (match_at fl_g Image.tagRegex bef [] i).
  - destruct (match_at fl_g Image.tagRegex bef aft i) as [e|] eqn:He.
    + destruct (tag_sound _ _ _ _ He) as (w & rest & ->).
      destruct (first_close (w ++ ">"%char :: rest)) as (w' & rest' & Heq & Hw').
      { unfold lacks. rewrite forallb_app. cbn [forallb].
        rewrite Ascii.eqb_refl. cbn [negb andb]. apply andb_false_r. }
      rewrite Heq in He |- *.
      destruct (tag_match bef w' rest' i Hw') as (e' & He' & Hidx).
      rewrite He' in He. injection He as <-.
      rewrite (replace_go_hit fl_g Image.tagRegex unit fn bef _ i tt e'
                 ("<"%char :: w' ++ [">"%char]) rest' He');
        [| cbn [app]; now rewrite <- app_assoc | discriminate | exact Hidx].
      cbn [fn]. specialize (IH rest' (rev ("<"%char :: w' ++ [">"%char]) ++ bef)
                               (length ("<"%char :: w' ++ [">"%char]) + i)).
      destruct (replace_go _ _ _ _ rest' _ _ _) as [out []].
      cbn [fst app] in *. apply IH.
      apply (f_equal (@length ascii)) in Heq.
      cbn [length] in Hn. rewrite Heq, length_app in Hn. cbn [length] in Hn. lia.
    + destruct aft as [|c aft]; cbn [replace_go]; rewrite He; [reflexivity|].
      pose proof (IH aft (c :: bef) (S i)) as IHa.
      destruct (replace_go fl_g Image.tagRegex fn (c :: bef) aft (S i) 0 tt)
        as [out []] eqn:Hout.
      cbn [fst] in *. cbn [tagless]. rewrite IHa by (cbn [length] in Hn; lia).
      rewrite andb_true_r.
      destruct (Ascii.eqb c "<"%char) eqn:Ec; [|reflexivity].
      apply Ascii.eqb_eq in Ec. subst c. cbn [negb orb].
      destruct (lacks ">"%char aft) eqn:Hl.
      * rewrite (replace_go_free fl_g Image.tagRegex unit fn
                   (fun s => lacks ">"%char s = true)
                   (lacks_tail ">"%char) lacks_close_free) in Hout by exact Hl.
        injection Hout as <-. exact Hl.
      * destruct (first_close aft Hl) as (w & rest & -> & Hw).
        destruct (tag_match bef w rest i Hw) as (e & He2 & _).
        rewrite He2 in He. discriminate He.
Qed.
End Strip.

Lemma stripHtmlTags_tagless s : tagless (Image.stripHtmlTags s) = true.
Proof.
  unfold Image.stripHtmlTags, replace_str, replace_fn.
  now apply (strip_go_tagless (length s)).
Qed.

Lemma stripHtmlTags_id s : tagless s = true -> Image.stripHtmlTags s = s.
Proof.
  intros H. unfold Image.stripHtmlTags, replace_str.
  now rewrite (replace_fn_free fl_g Image.tagRegex unit _ (fun s => tagless s = true)
                 tagless_tail tagless_free).
Qed.

(** * The white space around the body of an embed block *)

Lemma edge_class c :
  cls_match fl_g false [CChar LF; CChar CR; CSpace] c = is_space c.
Proof.
  unfold cls_match. cbn [existsb citem_match xorb]. unfold char_eq.
  cbn [ignoreCase fl_g].
  destruct (Ascii.eqb LF c) eqn:E1.
  { apply Ascii.eqb_eq in E1. now subst. }
  destruct (Ascii.eqb CR c) eqn:E2.
  { apply Ascii.eqb_eq in E2. now subst. }
  cbn [orb]. now rewrite orb_false_r.
Qed.

Lemma edge_class_all w :
  forallb (cls_match fl_g false [CChar LF; CChar CR; CSpace]) w = forallb is_space w.
Proof.
  induction w as [|c w IH]; [reflexivity|].
  cbn [forallb]. now rewrite edge_class, IH.
Qed.

Lemma Matches_alt_inv fl r1 r2 bef w rest :
  Matches fl (Alt r1 r2) bef w rest ->
  Matches fl r1 bef w rest \/ Matches fl r2 bef w rest.
Proof. intros H. inversion H; subst; auto. Qed.

Lemma ok_alt_r fl r1 r2 s k z :
  rmatch fl r1 s k = None -> rmatch fl r2 s k = Some z ->
  rmatch fl (Alt r1 r2) s k = Some z.
Proof. cbn [rmatch]. now intros -> ->. Qed.

(** A match of the pattern is white space at the start of the text, or
    white space up to its end. *)
Lemma edge_sound bef aft i e :
  match_at fl_g Embed.edgeSpaceRegex bef aft i = Some e ->
  (bef = [] /\ exists c t, aft = c :: t /\ is_space c = true) \/
  (aft <> [] /\ forallb is_space aft = true).
Proof.
  intros He. apply match_at_sound in He as (w & rest & -> & Hm & _).
  unfold Embed.edgeSpaceRegex in Hm. cbn [seq fold_right] in Hm.
  apply Matches_alt_inv in Hm as [Hm|Hm].
  - left. apply Matches_seq_inv in Hm as (w0 & v0 & -> & H0 & Hm).
    apply Matches_bol_inv in H0 as [-> Hb].
    apply Matches_seq_inv in Hm as (w1 & v1 & -> & H1 & _).
    apply Matches_plus_cls in H1 as [Hne Hall].
    split.
    + destruct bef; [reflexivity|discriminate Hb].
    + destruct w1 as [|c w1]; [congruence|]. exists c, (w1 ++ v1 ++ rest).
      cbn [app forallb] in *. apply andb_prop in Hall as [Hc _].
      rewrite edge_class in Hc. rewrite <- app_assoc. auto.
  - right. apply Matches_seq_inv in Hm as (w1 & v1 & -> & H1 & Hm).
    apply Matches_plus_cls in H1 as [Hne Hall].
    apply Matches_seq_inv in Hm as (w2 & v2 & -> & H2 & Hm).
    apply Matches_eol_inv in H2 as [-> He].
    apply Matches_eps_inv in Hm. subst v2.
    destruct rest; [|discriminate He]. cbn [app]. rewrite !app_nil_r.
    split; [exact Hne|]. now rewrite <- edge_class_all.
Qed.

(** The white space at the start of the text. *)
Lemma edge_lead c lead rest i :
  forallb is_space (c :: lead) = true ->
  starts_clean rest ->
  exists e,
    match_at fl_g Embed.edgeSpaceRegex [] ((c :: lead) ++ rest) i = Some e /\
    idx e = length (c :: lead) + i.
Proof.
  intros Hl Hr. eexists. split.
  - unfold match_at, Embed.edgeSpaceRegex. cbn [seq fold_right].
    apply ok_alt_l, ok_seq, ok_bol; [reflexivity|].
    apply ok_seq.
    apply (ok_plus_cls _ _ _ _ _ _ c lead rest).
    + reflexivity.
    + now rewrite edge_class_all.
    + destruct rest as [|d rest]; [reflexivity|].
      cbn [stops]. rewrite edge_class. cbn [starts_clean] in Hr. now rewrite Hr.
    + apply ok_eps. reflexivity.
  - reflexivity.
Qed.

(** The white space at the end of the text. *)
Lemma edge_trail b bef c trail i :
  forallb is_space (c :: trail) = true ->
  exists e,
    match_at fl_g Embed.edgeSpaceRegex (b :: bef) (c :: trail) i = Some e /\
    idx e = length (c :: trail) + i.
Proof.
  intros Hl. eexists. split.
  - unfold match_at, Embed.edgeSpaceRegex. cbn [seq fold_right].
    apply ok_alt_r; [reflexivity|].
    apply ok_seq.
    apply (ok_plus_cls _ _ _ _ _ _ c trail []).
    + cbn [after]. now rewrite app_nil_r.
    + now rewrite edge_class_all.
    + reflexivity.
    + apply ok_seq, ok_eol; [reflexivity|]. apply ok_eps. reflexivity.
  - reflexivity.
Qed.

Section Edge.
Let fn : match_result -> unit -> jsstring * unit := fun _ u => ([], u).

Lemma edge_end b bef i :
  replace_go fl_g Embed.edgeSpaceRegex fn (b :: bef) [] i 0 tt = ([], tt).
Proof.
  cbn [replace_go].
  destruct (match_at fl_g Embed.edgeSpaceRegex (b :: bef) [] i) as [e|] eqn:He;
    [|reflexivity].
  apply edge_sound in He as [[H _]|[H _]]; [discriminate H|congruence].
Qed.

(** From a text that starts and ends without white space, nothing is
    taken but the white space after it. *)
Lemma edge_core c core trail bef i :
  starts_clean (c :: core) -> starts_clean (rev (c :: core)) ->
  forallb is_space trail = true ->
  replace_go fl_g Embed.edgeSpaceRegex fn bef ((c :: core) ++ trail) i 0 tt
  = (c :: core, tt).
Proof.
  intros Hs He Ht.
  rewrite replace_go_pass.
  - assert (Hend : replace_go fl_g Embed.edgeSpaceRegex fn
                     (rev (c :: core) ++ bef) trail
                     (length (c :: core) + i) 0 tt = ([], tt)).
    { destruct (rev (c :: core)) as [|b l] eqn:Hr.
      { apply (f_equal (@length ascii)) in Hr. rewrite length_rev in Hr.
        discriminate Hr. }
      cbn [app]. destruct trail as [|d trail]; [apply edge_end|].
      destruct (edge_trail b (l ++ bef) d trail (length (c :: core) + i) Ht)
        as (e & Hm & Hidx).
      rewrite (replace_go_hit fl_g Embed.edgeSpaceRegex unit fn _ _ _ tt e
                 (d :: trail) [] Hm);
        [| now rewrite app_nil_r | discriminate | exact Hidx].
      cbn [fn]. destruct (rev (d :: trail) ++ b :: l ++ bef) as [|b' bef'] eqn:E.
      { apply (f_equal (@length ascii)) in E.
        rewrite length_app in E. cbn [length] in E. lia. }
      now rewrite edge_end. }
    rewrite Hend. now rewrite app_nil_r.
  - intros p d t i' Heq.
    destruct (match_at fl_g Embed.edgeSpaceRegex (rev p ++ bef) (d :: t ++ trail) i')
      as [e|] eqn:Hm; [|reflexivity].
    exfalso. apply edge_sound in Hm as [[Hb (x & y & Hx & Hsp)]|[_ Hall]].
    + injection Hx as <- _. destruct p as [|p0 p].
      * cbn [app] in Heq. injection Heq as -> _.
        cbn [starts_clean] in Hs. congruence.
      * cbn [rev] in Hb. destruct (rev p); discriminate Hb.
    + change (d :: t ++ trail) with ((d :: t) ++ trail) in Hall.
      rewrite forallb_app in Hall. apply andb_prop in Hall as [Hall _].
      assert (Hlast : forallb is_space (rev (c :: core)) = true).
      { rewrite Heq, rev_app_distr, forallb_app.
        rewrite forallb_forall in Hall.
        assert (Hrev : forallb is_space (rev (d :: t)) = true).
        { apply forallb_forall. intros x Hx. apply Hall. now apply in_rev. }
        rewrite Hrev. cbn [andb].
        destruct (rev (d :: t)) as [|z l] eqn:Hz.
        { apply (f_equal (@length ascii)) in Hz. rewrite length_rev in Hz.
          discriminate Hz. }
        exfalso. rewrite Heq, rev_app_distr, Hz in He.
        cbn [app starts_clean] in He. cbn [forallb] in Hrev.
        apply andb_prop in Hrev as [Hz' _]. congruence. }
      destruct (rev (c :: core)) as [|z l] eqn:Hz.
      { apply (f_equal (@length ascii)) in Hz. rewrite length_rev in Hz.
        discriminate Hz. }
      cbn [starts_clean] in He. cbn [forallb] in Hlast.
      apply andb_prop in Hlast as [Hz' _]. congruence.
Qed.
End Edge.

(** Taking the white space off both ends with the pattern is trimming. *)
Lemma edge_replace s :
  replace_str fl_g Embed.edgeSpaceRegex [] s = trim s.
Proof.
  unfold replace_str, replace_fn.
  destruct (trimStart_split s) as (lead & Hs & Hlead).
  destruct (trimEnd_split (trimStart s)) as (trail & Ht & Htrail).
  fold (trim s) in Ht. destruct (trim_clean s) as [Hc1 Hc2].
  rewrite Ht in Hs. clear Ht.
  destruct (trim s) as [|c core] eqn:Hcore.
  - cbn [app] in Hs.
    assert (Hall : forallb is_space s = true)
      by (rewrite Hs, forallb_app, Hlead, Htrail; reflexivity).
    clear Hs. destruct s as [|d s].
    + cbn [replace_go].
      destruct (match_at fl_g Embed.edgeSpaceRegex [] [] 0) as [e|] eqn:He;
        [|reflexivity].
      apply edge_sound in He as [(_ & x & y & Hx & _)|[H _]];
        [discriminate Hx|congruence].
    + destruct (edge_lead d s [] 0 Hall I) as (e & Hm & Hidx).
      rewrite app_nil_r in Hm.
      rewrite (replace_go_hit fl_g Embed.edgeSpaceRegex unit _ _ _ _ tt e
                 (d :: s) [] Hm);
        [| now rewrite app_nil_r | discriminate | exact Hidx].
      destruct (rev (d :: s) ++ []) as [|b bef] eqn:E.
      { apply (f_equal (@length ascii)) in E.
        rewrite length_app, length_rev in E. discriminate E. }
      now rewrite edge_end.
  - rewrite Hs. destruct lead as [|d lead].
    + cbn [app]. change (c :: core ++ trail) with ((c :: core) ++ trail).
      now rewrite edge_core.
    + destruct (edge_lead d lead ((c :: core) ++ trail) 0 Hlead Hc1)
        as (e & Hm & Hidx).
      rewrite (replace_go_hit fl_g Embed.edgeSpaceRegex unit _ _ _ _ tt e
                 (d :: lead) ((c :: core) ++ trail) Hm);
        [| reflexivity | discriminate | exact Hidx].
      now rewrite edge_core.
Qed.

(** * An embed block on lines of its own *)

(** What follows the body in the block pattern starts at the start of a
    line, with white space and the opening of a directive. *)
Lemma tail_opens fl i r st k z :
  rmatch fl (Seq Bol (Seq (Grp i (star ws)) (Seq (lit "{%") r))) st k = Some z ->
  at_bol fl (before st) = true /\
  exists sp x, forallb is_space sp = true /\ after st = sp ++ js "{%" ++ x.
Proof.
  intros H. apply rmatch_sound in H as (w & rest & Ha & Hm & _).
  apply Matches_seq_inv in Hm as (w0 & v0 & -> & H0 & Hm).
  apply Matches_bol_inv in H0 as [-> Hbol].
  apply Matches_seq_inv in Hm as (w1 & v1 & -> & H1 & Hm).
  apply Matches_grp_inv, Matches_star_ws in H1.
  apply Matches_seq_inv in Hm as (w2 & v2 & -> & H2 & Hm).
  apply Matches_lit_exact in H2; [|now right]. subst w2.
  split; [exact Hbol|]. exists w1, (v2 ++ rest). split; [exact H1|].
  rewrite Ha. cbn [app]. now rewrite <- !app_assoc.
Qed.

Lemma clean_end_nonspace b1 b2 :
  starts_clean (rev (b1 ++ b2)) -> b2 <> [] -> forallb is_space b2 = false.
Proof.
  intros Hc Hne. rewrite rev_app_distr in Hc.
  destruct (rev b2) as [|c t] eqn:Hr.
  - apply (f_equal (@rev ascii)) in Hr. rewrite rev_involutive in Hr. contradiction.
  - cbn [app starts_clean] in Hc.
    destruct (forallb is_space b2) eqn:E; [|reflexivity].
    rewrite forallb_forall in E. rewrite <- (E c); [exact Hc|].
    apply in_rev. rewrite Hr. now left.
Qed.

Lemma clean_end_last b :
  b <> [] -> starts_clean (rev b) ->
  exists c t, rev b = c :: t /\ is_space c = false.
Proof.
  intros Hne Hc. destruct (rev b) as [|c t] eqn:Hr.
  - apply (f_equal (@rev ascii)) in Hr. rewrite rev_involutive in Hr. contradiction.
  - now exists c, t.
Qed.

Lemma space_line_terminator c : is_line_terminator c = true -> is_space c = true.
Proof.
  unfold is_line_terminator, is_space, in_range. intros H.
  apply orb_prop in H as [H|H]; apply Nat.eqb_eq in H; rewrite H; reflexivity.
Qed.

(** The end marker is not found before the line after the body. *)
Lemma inner_not_earlier i r body w1 w2 c0 bef0 st k :
  body <> [] -> starts_clean (rev body) -> lacks "%"%char body = true ->
  LF :: body ++ [LF] = w1 ++ w2 -> w2 <> [] ->
  is_line_terminator c0 = false ->
  before st = rev w1 ++ c0 :: bef0 ->
  after st = w2 ++ js "{% endembed %}" ->
  rmatch fl_mi (Seq Bol (Seq (Grp i (star ws)) (Seq (lit "{%") r))) st k = None.
Proof.
  intros Hne Hclean Hp Heq Hw2 Hc0 Hb Ha.
  destruct (rmatch fl_mi _ st k) as [z|] eqn:Hr; [exfalso|reflexivity].
  apply tail_opens in Hr as (Hbol & sp & x & Hsp & Hx).
  rewrite Hb in Hbol. rewrite Ha in Hx.
  destruct w1 as [|c w1].
  - cbn [rev app at_bol] in Hbol. rewrite Hc0 in Hbol.
    now rewrite andb_false_r in Hbol.
  - cbn [app] in Heq. injection Heq as <- Heq.
    destruct (exists_last Hw2) as (w2' & d & ->).
    rewrite app_assoc in Heq. apply app_inj_tail in Heq as [Hbody <-].
    destruct w2' as [|d w2'].
    + rewrite app_nil_r in Hbody. subst w1.
      destruct (clean_end_last body Hne Hclean) as (c & t & Hrev & Hc).
      cbn [rev] in Hbol. rewrite Hrev in Hbol. cbn [app at_bol] in Hbol.
      apply andb_prop in Hbol as [_ Hlt].
      apply space_line_terminator in Hlt. congruence.
    + apply (no_open ((d :: w2') ++ [LF]) (js "{% endembed %}") [] sp x).
      * rewrite forallb_app, (clean_end_nonspace w1 (d :: w2')); auto.
        -- now rewrite <- Hbody.
        -- discriminate.
      * unfold no_directive. change (js "{%") with ["{"%char; "%"%char].
        apply lacks_second. rewrite lacks_app.
        rewrite Hbody, lacks_app in Hp. apply andb_prop in Hp as [_ Hp].
        now rewrite Hp.
      * reflexivity.
      * exact Hsp.
      * rewrite app_nil_r, <- Hx. reflexivity.
Qed.

Lemma at_bol_after_line c body x :
  at_bol fl_mi (rev (c :: body ++ [LF]) ++ x) = true.
Proof. cbn [rev]. now rewrite rev_app_distr. Qed.

(** The block pattern at a directive with a url, a body on lines of its
    own and the end marker. *)
Lemma blockRegex_match u body :
  lacks "%"%char u = true ->
  body <> [] -> starts_clean (rev body) -> lacks "%"%char body = true ->
  let attrText := js " url=`" ++ u ++ js "` " in
  let inner := LF :: body ++ [LF] in
  let close := js "{% endembed %}" in
  let text := js "{% embed" ++ attrText ++ js "%}" ++ inner ++ close in
  exists e,
    match_at fl_mi Embed.blockRegex [] text 0 = Some e /\
    idx e = length text + 0 /\
    caps e = [(4, (close, close));
              (3, (inner ++ close, close));
              (2, (attrText ++ js "%}" ++ inner ++ close,
                   js "%}" ++ inner ++ close));
              (1, (text, text))].
Proof.
  intros Hu Hne Hclean Hp attrText inner close text.
  subst attrText inner close text. eexists. split; [|split].
  - unfold match_at, Embed.blockRegex. cbn [seq fold_right].
    apply ok_seq, ok_bol; [reflexivity|].
    apply ok_seq, ok_grp.
    apply (ok_star_cls _ _ _ _ _ _ []
             (js "{% embed" ++ (js " url=`" ++ u ++ js "` ") ++ js "%}"
              ++ (LF :: body ++ [LF]) ++ js "{% endembed %}"));
      [reflexivity | reflexivity | reflexivity |].
    apply ok_seq.
    apply (ok_lit _ _ _ _ _ (js "{%")
             (js " embed" ++ (js " url=`" ++ u ++ js "` ") ++ js "%}"
              ++ (LF :: body ++ [LF]) ++ js "{% endembed %}"));
      [reflexivity | reflexivity |].
    apply ok_seq.
    apply (ok_star_cls _ _ _ _ _ _ (js " ")
             (js "embed" ++ (js " url=`" ++ u ++ js "` ") ++ js "%}"
              ++ (LF :: body ++ [LF]) ++ js "{% endembed %}"));
      [reflexivity | reflexivity | reflexivity |].
    apply ok_seq.
    apply (ok_lit _ _ _ _ _ (js "embed")
             ((js " url=`" ++ u ++ js "` ") ++ js "%}"
              ++ (LF :: body ++ [LF]) ++ js "{% endembed %}"));
      [reflexivity | reflexivity |].
    apply ok_seq, ok_wordb; [reflexivity|].
    apply ok_seq, ok_grp.
    apply (ok_star_cls _ _ _ _ _ _ (js " url=`" ++ u ++ js "` ")
             (js "%}" ++ (LF :: body ++ [LF]) ++ js "{% endembed %}")).
    + reflexivity.
    + rewrite !forallb_app. unfold none_of. cbn [map].
      rewrite (lacks_none_of _ _ u); auto.
    + reflexivity.
    + apply ok_seq.
      apply (ok_lit _ _ _ _ _ (js "%}")
               ((LF :: body ++ [LF]) ++ js "{% endembed %}"));
        [reflexivity | reflexivity |].
      apply ok_seq, ok_grp.
      apply (ok_lazy_cls _ _ _ _ _ _ (LF :: body ++ [LF]) (js "{% endembed %}"));
        [reflexivity | apply forallb_any | |].
      * intros w1 w2 Heq Hw2. cbv beta.
        eapply (inner_not_earlier 4 _ body w1 w2 "}"%char);
          [exact Hne | exact Hclean | exact Hp | exact Heq | exact Hw2
          | reflexivity | reflexivity | reflexivity].
      * apply ok_seq, ok_bol.
        { cbn [before set_cap moved]. apply at_bol_after_line. }
        apply ok_seq, ok_grp.
        apply (ok_star_cls _ _ _ _ _ _ [] (js "{% endembed %}"));
          [reflexivity | reflexivity | reflexivity |].
        apply ok_seq.
        apply (ok_lit _ _ _ _ _ (js "{%") (js " endembed %}"));
          [reflexivity | reflexivity |].
        apply ok_seq.
        apply (ok_star_cls _ _ _ _ _ _ (js " ") (js "endembed %}"));
          [reflexivity | reflexivity | reflexivity |].
        apply ok_seq.
        apply (ok_lit _ _ _ _ _ (js "endembed") (js " %}"));
          [reflexivity | reflexivity |].
        apply ok_seq.
        apply (ok_star_cls _ _ _ _ _ _ (js " ") (js "%}"));
          [reflexivity | reflexivity | reflexivity |].
        apply ok_seq.
        apply (ok_lit _ _ _ _ _ (js "%}") []); [reflexivity | reflexivity |].
        apply ok_eps. reflexivity.
  - cbn [idx moved set_cap advance].
    rewrite !length_app. cbn [length js map list_ascii_of_string].
    rewrite !length_app. cbn [length]. lia.
  - reflexivity.
Qed.

Lemma trim_lines body :
  body <> [] -> starts_clean body -> starts_clean (rev body) ->
  trim (LF :: body ++ [LF]) = body.
Proof.
  intros Hne H1 H2. unfold trim.
  change (LF :: body ++ [LF]) with ([LF] ++ body ++ [LF]).
  rewrite trimStart_ws_app by reflexivity.
  rewrite trimStart_id by now apply starts_clean_app.
  unfold trimEnd. rewrite rev_app_distr. cbn [rev app].
  rewrite trimStart_head_space by reflexivity.
  rewrite trimStart_id by exact H2. apply rev_involutive.
Qed.

Lemma block_forms u body :
  js "{% embed url=`" ++ u ++ js "` %}" ++ LF :: body ++ LF :: js "{% endembed %}"
  = js "{% embed" ++ (js " url=`" ++ u ++ js "` ") ++ js "%}"
    ++ (LF :: body ++ [LF]) ++ js "{% endembed %}".
Proof. cbn [app]. now rewrite <- !app_assoc. Qed.

(** * A greedy star that gives characters back *)

(** When what follows in the pattern fails wherever the star may stop,
    the star fails. *)
Lemma repeat_greedy_fail fl neg items k w : forall fuel s rest,
  length w < fuel ->
  after s = w ++ rest ->
  forallb (cls_match fl neg items) w = true ->
  stops fl neg items rest = true ->
  (forall v1 v2, w = v1 ++ v2 -> k (moved s v1 (v2 ++ rest)) = None) ->
  repeat_matcher (rmatch fl (Cls neg items)) [] true fuel 0 None s k = None.
Proof.
  induction w as [|c w IH]; intros fuel s rest Hf Ha Hw Hr Hk;
    (destruct fuel as [|fuel]; [cbn [length] in Hf; lia|]);
    rewrite repeat_step; cbv zeta; rewrite Ha; cbn [app].
  - cbn [app] in Ha. pose proof (Hk [] [] eq_refl) as H0.
    cbn [app] in H0. rewrite <- Ha, moved_nil in H0.
    destruct rest as [|d r]; [exact H0|].
    cbn [stops] in Hr. apply negb_true_iff in Hr. now rewrite Hr.
  - cbn [forallb length] in Hw, Hf. apply andb_prop in Hw as [Hc Hw]. rewrite Hc.
    rewrite (IH fuel (advance c (w ++ rest) s) rest); auto; try lia.
    + pose proof (Hk [] (c :: w) eq_refl) as H0.
      now rewrite <- Ha, moved_nil in H0.
    + intros v1 v2 ->. specialize (Hk (c :: v1) v2 eq_refl).
      rewrite <- Hk, <- moved_cons. now rewrite <- app_assoc.
Qed.

(** The star stops where what follows in the pattern succeeds, when it
    fails wherever the star could have read further. *)
Lemma repeat_greedy_back fl neg items k z w : forall w' fuel s rest,
  length (w ++ w') < fuel ->
  after s = w ++ w' ++ rest ->
  forallb (cls_match fl neg items) (w ++ w') = true ->
  stops fl neg items rest = true ->
  (forall v1 v2, w' = v1 ++ v2 -> v1 <> [] ->
                 k (moved s (w ++ v1) (v2 ++ rest)) = None) ->
  k (moved s w (w' ++ rest)) = Some z ->
  repeat_matcher (rmatch fl (Cls neg items)) [] true fuel 0 None s k = Some z.
Proof.
  induction w as [|c w IH]; intros w' fuel s rest Hf Ha Hw Hr Hn Hk;
    (destruct fuel as [|fuel]; [cbn [length] in Hf; lia|]);
    rewrite repeat_step; cbv zeta; rewrite Ha; cbn [app].
  - cbn [app] in Ha, Hw, Hf, Hk. rewrite <- Ha, moved_nil in Hk.
    destruct w' as [|c w'].
    + cbn [app]. destruct rest as [|d r]; [exact Hk|].
      cbn [stops] in Hr. apply negb_true_iff in Hr. now rewrite Hr.
    + cbn [app forallb length] in *. apply andb_prop in Hw as [Hc Hw]. rewrite Hc.
      rewrite (repeat_greedy_fail fl neg items k w' fuel
                 (advance c (w' ++ rest) s) rest); auto; try lia.
      intros v1 v2 ->. specialize (Hn (c :: v1) v2 eq_refl).
      cbn [app] in Hn. rewrite <- Hn by discriminate.
      rewrite <- moved_cons. now rewrite <- app_assoc.
  - cbn [app forallb length] in Hw, Hf. apply andb_prop in Hw as [Hc Hw].
    rewrite Hc.
    rewrite (IH w' fuel (advance c (w ++ w' ++ rest) s) rest);
      [reflexivity | lia | reflexivity | exact Hw | exact Hr | |].
    + intros v1 v2 Hv Hne. specialize (Hn v1 v2 Hv Hne).
      rewrite <- Hn. cbn [app]. rewrite <- moved_cons. now rewrite <- !app_assoc.
    + rewrite moved_cons. exact Hk.
Qed.

Lemma ok_star_cls_back fl neg items s k z w w' rest :
  after s = w ++ w' ++ rest ->
  forallb (cls_match fl neg items) (w ++ w') = true ->
  stops fl neg items rest = true ->
  (forall v1 v2, w' = v1 ++ v2 -> v1 <> [] ->
                 k (moved s (w ++ v1) (v2 ++ rest)) = None) ->
  k (moved s w (w' ++ rest)) = Some z ->
  rmatch fl (star (Cls neg items)) s k = Some z.
Proof.
  intros Ha Hw Hr Hn Hk. unfold star. rewrite rmatch_rep. cbn [groups].
  apply (repeat_greedy_back fl neg items k z w w' _ s rest); auto.
  rewrite Ha, !length_app. cbn [Nat.add]. lia.
Qed.

(** * An Arcade iframe that is the whole text *)

(** After the source attribute, white space and [src=] come again only
    where the text has them. *)
Lemma no_later_src U R v1 v2 c0 wsrc x :
  " "%char :: "s"%char :: "r"%char :: "c"%char :: "="%char :: DQ :: U = v1 ++ v2 ->
  v1 <> [] ->
  v2 ++ ">"%char :: R = c0 :: wsrc ++ x ->
  is_space c0 = true ->
  toLowerCase wsrc = ["s"%char; "r"%char; "c"%char; "="%char] ->
  includes (toLowerCase U) ["s"%char; "r"%char; "c"%char; "="%char] = true.
Proof.
  intros Hs Hne Hv Hc Hw.
  destruct wsrc as [|a1 [|a2 [|a3 [|a4 [|a5 wsrc]]]]]; try discriminate Hw.
  cbn [toLowerCase map] in Hw. injection Hw as H1 H2 H3 H4.
  destruct v1 as [|b1 v1]; [congruence|].
  do 5 (destruct v1 as [|? v1];
        [cbn [app] in Hs; inversion Hs; subst; cbn [app] in Hv;
         inversion Hv; subst; vm_compute in Hc; discriminate Hc|]).
  cbn [app] in Hs. inversion Hs; subst. clear Hs Hne.
  destruct v2 as [|d0 v2];
    [cbn [app] in Hv; inversion Hv; subst; vm_compute in Hc; discriminate Hc|].
  destruct v2 as [|d1 v2];
    [cbn [app] in Hv; inversion Hv; subst; vm_compute in H1; discriminate H1|].
  destruct v2 as [|d2 v2];
    [cbn [app] in Hv; inversion Hv; subst; vm_compute in H2; discriminate H2|].
  destruct v2 as [|d3 v2];
    [cbn [app] in Hv; inversion Hv; subst; vm_compute in H3; discriminate H3|].
  destruct v2 as [|d4 v2];
    [cbn [app] in Hv; inversion Hv; subst; vm_compute in H4; discriminate H4|].
  cbn [app] in Hv. inversion Hv; subst.
  unfold toLowerCase. rewrite map_app. cbn [map]. rewrite H1, H2, H3, H4.
  change (map lower_char v1 ++ lower_char c0 :: "s"%char :: "r"%char :: "c"%char :: "="%char :: map lower_char v2)
    with (map lower_char v1 ++ [lower_char c0] ++ ["s"%char; "r"%char; "c"%char; "="%char] ++ map lower_char v2).
  rewrite app_assoc. apply includes_middle.
Qed.

Lemma src_not_later r st k U R v1 v2 :
  js " src=`" ++ U = v1 ++ v2 -> v1 <> [] ->
  after st = v2 ++ ">"%char :: R ->
  includes (toLowerCase U) (js "src=") = false ->
  rmatch fl_mi (Seq ws (Seq (lit "src=") r)) st k = None.
Proof.
  intros Hs Hne Ha Hno.
  destruct (rmatch fl_mi _ st k) as [z|] eqn:Hr; [exfalso|reflexivity].
  apply rmatch_sound in Hr as (w & rest & Hw & Hm & _).
  apply Matches_seq_inv in Hm as (w0 & w1 & -> & H0 & Hm).
  apply Matches_cls_inv in H0 as (c0 & -> & Hc). rewrite cls_space in Hc.
  apply Matches_seq_inv in Hm as (w2 & w3 & -> & H2 & _).
  apply Matches_chars_inv, chars_eq_lower in H2.
  rewrite Ha in Hw. cbn [app] in Hw. rewrite <- app_assoc in Hw.
  pose proof (no_later_src U R v1 v2 c0 w2 (w3 ++ rest) Hs Hne Hw Hc H2) as Hyes.
  exact (eq_true_false_abs _ Hyes Hno).
Qed.

(** The end tag is not found where the text has no [<]. *)
Lemma close_not_earlier r st k w1 w2 rest :
  lacks "<"%char (w1 ++ w2) = true -> w2 <> [] ->
  after st = w2 ++ rest ->
  rmatch fl_mi (Seq (lit "</iframe>") r) st k = None.
Proof.
  intros Hl Hne Ha. destruct w2 as [|d w2]; [congruence|].
  rewrite lacks_app in Hl. apply andb_prop in Hl as [_ Hl].
  cbn [lacks forallb] in Hl. apply andb_prop in Hl as [Hd _].
  change (lit "</iframe>") with (Seq (Chr "<"%char) (lit "/iframe>")).
  cbn [rmatch]. rewrite Ha. cbn [app].
  now rewrite (lacks_char_eq fl_mi "<"%char d).
Qed.

Lemma lacks_cons x c s : lacks x (c :: s) = negb (Ascii.eqb x c) && lacks x s.
Proof. reflexivity. Qed.

(** The steps of the pattern over the pieces of the text, for either
    scheme. *)
Ltac iframe_steps indent scheme p0 p b c trail Hind Hq Hgp Hgb Hsrc Hlb Hlc Htrail :=
  unfold match_at, Arcade.iframeRegex; cbn [seq fold_right];
  apply ok_seq, ok_bol; [reflexivity|];
  apply ok_seq, ok_grp;
  eapply (ok_star_cls _ _ _ _ _ _ indent);
    [reflexivity | now apply forallb_space | reflexivity |];
  apply ok_seq;
  eapply (ok_lit _ _ _ _ _ (js "<iframe")); [reflexivity | reflexivity |];
  apply ok_seq, ok_wordb; [reflexivity|];
  apply ok_seq;
  apply (ok_star_cls_back _ _ _ _ _ _ []
           (js " src=`" ++ scheme ++ js "://app.arcade.software/" ++ p0 :: p ++ DQ :: b)
           (">"%char :: c ++ js "</iframe>" ++ trail));
  [ repeat (cbn [app]; rewrite <- app_assoc); reflexivity
  | assert (Hf : forallb (cls_match fl_mi true (map CChar [">"%char]))
                   ((p0 :: p) ++ DQ :: b) = true)
      by (rewrite forallb_app; change (DQ :: b) with ([DQ] ++ b);
          rewrite forallb_app, !(lacks_none_of fl_mi ">"%char) by auto;
          reflexivity);
    exact Hf
  | reflexivity
  | intros v1 v2 Hv Hv1;
    apply (src_not_later _ _ _
             (scheme ++ js "://app.arcade.software/" ++ p0 :: p ++ DQ :: b)
             (c ++ js "</iframe>" ++ trail) v1 v2);
    [exact Hv | exact Hv1 | reflexivity | exact Hsrc]
  | cbv beta; apply ok_seq;
    eapply (ok_cls _ _ _ _ _ _ " "%char);
      [repeat (cbn [app]; rewrite <- app_assoc); reflexivity | reflexivity |];
    apply ok_seq;
    eapply (ok_lit _ _ _ _ _ (js "src=")); [reflexivity | reflexivity |];
    apply ok_seq;
    eapply (ok_cls _ _ _ _ _ _ DQ); [reflexivity | reflexivity |];
    apply ok_seq, ok_grp, ok_seq;
    eapply (ok_lit _ _ _ _ _ (js "http")); [reflexivity | reflexivity |];
    apply ok_seq;
    first [ eapply (ok_opt_chr _ _ _ _ _ "s"%char); [reflexivity | reflexivity |]
          | apply ok_opt_skip; [reflexivity|] ];
    apply ok_seq;
    eapply (ok_lit _ _ _ _ _ (js "://app.arcade.software/"));
      [reflexivity | reflexivity |];
    apply ok_seq;
    eapply (ok_plus_cls _ _ _ _ _ _ p0 p);
      [reflexivity | now apply lacks_none_of | reflexivity |];
    apply ok_eps; cbv beta;
    apply ok_seq;
    eapply (ok_cls _ _ _ _ _ _ DQ); [reflexivity | reflexivity |];
    apply ok_seq;
    apply (ok_lazy_cls _ _ _ _ _ _ (b ++ ">"%char :: c) (js "</iframe>" ++ trail));
    [ repeat (cbn [app]; rewrite <- app_assoc); reflexivity
    | apply forallb_any
    | intros w1 w2 Hw Hw2;
      apply (close_not_earlier _ _ _ w1 w2 (js "</iframe>" ++ trail));
      [ rewrite <- Hw, lacks_app; cbn [lacks forallb];
        fold (lacks "<"%char c); now rewrite Hlb, Hlc
      | exact Hw2 | reflexivity ]
    | apply ok_seq;
      eapply (ok_lit _ _ _ _ _ (js "</iframe>")); [reflexivity | reflexivity |];
      apply ok_seq;
      apply (ok_star_cls _ _ _ _ _ _ trail []);
        [ cbn [after moved]; now rewrite app_nil_r
        | now apply forallb_space | reflexivity |];
      apply ok_seq, ok_eol; [reflexivity|];
      apply ok_eps; reflexivity ] ].

(** The iframe pattern at a text that is one Arcade iframe: white space,
    the tag with the source first, further attributes, the content, the
    end tag and white space to the end of the text. *)
Lemma iframeRegex_match indent (secure : bool) p b c trail :
  forallb is_space indent = true ->
  p <> [] -> lacks DQ p = true -> lacks ">"%char (p ++ b) = true ->
  includes (toLowerCase (p ++ DQ :: b)) (js "src=") = false ->
  lacks "<"%char (b ++ c) = true ->
  forallb is_space trail = true ->
  let url := js (if secure then "https" else "http")%string
               ++ js "://app.arcade.software/" ++ p in
  let tail := DQ :: b ++ ">"%char :: c ++ js "</iframe>" ++ trail in
  let tag := js "<iframe src=`" ++ url ++ tail in
  exists e,
    match_at fl_mi Arcade.iframeRegex [] (indent ++ tag) 0 = Some e /\
    idx e = length (indent ++ tag) + 0 /\
    caps e = [(2, (url ++ tail, tail)); (1, (indent ++ tag, tag))].
Proof.
  intros Hind Hne Hq Hgt Hsrc Hlt Htrail url tail tag.
  destruct p as [|p0 p]; [congruence|].
  rewrite lacks_app in Hgt, Hlt.
  apply andb_prop in Hgt as [Hgp Hgb]. apply andb_prop in Hlt as [Hlb Hlc].
  subst url tail tag.
  destruct secure;
    [pose (scheme := js "https") | pose (scheme := js "http")];
    eexists; (split; [|split]).
  1, 4: iframe_steps indent scheme p0 p b c trail Hind Hq Hgp Hgb Hsrc Hlb Hlc Htrail.
  1, 3: subst scheme; cbn [idx moved set_cap advance];
    rewrite !length_app; cbn [length js map list_ascii_of_string app];
    rewrite !length_app; cbn [length]; rewrite ?length_app; cbn [length]; lia.
  all: reflexivity.
Qed.

(** * Replacing keeps characters out *)

(** A character that neither the text nor the replacements have is not
    in the result. *)
Lemma replace_go_lacks fl r St (fn : match_result -> St -> jsstring * St) x :
  (forall m st, lacks x (fst (fn m st)) = true) ->
  forall aft bef i skip st,
    lacks x aft = true ->
    lacks x (fst (replace_go fl r fn bef aft i skip st)) = true.
Proof.
  intros Hfn. induction aft as [|c aft IH]; intros bef i skip st Ha.
  - destruct skip; cbn [replace_go]; [|reflexivity].
    destruct (match_at fl r bef [] i); [|reflexivity].
    specialize (Hfn (mk_match i [] m) st).
    now destruct (fn _ st).
  - cbn [lacks forallb] in Ha. apply andb_prop in Ha as [Hc Ha].
    fold (lacks x aft) in Ha.
    destruct skip as [|n]; cbn [replace_go]; [|now apply IH].
    destruct (match_at fl r bef (c :: aft) i) as [e|].
    + pose proof (Hfn (mk_match i (c :: aft) e) st) as Hrep.
      destruct (fn _ st) as [rep st1]. cbn [fst] in Hrep.
      destruct (idx e - i) as [|n].
      * specialize (IH (c :: bef) (S i) 0 st1 Ha).
        destruct (replace_go _ _ _ _ _ _ _ _) as [out st2]. cbn [fst] in *.
        rewrite lacks_app, Hrep. cbn [lacks forallb andb].
        fold (lacks x out). now rewrite Hc, IH.
      * specialize (IH (c :: bef) (S i) n st1 Ha).
        destruct (replace_go _ _ _ _ _ _ _ _) as [out st2]. cbn [fst] in *.
        now rewrite lacks_app, Hrep, IH.
    + specialize (IH (c :: bef) (S i) 0 st Ha).
      destruct (replace_go _ _ _ _ _ _ _ _) as [out st2]. cbn [fst] in *.
      cbn [lacks forallb]. fold (lacks x out). now rewrite Hc, IH.
Qed.

Lemma replace_str_lacks fl r x rep s :
  lacks x rep = true -> lacks x s = true ->
  lacks x (replace_str fl r rep s) = true.
Proof.
  intros Hr Hs. unfold replace_str, replace_fn.
  apply replace_go_lacks; auto.
Qed.

(** * Where a literal does not start *)

Lemma clear_nil pat rest : clear_of pat [] rest.
Proof. intros w1 w2 H Hne. now destruct w1, w2. Qed.

Lemma clear_cons pat c a rest :
  startsWith (toLowerCase (c :: a ++ rest)) pat = false ->
  clear_of pat a rest -> clear_of pat (c :: a) rest.
Proof.
  intros Hc Ha w1 w2 Hs Hne. destruct w1 as [|d w1].
  - cbn [app] in Hs. subst w2. exact Hc.
  - cbn [app] in Hs. injection Hs as _ Hs. now apply (Ha w1 w2).
Qed.

Lemma clear_app pat a b rest :
  clear_of pat a (b ++ rest) -> clear_of pat b rest ->
  clear_of pat (a ++ b) rest.
Proof.
  induction a as [|c a IH]; intros Ha Hb; [exact Hb|].
  cbn [app]. apply clear_cons.
  - rewrite <- app_assoc. apply (Ha [] (c :: a)); [reflexivity|discriminate].
  - apply IH; [|exact Hb].
    intros w1 w2 Hs Hne. apply (Ha (c :: w1) w2); [now rewrite Hs|exact Hne].
Qed.

Lemma lower_char_lt c : lower_char c = "<"%char -> c = "<"%char.
Proof.
  destruct c as [[] [] [] [] [] [] [] []]; intros H; try reflexivity;
    discriminate H.
Qed.

(** A pattern that opens with [<] starts nowhere in a text without it. *)
Lemma clear_lacks pat a rest :
  lacks "<"%char a = true -> clear_of ("<"%char :: pat) a rest.
Proof.
  induction a as [|c a IH]; intros Hl; [apply clear_nil|].
  cbn [lacks forallb] in Hl. apply andb_prop in Hl as [Hc Hl].
  apply clear_cons; [|now apply IH].
  cbn [toLowerCase map app startsWith].
  destruct (Ascii.eqb "<"%char (lower_char c)) eqn:E; [|reflexivity].
  apply Ascii.eqb_eq in E. symmetry in E. apply lower_char_lt in E. subst c.
  discriminate Hc.
Qed.

(** A literal fails where the text, in lower case, does not start with
    it. *)
Lemma lit_fails fl pat r st k :
  startsWith (toLowerCase (after st)) (toLowerCase (list_ascii_of_string pat))
    = false ->
  rmatch fl (Seq (lit pat) r) st k = None.
Proof.
  intros Hno. destruct (rmatch fl _ st k) as [z|] eqn:Hr; [exfalso|reflexivity].
  apply rmatch_sound in Hr as (w & rest & Ha & Hm & _).
  apply Matches_seq_inv in Hm as (w1 & w2 & -> & H1 & _).
  apply Matches_chars_inv, chars_eq_lower in H1.
  rewrite Ha in Hno. unfold toLowerCase in Hno, H1.
  rewrite <- app_assoc, map_app, H1 in Hno.
  now rewrite startsWith_app in Hno.
Qed.

(** The search goes over a stretch of the text where the literal that
    opens the pattern does not start. *)
Lemma exec_from_pass fl pat r w : forall bef rest i,
  clear_of (toLowerCase (list_ascii_of_string pat)) w rest ->
  exec_from fl (Seq (lit pat) r) bef (w ++ rest) i =
  exec_from fl (Seq (lit pat) r) (rev w ++ bef) rest (length w + i).
Proof.
  induction w as [|c w IH]; intros bef rest i Hc; [reflexivity|].
  cbn [app exec_from]. unfold match_at at 1.
  rewrite lit_fails.
  - rewrite IH.
    + cbn [rev length]. rewrite <- app_assoc. cbn [app].
      now rewrite Nat.add_succ_r.
    + intros w1 w2 Hs Hne. apply (Hc (c :: w1) w2); [now rewrite Hs|exact Hne].
  - cbn [after]. apply (Hc [] (c :: w)); [reflexivity|discriminate].
Qed.

Lemma startsWith_short s R pat :
  s <> [] ->
  startsWith s ["<"; "/"; "f"; "i"; "g"]%char = false ->
  startsWith (s ++ "<"%char :: R) (["<"; "/"; "f"; "i"; "g"]%char ++ pat) = false.
Proof.
  intros Hne H.
  destruct s as [|c1 [|c2 [|c3 [|c4 [|c5 s]]]]]; [congruence|..];
    cbn [app startsWith] in *.
  - now rewrite andb_false_r.
  - now rewrite !andb_false_r.
  - now rewrite !andb_false_r.
  - now rewrite !andb_false_r.
  - destruct (Ascii.eqb "<" c1); [|reflexivity].
    destruct (Ascii.eqb "/" c2); [|reflexivity].
    destruct (Ascii.eqb "f" c3); [|reflexivity].
    destruct (Ascii.eqb "i" c4); [|reflexivity].
    destruct (Ascii.eqb "g" c5); [|reflexivity].
    discriminate H.
Qed.

(** The end tags of a figure and of its caption start nowhere in a
    caption that has no [</fig], in any case of the letters. *)
Lemma clear_cap pat cap R :
  includes (toLowerCase cap) (js "</fig") = false ->
  clear_of (["<"; "/"; "f"; "i"; "g"]%char ++ pat) cap ("<"%char :: R).
Proof.
  induction cap as [|c cap IH]; intros H; [apply clear_nil|].
  rewrite includes_unfold in H. apply orb_false_elim in H as [H1 H2].
  apply clear_cons; [|now apply IH].
  change (c :: cap ++ "<"%char :: R) with ((c :: cap) ++ "<"%char :: R).
  unfold toLowerCase. rewrite map_app.
  apply (startsWith_short (map lower_char (c :: cap)) (map lower_char R) pat);
    [discriminate | exact H1].
Qed.

(** * A figure with an image and a caption *)

Ltac peel := repeat (apply clear_cons; [reflexivity|]).

(** The image tag of the figure holds the start of no other tag. *)
Lemma img_clear_figure x rest :
  lacks "<"%char x = true ->
  clear_of (js "</figure>") (js "<img " ++ x ++ js "`>") rest.
Proof.
  intros Hx. apply clear_cons; [reflexivity|].
  apply (clear_lacks (js "/figure>") (js "img " ++ x ++ js "`>") rest).
  rewrite !lacks_app. now rewrite Hx.
Qed.

Lemma img_clear_caption x rest :
  lacks "<"%char x = true ->
  clear_of (js "<figcaption") (js "<img " ++ x ++ js "`>") rest.
Proof.
  intros Hx. apply clear_cons; [reflexivity|].
  apply (clear_lacks (js "figcaption") (js "img " ++ x ++ js "`>") rest).
  rewrite !lacks_app. now rewrite Hx.
Qed.

(** The end tag of the figure starts nowhere before the end of the
    caption block. *)
Lemma inner_clear x cap :
  lacks "<"%char x = true ->
  includes (toLowerCase cap) (js "</fig") = false ->
  clear_of (js "</figure>")
    ((js "<img " ++ x ++ js "`>") ++ js "<figcaption>" ++ cap ++ js "</figcaption>")
    (js "</figure>").
Proof.
  intros Hx Hcap.
  apply clear_app; [now apply img_clear_figure|].
  apply (clear_app _ (js "<figcaption>")).
  { peel. apply clear_nil. }
  apply clear_app.
  - apply (clear_cap (js "ure>") cap (js "/figcaption>" ++ js "</figure>") Hcap).
  - peel. apply clear_nil.
Qed.

(** The figure pattern at a text that is one figure. *)
Lemma figureRegex_match x cap :
  lacks "<"%char x = true ->
  includes (toLowerCase cap) (js "</fig") = false ->
  let inner := (js "<img " ++ x ++ js "`>")
                 ++ js "<figcaption>" ++ cap ++ js "</figcaption>" in
  let text := js "<figure>" ++ inner ++ js "</figure>" in
  exists e,
    match_at fl_g Image.figureRegex [] text 0 = Some e /\
    idx e = length text + 0 /\
    caps e = [(1, (inner ++ js "</figure>", js "</figure>"))].
Proof.
  intros Hx Hcap inner text. subst text.
  pose proof (inner_clear x cap Hx Hcap) as Hclear. fold inner in Hclear.
  eexists. split; [|split].
  - unfold match_at, Image.figureRegex. cbn [seq fold_right].
    apply ok_seq.
    eapply (ok_lit _ _ _ _ _ (js "<figure")); [reflexivity | reflexivity |].
    apply ok_seq, ok_wordb; [reflexivity|].
    apply ok_seq.
    eapply (ok_star_cls _ _ _ _ _ _ []);
      [reflexivity | reflexivity | reflexivity |].
    apply ok_seq.
    eapply (ok_chr _ _ _ _ _ ">"%char); [reflexivity | reflexivity |].
    apply ok_seq, ok_grp.
    apply (ok_lazy_cls _ _ _ _ _ _ inner (js "</figure>"));
      [reflexivity | apply forallb_any | |].
    + intros w1 w2 Hs Hne. cbv beta. apply lit_fails.
      exact (Hclear w1 w2 Hs Hne).
    + apply ok_seq.
      eapply (ok_lit _ _ _ _ _ (js "</figure>") []);
        [reflexivity | reflexivity |].
      apply ok_eps. reflexivity.
  - cbn [idx moved set_cap advance].
    rewrite !length_app. cbn [length js map list_ascii_of_string]. lia.
  - reflexivity.
Qed.

(** The caption pattern at the caption block. *)
Lemma captionRegex_match bef cap i :
  includes (toLowerCase cap) (js "</fig") = false ->
  exists e,
    match_at fl_i Image.captionRegex bef
      (js "<figcaption>" ++ cap ++ js "</figcaption>") i = Some e /\
    caps e = [(1, (cap ++ js "</figcaption>", js "</figcaption>"))].
Proof.
  intros Hcap. eexists. split.
  - unfold match_at, Image.captionRegex. cbn [seq fold_right].
    apply ok_seq.
    eapply (ok_lit _ _ _ _ _ (js "<figcaption")); [reflexivity | reflexivity |].
    apply ok_seq, ok_wordb; [reflexivity|].
    apply ok_seq.
    eapply (ok_star_cls _ _ _ _ _ _ []);
      [reflexivity | reflexivity | reflexivity |].
    apply ok_seq.
    eapply (ok_chr _ _ _ _ _ ">"%char); [reflexivity | reflexivity |].
    apply ok_seq, ok_grp.
    apply (ok_lazy_cls _ _ _ _ _ _ cap (js "</figcaption>"));
      [reflexivity | apply forallb_any | |].
    + intros w1 w2 Hs Hne. cbv beta. apply lit_fails.
      exact (clear_cap (js "caption>") cap (js "/figcaption>") Hcap w1 w2 Hs Hne).
    + apply ok_seq.
      eapply (ok_lit _ _ _ _ _ (js "</figcaption>") []);
        [reflexivity | reflexivity |].
      apply ok_eps. reflexivity.
  - reflexivity.
Qed.

(** What the callback of the figure pattern finds in the figure: the
    image tag, the caption and no indentation. *)
Lemma inner_img x cap :
  lacks ">"%char x = true ->
  exists m,
    str_match fl_i Image.imgRegex
      ((js "<img " ++ x ++ js "`>") ++ js "<figcaption>" ++ cap ++ js "</figcaption>")
    = Some m /\
    m_full m = js "<img " ++ x ++ js "`>".
Proof.
  intros Hx.
  destruct (imgRegex_match [] (js " " ++ x ++ [DQ])
              (js "<figcaption>" ++ cap ++ js "</figcaption>") 0)
    as (e & Hm & Hi).
  { rewrite !lacks_app. now rewrite Hx. }
  { reflexivity. }
  assert (Hf : (js "<img " ++ x ++ js "`>") ++ js "<figcaption>" ++ cap ++ js "</figcaption>"
               = js "<img" ++ (js " " ++ x ++ [DQ]) ++ js ">"
                 ++ js "<figcaption>" ++ cap ++ js "</figcaption>").
  { cbn [app]. rewrite <- !app_assoc. reflexivity. }
  rewrite Hf. eexists. split.
  - unfold str_match. apply exec_from_hit. exact Hm.
  - unfold mk_match. cbn [m_full]. rewrite Hi, Nat.add_0_r, Nat.sub_0_r.
    replace (js "<img" ++ (js " " ++ x ++ [DQ]) ++ js ">"
             ++ js "<figcaption>" ++ cap ++ js "</figcaption>")
      with ((js "<img" ++ (js " " ++ x ++ [DQ]) ++ js ">")
            ++ js "<figcaption>" ++ cap ++ js "</figcaption>")
      by (now rewrite <- !app_assoc).
    rewrite firstn_app, firstn_all, Nat.sub_diag.
    cbn [firstn]. rewrite app_nil_r. cbn [app]. now rewrite <- !app_assoc.
Qed.

Lemma inner_caption x cap :
  lacks "<"%char x = true ->
  includes (toLowerCase cap) (js "</fig") = false ->
  exists m,
    str_match fl_i Image.captionRegex
      ((js "<img " ++ x ++ js "`>") ++ js "<figcaption>" ++ cap ++ js "</figcaption>")
    = Some m /\
    group_or_empty 1 m = cap.
Proof.
  intros Hx Hcap. unfold str_match.
  change Image.captionRegex
    with (Seq (lit "<figcaption")
            (seq [WordB; star (none_of [">"%char]); Chr ">"%char;
                  Grp 1 (lazy_star any); lit "</figcaption>"])).
  rewrite exec_from_pass by (now apply img_clear_caption).
  destruct (captionRegex_match (rev (js "<img " ++ x ++ js "`>") ++ []) cap
              (length (js "<img " ++ x ++ js "`>") + 0) Hcap) as (e & Hm & Hc).
  eexists. split.
  - apply exec_from_hit. exact Hm.
  - unfold group_or_empty, mk_match. rewrite Hc.
    now rewrite (group_found 1 _ _ cap).
Qed.

Lemma figure_indent t :
  exists m,
    str_match fl_g Image.indentRegex ("<"%char :: t) = Some m /\
    group_or_empty 1 m = [].
Proof.
  assert (Hm : exists e,
    match_at fl_g Image.indentRegex [] ("<"%char :: t) 0 = Some e /\
    caps e = [(1, ("<"%char :: t, "<"%char :: t))]).
  { eexists. split.
    - unfold match_at, Image.indentRegex. cbn [seq fold_right].
      apply ok_seq, ok_bol; [reflexivity|].
      apply ok_seq, ok_grp.
      apply (ok_star_cls _ _ _ _ _ _ [] ("<"%char :: t));
        [reflexivity | reflexivity | reflexivity |].
      apply ok_eps. reflexivity.
    - reflexivity. }
  destruct Hm as (e & Hm & Hc). eexists. split.
  - unfold str_match. apply exec_from_hit. exact Hm.
  - unfold group_or_empty, mk_match. rewrite Hc.
    now rewrite (group_found 1 _ _ []).
Qed.

(** The callback of the figure pattern on the figure: the image tag in
    normal form, with the caption, stripped of tags and trimmed, as the
    fallback. *)
Lemma figureCallback_figure x cap st :
  lacks "<"%char x = true -> lacks ">"%char x = true ->
  includes (toLowerCase cap) (js "</fig") = false ->
  let img := js "<img " ++ x ++ js "`>" in
  let inner := img ++ js "<figcaption>" ++ cap ++ js "</figcaption>" in
  Image.figureCallback
    (Match 0 (js "<figure>" ++ inner ++ js "</figure>")
       [(1, (inner ++ js "</figure>", js "</figure>"))]) st
  = (Image.normalizeImgTag img (trim (Image.stripHtmlTags cap)),
     Image.Counters true (S (Image.c_figures st)) (Image.c_imgs st)).
Proof.
  intros Hlt Hgt Hcap img inner. unfold Image.figureCallback.
  cbn [m_full].
  assert (Hg : group_or_empty 1
                 (Match 0 (js "<figure>" ++ inner ++ js "</figure>")
                    [(1, (inner ++ js "</figure>", js "</figure>"))]) = inner)
    by (unfold group_or_empty; now rewrite (group_found 1 _ _ inner)).
  rewrite !Hg. clear Hg.
  destruct (figure_indent (js "figure>" ++ inner ++ js "</figure>"))
    as (m3 & H3 & Hi).
  change ("<"%char :: js "figure>" ++ inner ++ js "</figure>")
    with (js "<figure>" ++ inner ++ js "</figure>") in H3.
  rewrite H3, Hi. subst inner img.
  destruct (inner_img x cap Hgt) as (m1 & -> & ->).
  destruct (inner_caption x cap Hlt Hcap) as (m2 & -> & ->).
  reflexivity.
Qed.

(** * The second pass on one tag *)

Lemma img_pass_tag body st :
  lacks ">"%char body = true ->
  word_next (body ++ js ">") = false ->
  let tag := js "<img" ++ body ++ js ">" in
  replace_fn fl_i Image.imgRegex Image.imgCallback tag st
  = Image.imgCallback (Match 0 tag []) st.
Proof.
  intros Hgt Hw tag. subst tag. unfold replace_fn.
  destruct (imgRegex_match [] body [] 0 Hgt Hw) as (e & Hm & Hi).
  rewrite (replace_go_hit fl_i Image.imgRegex _ Image.imgCallback [] _ 0 _ e
             (js "<img" ++ body ++ js ">") [] Hm);
    [| now rewrite <- !app_assoc | discriminate | exact Hi].
  assert (Hcb : forall cps,
             Image.imgCallback (Match 0 (js "<img" ++ body ++ js ">") cps) st
             = Image.imgCallback (Match 0 (js "<img" ++ body ++ js ">") []) st)
    by reflexivity.
  rewrite Hcb.
  destruct (Image.imgCallback _ _) as [rep st1].
  rewrite (replace_go_free fl_i Image.imgRegex _ Image.imgCallback
             no_img no_img_tail img_free) by reflexivity.
  now rewrite app_nil_r.
Qed.

(** A tag in normal form, as the second pass reads it: up to its last
    character it has no closing bracket when the attribute string of the
    tag it comes from has none. *)
Lemma normalized_shape tag fb :
  lacks ">"%char (Image.attrStringOriginal tag) = true ->
  exists body,
    Image.normalizeImgTag tag fb = js "<img" ++ body ++ js ">" /\
    lacks ">"%char body = true /\
    word_next (body ++ js ">") = false.
Proof.
  intros Ha. unfold Image.normalizeImgTag.
  set (chosen := Image.chooseAlt _ _).
  assert (Hc : lacks ">"%char (Image.cleanAttrs (Image.attrStringOriginal tag)) = true).
  { unfold Image.cleanAttrs. apply lacks_trim.
    repeat apply replace_str_lacks; auto. }
  set (attrs := Image.cleanAttrs _) in *.
  exists (Image.attrsPart attrs ++ js " alt=`" ++ htmlEntityEscape chosen ++ js "` /").
  split; [|split].
  - rewrite <- !app_assoc. reflexivity.
  - rewrite !lacks_app.
    destruct (escaped_lacks chosen) as (_ & _ & ->).
    replace (lacks ">"%char (Image.attrsPart attrs)) with true; [reflexivity|].
    destruct attrs; [reflexivity|]. cbn [Image.attrsPart].
    rewrite lacks_app. now rewrite Hc.
  - destruct attrs; reflexivity.
Qed.

(** * Further properties of the scripts *)

(** ** The file collector *)

(** X1. When the collector returns, it returns exactly the files that are
    reached from the root through directories whose names do not start
    with a dot, whose own name does not start with a dot, and whose name in
    lower case ends with one of the extensions. *)
Theorem collectFiles_exact (exts : list jsstring) (dirPath : path)
  (entries : list entry) (out : list path) :
  collectFiles exts dirPath entries [] = Some out ->
  forall p, In p out <-> collectable exts dirPath entries p.
Proof.
  intros H.
  destruct (collectFiles_collects exts entries dirPath)
    as [[_ Hn]|(_ & added & Ha & Hc)].
  - rewrite Hn in H. discriminate H.
  - rewrite Ha in H. cbn [app] in H. injection H as <-. exact Hc.
Qed.

Lemma collectFiles_exact_witness :
  collectable [js ".md"; js ".mdx"] [] sample_tree [js "README.MD"] /\
  ~ collectable [js ".md"; js ".mdx"] [] sample_tree [js "c.md"; js ".cache"; js "docs"].
Proof.
  pose proof (collectFiles_exact [js ".md"; js ".mdx"] [] sample_tree
                [[js "README.MD"]; [js "a.mdx"; js "docs"]] eq_refl) as H.
  split.
  - apply H. left. reflexivity.
  - intros Hc. apply H in Hc. destruct Hc as [Hc|[Hc|[]]]; discriminate Hc.
Defined.



(** X3. The paths collected before the call are kept, in their order, in
    front of the ones that the call adds, and the ones it adds do not
    depend on them. *)
Theorem collectFiles_keeps_collected (exts : list jsstring) (dirPath : path)
  (entries : list entry) (collected : list path) :
  collectFiles exts dirPath entries collected =
  option_map (app collected) (collectFiles exts dirPath entries []).
Proof.
  destruct (collectFiles_collects exts entries dirPath)
    as [[_ Hn]|(_ & added & Ha & _)].
  - now rewrite !Hn.
  - now rewrite !Ha.
Qed.

(** ** The batch runners *)

(** X4. When the collector gives each file once, a run leaves every file
    that was not collected as it was, and every collected file as its own
    turn leaves it: rewritten with the text of the transformer when it can
    be read, the transformer reports a change and the file can be
    written, and untouched otherwise. *)
Theorem main_file_states (t : transformer) (rootDir : path)
  (entries : list entry) (files : store) (collected : list path) :
  collectFiles (script_exts t) rootDir entries [] = Some collected ->
  NoDup collected ->
  exists rs,
    main t rootDir entries files = Some rs /\
    forall p,
      rs_files rs p =
      if existsb (path_eqb p) collected then file_after t (files p) else files p.
Proof.
  intros Hc Hnd. unfold main. rewrite Hc. eexists. split; [reflexivity|].
  intros p. cbn [rs_files]. now rewrite main_loop_files.
Qed.

Lemma main_file_states_witness :
  exists rs,
    main HintToNote [] sample_tree sample_files = Some rs /\
    forall p,
      rs_files rs p =
      if existsb (path_eqb p) [[js "README.MD"]; [js "a.mdx"; js "docs"]]
      then file_after HintToNote (sample_files p) else sample_files p.
Proof.
  apply (main_file_states HintToNote [] sample_tree sample_files
           [[js "README.MD"]; [js "a.mdx"; js "docs"]]).
  - reflexivity.
  - constructor.
    + intros [H|[]]. discriminate H.
    + constructor; [intros [] | constructor].
Defined.

(** X5. A run changes no file but the collectable ones: a file below a
    directory whose name starts with a dot, a file with such a name and a
    file with another extension are as they were. *)
Theorem main_touches_collectable_only (t : transformer) (rootDir : path)
  (entries : list entry) (files : store) (rs : run_state) :
  main t rootDir entries files = Some rs ->
  forall p, ~ collectable (script_exts t) rootDir entries p ->
            rs_files rs p = files p.
Proof.
  unfold main. intros H p Hp.
  destruct (collectFiles (script_exts t) rootDir entries []) as [collected|] eqn:Hc;
    [|discriminate H].
  injection H as <-. cbn [rs_files]. rewrite main_loop_other; [reflexivity|].
  intros Hin. apply Hp.
  destruct (collectFiles_collects (script_exts t) entries rootDir)
    as [[_ Hn]|(_ & added & Ha & Hx)].
  - rewrite Hn in Hc. discriminate Hc.
  - rewrite Ha in Hc. cbn [app] in Hc. injection Hc as <-. now apply Hx.
Qed.

Lemma main_touches_collectable_only_witness :
  exists rs,
    main HintToNote [] sample_tree sample_files = Some rs /\
    rs_files rs [js "config.md"; js ".git"]
    = sample_files [js "config.md"; js ".git"].
Proof.
  eexists. split; [reflexivity|].
  apply (main_touches_collectable_only HintToNote [] sample_tree sample_files _
           eq_refl).
  intros Hc.
  destruct (collectFiles_collects (script_exts HintToNote) sample_tree [])
    as [[_ Hn]|(_ & added & Ha & Hx)].
  - specialize (Hn []). discriminate Hn.
  - specialize (Ha []). vm_compute in Ha. injection Ha as <-.
    apply Hx in Hc. destruct Hc as [Hc|[Hc|[]]]; discriminate Hc.
Defined.

(** X6. The last line of the log is the only [Done] line and reports the
    variables of the loop; the number of changed files is the number of
    [Updated] lines, the totals are the sums of the counters that these
    lines report, and a file gives at most one line: a file that could
    not be read or written adds nothing to the totals. *)
Theorem main_totals (t : transformer) (rootDir : path) (entries : list entry)
  (files : store) (rs : run_state) :
  main t rootDir entries files = Some rs ->
  exists evs collected,
    collectFiles (script_exts t) rootDir entries [] = Some collected /\
    rs_log rs = evs ++ [Done (rs_changed rs) (rs_totals rs)] /\
    Forall (fun e => match e with Done _ _ => False | _ => True end) evs /\
    length evs <= length collected /\
    rs_changed rs = length (updated_counts evs) /\
    rs_totals rs = fold_left add_counts (updated_counts evs) (zero_totals t).
Proof.
  unfold main. intros H.
  destruct (collectFiles (script_exts t) rootDir entries []) as [collected|];
    [|discriminate H].
  injection H as <-. cbn [rs_log rs_changed rs_totals].
  set (rs0 := RunState files [] 0 (zero_totals t)).
  destruct (main_loop_log t collected rs0) as (evs & Hlog & Hnd & Hlen).
  assert (Ht : tallied (zero_totals t) (main_loop t collected rs0)).
  { apply main_loop_tallied. now split. }
  destruct Ht as [Hc Ht]. cbn [rs_log app] in Hlog. rewrite Hlog in Hc, Ht.
  exists evs, collected. rewrite Hlog. auto 10.
Qed.

Lemma main_totals_witness :
  match main HintToNote [] sample_tree sample_files with
  | Some rs =>
    exists evs collected,
      collectFiles (script_exts HintToNote) [] sample_tree [] = Some collected /\
      rs_log rs = evs ++ [Done (rs_changed rs) (rs_totals rs)] /\
      Forall (fun e => match e with Done _ _ => False | _ => True end) evs /\
      length evs <= length collected /\
      rs_changed rs = length (updated_counts evs) /\
      rs_totals rs = fold_left add_counts (updated_counts evs)
                       (zero_totals HintToNote)
  | None => False
  end.
Proof.
  destruct (main HintToNote [] sample_tree sample_files) as [rs|] eqn:E.
  - exact (main_totals HintToNote [] sample_tree sample_files rs E).
  - vm_compute in E. discriminate E.
Defined.

(** The log of the sample run. *)
Lemma main_sample_log :
  option_map rs_log (main HintToNote [] sample_tree sample_files) =
  Some [FailedWrite [js "README.MD"] (js "EACCES");
        Updated [js "a.mdx"; js "docs"] [1; 1];
        Done 1 [1; 1]].
Proof. vm_compute. reflexivity. Qed.

(** ** The escaping *)

(** X7. An escaped value holds no double quote and no angle bracket: it
    cannot end the attribute value or the tag it is written into. *)
Theorem escaped_has_no_delimiter (value : jsstring) :
  lacks DQ (htmlEntityEscape value) = true /\
  lacks "<"%char (htmlEntityEscape value) = true /\
  lacks ">"%char (htmlEntityEscape value) = true /\
  lacks DQ (htmlEscapeAttribute value) = true /\
  lacks "<"%char (htmlEscapeAttribute value) = true /\
  lacks ">"%char (htmlEscapeAttribute value) = true.
Proof.
  destruct (escaped_lacks value) as (H1 & H2 & H3).
  rewrite htmlEscapeAttribute_chars, <- htmlEntityEscape_chars. auto 10.
Qed.

(** X8. The escaping loses nothing: two values with the same escaped
    form are the same value. *)
Theorem escaping_injective (a b : jsstring) :
  (htmlEntityEscape a = htmlEntityEscape b -> a = b) /\
  (htmlEscapeAttribute a = htmlEscapeAttribute b -> a = b).
Proof.
  split; intros H; apply escape_chars_injective.
  - now rewrite <- !htmlEntityEscape_chars.
  - now rewrite <- !htmlEscapeAttribute_chars.
Qed.

Lemma escaping_injective_witness : js "a&b" = js "a&b".
Proof.
  apply (proj1 (escaping_injective (js "a&b") (js "a&b"))). reflexivity.
Defined.

(** X9. The escaping gives a value back as it is exactly when the value
    holds none of [&], the double quote, [<] and [>]. *)
Theorem escaping_fixes_plain_values (value : jsstring) :
  htmlEntityEscape value = value <->
  forallb (fun c => negb (special c)) value = true.
Proof.
  rewrite htmlEntityEscape_chars. split.
  - apply escape_chars_fixed.
  - apply escape_chars_plain.
Qed.

Lemma escaping_fixes_plain_values_witness :
  htmlEntityEscape (js "Take care") = js "Take care".
Proof.
  apply (escaping_fixes_plain_values (js "Take care")). reflexivity.
Defined.

(** ** The counters of the transformers *)

(** X10. For each of the four transformers, [changed] is true exactly
    when one of its counters is not 0. *)
Theorem changed_iff_counted (t : transformer) (s : jsstring) :
  let '(_, changed, counts) := script_process t s in
  changed = (0 <? list_sum counts).
Proof.
  destruct t; cbn [script_process list_sum fold_right]; rewrite Nat.add_0_r.
  - apply embed_tally.
  - apply hint_counts.
  - apply arcade_counts.
  - apply image_tally.
Qed.

(** X11. The hint transformer and the arcade transformer replace every
    match of their patterns, and their counters are the numbers of these
    matches; the end markers are looked for in the text that the pass for
    the start markers gives. *)
Theorem every_match_is_counted (s : jsstring) :
  let text1 := fst (replace_fn fl_m Hint.startTag Hint.startCallback s
                      (Hint.Counters false 0 0)) in
  Hint.startCount (Hint.processContent s)
    = length (matches_of fl_m Hint.startTag s) /\
  Hint.endCount (Hint.processContent s)
    = length (matches_of fl_m Hint.endTag text1) /\
  Arcade.replaced (Arcade.processContent s)
    = length (matches_of fl_mi Arcade.iframeRegex s).
Proof.
  destruct (hint_counts s) as (H1 & H2 & _).
  destruct (arcade_counts s) as (H3 & _). auto.
Qed.

(** X12. The image script counts as unwrapped the figures that hold an
    image tag, and as normalized the image tags of the text without these
    figures that the normalizer changes; a tag that is in normal form
    already is not counted. *)
Theorem image_counters (s : jsstring) :
  let content1 := fst (replace_fn fl_g Image.figureRegex Image.figureCallback s
                         (Image.Counters false 0 0)) in
  Image.figureUnwrapped (Image.processFileContent s)
    = length (filter holds_img (matches_of fl_g Image.figureRegex s)) /\
  Image.imgsNormalized (Image.processFileContent s)
    = length (filter not_normal (matches_of fl_i Image.imgRegex content1)).
Proof. apply image_counts. Qed.

(** ** Texts without anything to rewrite *)

(** X13. A text without the opening of a directive comes back from the
    embed and the hint transformer as it is, with [changed = false] and
    the counters at 0; so does a text without an iframe tag from the
    arcade transformer, and a text without an image tag from the image
    script, whose figures are then left alone. *)
Theorem inert_text_untouched (t : transformer) (s : jsstring) :
  inert t s = true -> script_process t s = (s, false, zero_totals t).
Proof.
  intros H. destruct t; cbn [inert] in H; apply negb_true_iff in H;
    cbn [script_process zero_totals].
  - now rewrite embed_settled.
  - now rewrite hint_settled.
  - now rewrite arcade_settled.
  - now rewrite image_inert.
Qed.

Lemma inert_text_untouched_witness :
  script_process ImageNormalization
    (js "<figure>~  <figcaption>No picture</figcaption>~</figure>")
  = (js "<figure>~  <figcaption>No picture</figcaption>~</figure>", false, [0; 0]).
Proof.
  apply (inert_text_untouched ImageNormalization
           (js "<figure>~  <figcaption>No picture</figcaption>~</figure>")).
  reflexivity.
Defined.

(** ** The attributes of an embed directive *)


(** ** Stripping the tags of a caption *)

(** X15. In the text that [stripHtmlTags] gives, no [<] has a [>] after
    it: nothing is left that the function takes for a tag; stripping
    again changes nothing, and a text without such a pair comes back as
    it is. *)
Theorem stripHtmlTags_leaves_no_tag (text : jsstring) :
  tagless (Image.stripHtmlTags text) = true /\
  Image.stripHtmlTags (Image.stripHtmlTags text) = Image.stripHtmlTags text /\
  (tagless text = true -> Image.stripHtmlTags text = text).
Proof.
  split; [apply stripHtmlTags_tagless|]. split.
  - apply stripHtmlTags_id, stripHtmlTags_tagless.
  - apply stripHtmlTags_id.
Qed.

Lemma stripHtmlTags_leaves_no_tag_witness :
  Image.stripHtmlTags (js "a < b and more") = js "a < b and more".
Proof.
  apply (stripHtmlTags_leaves_no_tag (js "a < b and more")). reflexivity.
Defined.

(** ** The title of an embed block *)

(** X16. Taking the white space off both ends of the body of a block with
    the pattern of the script is trimming it, and the [trim] that follows
    changes nothing more: a block with a url becomes the iframe whose
    title is the caption attribute, when that is not blank, and the
    trimmed body otherwise. *)
Theorem block_title_is_trimmed_body (m : match_result) (st : Embed.counters) :
  replace_str fl_g Embed.edgeSpaceRegex [] (group_or_empty 3 m)
    = trim (group_or_empty 3 m) /\
  Embed.blockCallback m st =
  let a := Embed.parseEmbedAttrs (group_or_empty 2 m) in
  match Embed.attr_url a with
  | [] => (m_full m, st)
  | _ :: _ =>
    (Embed.buildIframe (Embed.attr_url a)
       (Embed.caption_or a (trim (group_or_empty 3 m))) (group_or_empty 1 m),
     Embed.Counters true (S (Embed.c_blocks st)) (Embed.c_singles st))
  end.
Proof.
  split; [apply edge_replace|].
  unfold Embed.blockCallback. cbn zeta.
  rewrite edge_replace, trim_idempotent.
  now destruct (Embed.attr_url _).
Qed.

(** X17. An embed block whose directive holds only a url in double
    quotes, followed by a body on lines of its own and the end marker,
    becomes one iframe: its source is the escaped trimmed url, its title
    the escaped body; one block is counted and no single embed. The url
    has no double quote and no percent sign and is not blank; the body
    has no percent sign and neither starts nor ends with white space. *)
Theorem embed_block_on_own_lines u body :
  lacks DQ u = true -> lacks "%"%char u = true -> trim u <> [] ->
  body <> [] -> starts_clean body -> starts_clean (rev body) ->
  lacks "%"%char body = true ->
  Embed.processContent
    (js "{% embed url=`" ++ u ++ js "` %}" ++ LF :: body ++ LF :: js "{% endembed %}")
  = Embed.Result
      (Embed.iframe_head ++ htmlEscapeAttribute (trim u) ++ Embed.iframe_mid
       ++ htmlEscapeAttribute body ++ Embed.iframe_tail)
      true 1 0.
Proof.
  intros Hq Hu Ht Hne Hc1 Hc2 Hp. rewrite block_forms.
  unfold Embed.processContent, replace_fn.
  destruct (blockRegex_match u body Hu Hne Hc2 Hp) as (e & Hm & Hi & Hc).
  cbv zeta in Hm, Hi, Hc.
  rewrite (replace_go_hit fl_mi Embed.blockRegex _ Embed.blockCallback [] _ 0 _ e
             (js "{% embed" ++ (js " url=`" ++ u ++ js "` ") ++ js "%}"
              ++ (LF :: body ++ [LF]) ++ js "{% endembed %}") [] Hm);
    [| now rewrite app_nil_r | discriminate | exact Hi].
  destruct (Embed.blockCallback _ _) as [rep st1] eqn:Hcb.
  rewrite (replace_go_free fl_mi Embed.blockRegex _ Embed.blockCallback
             no_directive no_directive_tail) by
    (try reflexivity;
     intros bef aft i;
     apply (match_at_needs fl_mi "{%" [Bol; Grp 1 (star ws)] _ bef aft i);
     now right).
  unfold Embed.blockCallback in Hcb. cbn [m_full] in Hcb.
  rewrite edge_replace, trim_idempotent in Hcb.
  unfold group_or_empty in Hcb. rewrite Hc in Hcb.
  rewrite (group_skip 3 4) in Hcb by discriminate.
  rewrite (group_found 3 _ _ (LF :: body ++ [LF])) in Hcb by reflexivity.
  rewrite (group_skip 2 4), (group_skip 2 3) in Hcb by discriminate.
  rewrite (group_found 2 _ _ (js " url=`" ++ u ++ js "` ")) in Hcb
    by (now rewrite <- !app_assoc).
  rewrite (group_skip 1 4), (group_skip 1 3), (group_skip 1 2) in Hcb
    by discriminate.
  rewrite (group_found 1 _ _ []) in Hcb by reflexivity.
  destruct (parse_url_only u Hq) as [Hurl Hcap].
  rewrite Hurl, Hcap, trim_lines in Hcb by assumption.
  destruct (trim u) as [|c t] eqn:Htu; [congruence|].
  injection Hcb as <- <-.
  unfold Embed.buildIframe. rewrite <- Htu, trim_idempotent.
  destruct body as [|b body]; [congruence|].
  rewrite app_nil_r. cbn [app].
  rewrite (replace_go_free fl_mi Embed.singleRegex _ Embed.singleCallback
             no_directive no_directive_tail).
  - reflexivity.
  - intros bef aft i.
    apply (match_at_needs fl_mi "{%" [Bol; Grp 1 (star ws)] _ bef aft i).
    now right.
  - unfold no_directive. change (js "{%") with ["{"%char; "%"%char].
    apply lacks_second.
    rewrite !lacks_app, !escaped_lacks_percent; [reflexivity | exact Hp |].
    now apply lacks_trim.
Qed.

Lemma embed_block_on_own_lines_witness :
  Embed.processContent
    (js "{% embed url=`" ++ js "https://x.com/a?b&c" ++ js "` %}"
     ++ LF :: js "A <b>caption</b>" ++ LF :: js "{% endembed %}")
  = Embed.Result
      (Embed.iframe_head ++ htmlEscapeAttribute (trim (js "https://x.com/a?b&c"))
       ++ Embed.iframe_mid ++ htmlEscapeAttribute (js "A <b>caption</b>")
       ++ Embed.iframe_tail)
      true 1 0.
Proof.
  apply (embed_block_on_own_lines (js "https://x.com/a?b&c") (js "A <b>caption</b>"));
    try reflexivity; discriminate.
Defined.

(** X18. A text that is one Arcade iframe becomes the white space before
    the tag followed by the url: the source comes first in the tag, in
    double quotes, with either scheme and a path that is not empty; the
    rest of the tag has no further [src=] and the content no [<]. White
    space between the end tag and the end of the text is dropped with the
    tag, and one replacement is counted. *)
Theorem arcade_iframe_becomes_url indent (secure : bool) p b c trail :
  forallb is_space indent = true ->
  p <> [] -> lacks DQ p = true -> lacks ">"%char (p ++ b) = true ->
  includes (toLowerCase (p ++ DQ :: b)) (js "src=") = false ->
  lacks "<"%char (b ++ c) = true ->
  forallb is_space trail = true ->
  let url := js (if secure then "https" else "http")%string
               ++ js "://app.arcade.software/" ++ p in
  Arcade.processContent
    (indent ++ js "<iframe src=`" ++ url
     ++ DQ :: b ++ ">"%char :: c ++ js "</iframe>" ++ trail)
  = Arcade.Result (indent ++ url) true 1.
Proof.
  intros Hind Hne Hq Hgt Hsrc Hlt Htrail url.
  destruct (iframeRegex_match indent secure p b c trail
              Hind Hne Hq Hgt Hsrc Hlt Htrail) as (e & Hm & Hi & Hc).
  cbv zeta in Hm, Hi, Hc. fold url in Hm, Hi, Hc.
  unfold Arcade.processContent, replace_fn.
  rewrite (replace_go_hit fl_mi Arcade.iframeRegex _ Arcade.callback [] _ 0 _ e
             (indent ++ js "<iframe src=`" ++ url
              ++ DQ :: b ++ ">"%char :: c ++ js "</iframe>" ++ trail) [] Hm);
    [| now rewrite app_nil_r | now destruct indent | exact Hi].
  unfold Arcade.callback, group_or_empty. rewrite Hc.
  rewrite (group_found 2 _ _ url) by reflexivity.
  rewrite (group_skip 1 2) by discriminate.
  rewrite (group_found 1 _ _ indent) by reflexivity.
  assert (Hend : forall bef i, match_at fl_mi Arcade.iframeRegex bef [] i = None)
    by (intros bef i;
        apply (match_at_needs_lower fl_mi "<iframe" [Bol; Grp 1 (star ws)] _ bef [] i);
        reflexivity).
  cbn [replace_go]. rewrite Hend.
  cbn [Arcade.c_replaced Arcade.c_changed]. now rewrite app_nil_r.
Qed.

Lemma arcade_iframe_becomes_url_witness :
  Arcade.processContent
    (js "  " ++ js "<iframe src=`"
     ++ (js "https" ++ js "://app.arcade.software/" ++ js "share/abc")
     ++ DQ :: js " width=`100%`" ++ ">"%char :: js "Demo"
     ++ js "</iframe>" ++ js " ~")
  = Arcade.Result
      (js "  " ++ js "https" ++ js "://app.arcade.software/" ++ js "share/abc")
      true 1.
Proof.
  apply (arcade_iframe_becomes_url (js "  ") true (js "share/abc")
           (js " width=`100%`") (js "Demo") (js " ~"));
    try reflexivity; discriminate.
Defined.

(** X19. A text that is one figure, with an image tag whose attributes
    end in a double quote and a caption, becomes the image tag alone,
    normalized twice: by the figure pass with the caption, stripped of
    its tags and trimmed, as the fallback alt, and then by the image pass
    with no fallback. One figure is counted, and one image when the second
    normalization changes the tag. The attributes have no angle bracket
    and the caption has no [</fig] in any case of the letters. *)
Theorem figure_becomes_image x cap :
  lacks "<"%char x = true -> lacks ">"%char x = true ->
  includes (toLowerCase cap) (js "</fig") = false ->
  let img := js "<img " ++ x ++ js "`>" in
  let first := Image.normalizeImgTag img (trim (Image.stripHtmlTags cap)) in
  let second := Image.normalizeImgTag first [] in
  Image.processFileContent
    (js "<figure>" ++ img ++ js "<figcaption>" ++ cap ++ js "</figcaption></figure>")
  = Image.Result second true 1 (if str_eqb second first then 0 else 1).
Proof.
  intros Hlt Hgt Hcap img first second.
  set (inner := img ++ js "<figcaption>" ++ cap ++ js "</figcaption>").
  assert (Ht : js "<figure>" ++ img ++ js "<figcaption>" ++ cap
                 ++ js "</figcaption></figure>"
               = js "<figure>" ++ inner ++ js "</figure>").
  { subst inner img. cbn [app]. rewrite <- !app_assoc. reflexivity. }
  rewrite Ht. clear Ht.
  destruct (figureRegex_match x cap Hlt Hcap) as (e & Hm & Hi & Hc).
  cbv zeta in Hm, Hi, Hc. fold img in Hm, Hi, Hc. fold inner in Hm, Hi, Hc.
  unfold Image.processFileContent, replace_fn at 1.
  rewrite (replace_go_hit fl_g Image.figureRegex _ Image.figureCallback [] _ 0 _ e
             (js "<figure>" ++ inner ++ js "</figure>") [] Hm);
    [| now rewrite app_nil_r | discriminate | exact Hi].
  rewrite Hc.
  rewrite (figureCallback_figure x cap _ Hlt Hgt Hcap).
  fold img. fold first.
  rewrite (replace_go_free fl_g Image.figureRegex _ Image.figureCallback
             no_figure no_figure_tail figure_free) by reflexivity.
  rewrite app_nil_r. cbn [Image.c_figures Image.c_imgs].
  destruct (normalized_shape img (trim (Image.stripHtmlTags cap)))
    as (body & Hshape & Hbody & Hword).
  { assert (Hf : img = js "<img" ++ (js " " ++ x ++ [DQ]) ++ js ">")
      by (subst img; cbn [app]; now rewrite <- !app_assoc).
    rewrite Hf, (wholeTag_plain _ (js " " ++ x) DQ);
      [| reflexivity | reflexivity | discriminate | reflexivity].
    rewrite !lacks_app. now rewrite Hgt. }
  fold first in Hshape.
  pose proof (img_pass_tag body (Image.Counters true 1 0) Hbody Hword) as Hpass.
  cbv zeta in Hpass. rewrite <- Hshape in Hpass. rewrite Hpass.
  unfold Image.imgCallback. cbn [m_full]. fold second.
  destruct (str_eqb second first); reflexivity.
Qed.

Lemma figure_becomes_image_witness :
  Image.processFileContent
    (js "<figure>" ++ (js "<img " ++ js "src=`a.png" ++ js "`>")
     ++ js "<figcaption>" ++ js "<p>A & B</p>" ++ js "</figcaption></figure>")
  = Image.Result (js "<img src=`a.png` alt=`A &amp;amp; B` />") true 1 1.
Proof.
  apply (figure_becomes_image (js "src=`a.png") (js "<p>A & B</p>"));
    reflexivity.
Defined.
